(** * Coverage triage core of AFLRun: bitmap routines of [afl-fuzz-bitmap.c]

    A shallow embedding of the bitmap engine, the multi-map novelty
    detector, the artifact naming routine, the valuation side channel with
    its chained hash map, and the save-if-interesting pipeline, followed by
    the properties established about them.

    Conventions.
    - Fixed-width C integers are [Z] with the wrap-around written out
      ([u8], [u32], [u64]).
    - A byte buffer ([u8 *]) is a [list byte]; wider accesses through casted
      pointers ([u32 *], [u64 *]) are little-endian loads and stores
      (the file is compiled with [WORD_SIZE_64] on a little-endian host).
    - Virgin maps are shared objects reached through pointers: they live in
      a heap of buffers and a pointer is an index into that heap.
    - Code that terminates the process ([FATAL], [PFATAL], [exit]) yields
      no result.
    - Routines of other translation units are parameters of the
      development; the in-line helpers of [coverage-64.h], which this file
      includes, are written after their description in the specification. *)

From Stdlib Require Import ZArith List Lia Bool String Ascii DecimalString.
From coqutil Require Import Byte Word.LittleEndianList Z.prove_Zeq_bitwise.
From stdpp Require Import base option list.

#[local] Open Scope Z_scope.
#[local] Open Scope list_scope.
Import ListNotations.

(* ================================================================== *)
(** * Machine integers *)

Definition u8 (z : Z) : Z := z mod 2 ^ 8.
Definition u16 (z : Z) : Z := z mod 2 ^ 16.
Definition u32 (z : Z) : Z := z mod 2 ^ 32.
Definition u64 (z : Z) : Z := z mod 2 ^ 64.

(** [s32] reinterpretation of a 32-bit pattern. *)
Definition s32 (z : Z) : Z := (z + 2 ^ 31) mod 2 ^ 32 - 2 ^ 31.

(** C truth value of an integer. *)
Definition truthy (z : Z) : bool := negb (z =? 0).

Definition b2u8 (b : bool) : Z := if b then 1 else 0.

(* ================================================================== *)
(** * Byte buffers and the heap of shared maps *)

Abbreviation ptr := nat (only parsing).

Abbreviation heap := (list (list byte)) (only parsing).

(** The buffer a pointer designates (empty when dangling). *)
Definition deref (h : heap) (p : ptr) : list byte := default [] (h !! p).

(** [((u32 * )mem)[i]]: the four bytes of the [i]-th 32-bit word. *)
Definition chunk32 (mem : list byte) (i : nat) : list byte :=
  take 4 (drop (4 * i) mem).

(** [((u64 * )mem)[i]]: the eight bytes of the [i]-th 64-bit word. *)
Definition chunk64 (mem : list byte) (i : nat) : list byte :=
  take 8 (drop (8 * i) mem).

Definition load32 (mem : list byte) (i : nat) : Z := le_combine (chunk32 mem i).
Definition load64 (mem : list byte) (i : nat) : Z := le_combine (chunk64 mem i).

(** [((u64 * )mem)[i] = w]. *)
Definition store64 (mem : list byte) (i : nat) (w : Z) : list byte :=
  take (8 * i) mem ++ le_split 8 w ++ drop (8 * i + 8) mem.

(* ================================================================== *)
(** * Enumerations of the fuzzer headers *)

(** Outcome of a run of the main target ([FSRV_RUN_*]). *)
Inductive fsrv_run_result :=
| FSRV_RUN_OK
| FSRV_RUN_TMOUT
| FSRV_RUN_CRASH
| FSRV_RUN_ERROR
| FSRV_RUN_NOINST
| FSRV_RUN_NOBITS.

(** Outcome of a run of the valuation binary ([FAULT_*]). *)
Inductive fault_t :=
| FAULT_NONE
| FAULT_TMOUT
| FAULT_CRASH
| FAULT_ERROR.

Inductive stage_val_type_t :=
| STAGE_VAL_NONE
| STAGE_VAL_LE
| STAGE_VAL_BE.

#[global] Instance fsrv_run_result_eq_dec : EqDecision fsrv_run_result.
Proof. solve_decision. Defined.

#[global] Instance fault_t_eq_dec : EqDecision fault_t.
Proof. solve_decision. Defined.

#[global] Instance stage_val_type_eq_dec : EqDecision stage_val_type_t.
Proof. solve_decision. Defined.

(* ================================================================== *)
(** * Hash map ([struct hashmap], [struct key_value_pair]) *)

(** A chain of [key_value_pair] nodes linked through [next] is the list of
    its (key, value) pairs from the head; [value] is a [void *], with [0]
    for [NULL]. *)
Definition key_value_pair := (Z * Z)%type.

Record hashmap := mk_hashmap {
  size : Z;
  table_size : Z;
  table : list (list key_value_pair)
}.

(* ================================================================== *)
(** * Observable effects on the environment *)

Inductive event :=
| EvWriteFile (fname : string) (data : list byte) (* open(O_CREAT), ck_write, close *)
| EvChmod (fname : string)
| EvRemove (fname : string)
| EvRename (src dst : string)
| EvLog (tag : string)                            (* PAC_LOGF *)
| EvWriteTestcase (data : list byte)              (* write_to_testcase *)
| EvForkExec (exe : string) (env_opt : string)    (* fork + execve *)
| EvSetitimer (ms : Z)
| EvCrashReadme
| EvSystem (cmd : string).

(* ================================================================== *)
(** * Fuzzer state ([afl_state_t]) *)

(** [afl->fsrv], the fork server handle. *)
Record afl_forkserver_t := mk_fsrv {
  trace_bits : list byte;
  map_size : Z;
  real_map_size : Z;
  trace_targets_num : Z;        (* fsrv.trace_targets->num *)
  total_execs : Z;
  exec_tmout : Z;
  last_kill_signal : Z;
  uses_asan : bool;
  use_stdin : bool;
  nyx_mode : bool;
  nyx_aux_string : list byte
}.

(** The custom mutator in use, reduced to its [afl_custom_describe] hook. *)
Record custom_mutator := mk_custom_mutator {
  afl_custom_describe : option (Z -> option string)
}.

(** Fields this file only reads. *)
Record afl_settings := mk_settings {
  out_dir : string;
  argv : list string;
  orig_cmdline : string;
  schedule : Z;
  is_aflrun : bool;
  crash_mode : bool;
  non_instrumented_mode : bool;
  hang_tmout : Z;
  stop_soon : bool;
  afl_keep_timeouts : bool;      (* afl_env.afl_keep_timeouts *)
  afl_no_crash_readme : Z;       (* afl_env.afl_no_crash_readme *)
  infoexec : option string;
  q_testcase_max_cache_size : Z;
  start_time : Z;
  prev_run_time : Z;
  (* naming context *)
  syncing_party : option string;
  syncing_case : Z;
  current_entry : Z;
  splicing_with : Z;
  current_custom_fuzz : option custom_mutator;
  stage_short : string;
  stage_cur_byte : Z;
  stage_cur_val : Z;
  stage_val_type : stage_val_type_t
}.

(** Counters and time stamps the pipeline updates. *)
Record afl_counters := mk_counters {
  total_crashes : Z;
  total_tmouts : Z;
  saved_crashes : Z;
  saved_hangs : Z;
  saved_tmouts : Z;
  total_saved_crashes : Z;
  total_saved_positives : Z;
  queued_extra : Z;
  queued_with_cov : Z;
  last_hang_time : Z;
  last_crash_time : Z;
  last_crash_execs : Z
}.

(** [struct queue_entry], the fields the core touches. *)
Record queue_entry := mk_queue_entry {
  fname : string;
  len : Z;
  tested : Z;
  path_cksum : Z;
  exec_cksum : Z;
  has_new_cov : Z;
  aflrun_extra : Z;
  n_fuzz_entry : Z
}.

(** File-scope statics of the valuation runner: they are not fields of
    [afl_state_t] in the source and are kept beside them here. *)
Record valuation_statics := mk_statics {
  child_timed_out : bool;
  kill_signal : Z;
  dev_urandom_fd : Z;
  dev_null_fd : Z;
  out_dir_fd : Z
}.

Record afl_state_t := mk_afl {
  fsrv : afl_forkserver_t;
  settings : afl_settings;
  counters : afl_counters;
  mem_heap : heap;               (* the buffers behind the map pointers *)
  virgin_bits : ptr;
  virgin_tmout : ptr;
  virgin_crash : ptr;
  bitmap_changed : bool;
  virgins : list ptr;            (* afl->virgins[0 .. num_maps) *)
  clusters : list Z;             (* afl->clusters[0 .. num_maps) *)
  new_bits : list Z;             (* afl->new_bits *)
  n_fuzz : Z -> Z;               (* afl->n_fuzz[] *)
  queued_items : Z;
  queue_top : queue_entry;
  value_map : hashmap;
  statics : valuation_statics;
  events : list event            (* environment effects, oldest first *)
}.

(** ** Field updates *)

Definition set_trace_bits (t : list byte) (f : afl_forkserver_t) : afl_forkserver_t :=
  mk_fsrv t (map_size f) (real_map_size f) (trace_targets_num f) (total_execs f)
    (exec_tmout f) (last_kill_signal f) (uses_asan f) (use_stdin f) (nyx_mode f)
    (nyx_aux_string f).

Definition set_fsrv (f : afl_forkserver_t) (a : afl_state_t) : afl_state_t :=
  mk_afl f (settings a) (counters a) (mem_heap a) (virgin_bits a) (virgin_tmout a)
    (virgin_crash a) (bitmap_changed a) (virgins a) (clusters a) (new_bits a)
    (n_fuzz a) (queued_items a) (queue_top a) (value_map a) (statics a) (events a).

Definition set_counters (c : afl_counters) (a : afl_state_t) : afl_state_t :=
  mk_afl (fsrv a) (settings a) c (mem_heap a) (virgin_bits a) (virgin_tmout a)
    (virgin_crash a) (bitmap_changed a) (virgins a) (clusters a) (new_bits a)
    (n_fuzz a) (queued_items a) (queue_top a) (value_map a) (statics a) (events a).

Definition set_mem_heap (h : heap) (a : afl_state_t) : afl_state_t :=
  mk_afl (fsrv a) (settings a) (counters a) h (virgin_bits a) (virgin_tmout a)
    (virgin_crash a) (bitmap_changed a) (virgins a) (clusters a) (new_bits a)
    (n_fuzz a) (queued_items a) (queue_top a) (value_map a) (statics a) (events a).

Definition set_bitmap_changed (b : bool) (a : afl_state_t) : afl_state_t :=
  mk_afl (fsrv a) (settings a) (counters a) (mem_heap a) (virgin_bits a)
    (virgin_tmout a) (virgin_crash a) b (virgins a) (clusters a) (new_bits a)
    (n_fuzz a) (queued_items a) (queue_top a) (value_map a) (statics a) (events a).

Definition set_virgins (v : list ptr) (c : list Z) (a : afl_state_t) : afl_state_t :=
  mk_afl (fsrv a) (settings a) (counters a) (mem_heap a) (virgin_bits a)
    (virgin_tmout a) (virgin_crash a) (bitmap_changed a) v c (new_bits a)
    (n_fuzz a) (queued_items a) (queue_top a) (value_map a) (statics a) (events a).

Definition set_new_bits (nb : list Z) (a : afl_state_t) : afl_state_t :=
  mk_afl (fsrv a) (settings a) (counters a) (mem_heap a) (virgin_bits a)
    (virgin_tmout a) (virgin_crash a) (bitmap_changed a) (virgins a) (clusters a) nb
    (n_fuzz a) (queued_items a) (queue_top a) (value_map a) (statics a) (events a).

Definition set_n_fuzz (f : Z -> Z) (a : afl_state_t) : afl_state_t :=
  mk_afl (fsrv a) (settings a) (counters a) (mem_heap a) (virgin_bits a)
    (virgin_tmout a) (virgin_crash a) (bitmap_changed a) (virgins a) (clusters a)
    (new_bits a) f (queued_items a) (queue_top a) (value_map a) (statics a) (events a).

Definition set_queue_top (q : queue_entry) (a : afl_state_t) : afl_state_t :=
  mk_afl (fsrv a) (settings a) (counters a) (mem_heap a) (virgin_bits a)
    (virgin_tmout a) (virgin_crash a) (bitmap_changed a) (virgins a) (clusters a)
    (new_bits a) (n_fuzz a) (queued_items a) q (value_map a) (statics a) (events a).

Definition set_value_map (m : hashmap) (a : afl_state_t) : afl_state_t :=
  mk_afl (fsrv a) (settings a) (counters a) (mem_heap a) (virgin_bits a)
    (virgin_tmout a) (virgin_crash a) (bitmap_changed a) (virgins a) (clusters a)
    (new_bits a) (n_fuzz a) (queued_items a) (queue_top a) m (statics a) (events a).

Definition emit (e : event) (a : afl_state_t) : afl_state_t :=
  mk_afl (fsrv a) (settings a) (counters a) (mem_heap a) (virgin_bits a)
    (virgin_tmout a) (virgin_crash a) (bitmap_changed a) (virgins a) (clusters a)
    (new_bits a) (n_fuzz a) (queued_items a) (queue_top a) (value_map a)
    (statics a) (events a ++ [e]).

Definition set_statics (st : valuation_statics) (a : afl_state_t) : afl_state_t :=
  mk_afl (fsrv a) (settings a) (counters a) (mem_heap a) (virgin_bits a)
    (virgin_tmout a) (virgin_crash a) (bitmap_changed a) (virgins a) (clusters a)
    (new_bits a) (n_fuzz a) (queued_items a) (queue_top a) (value_map a)
    st (events a).

(** The trace buffer of the fork server. *)
Definition afl_trace (a : afl_state_t) : list byte := trace_bits (fsrv a).

(** [afl->new_bits] and [q->len], for the places where a local variable
    of the source carries the name of the field. *)
Definition afl_new_bits (a : afl_state_t) : list Z := new_bits a.
Definition queue_entry_len (q : queue_entry) : Z := len q.

(* ================================================================== *)
(** * Bit counting *)

(** The parallel population count of one 32-bit word, as in the loop body
    of [count_bits]. *)
Definition popcount_word (v : Z) : Z :=
  let v := u32 (v - Z.land (Z.shiftr v 1) 0x55555555) in
  let v := u32 (Z.land v 0x33333333 + Z.land (Z.shiftr v 2) 0x33333333) in
  Z.shiftr (u32 (Z.land (u32 (v + Z.shiftr v 4)) 0xF0F0F0F * 0x01010101)) 24.

(** [while (i--)] of [count_bits]; [k] is the number of words already read
    through [ptr]. *)
Fixpoint count_bits_loop (i : nat) (k : nat) (mem : list byte) (ret : Z) : Z :=
  match i with
  | O => ret
  | S i' =>
      let v := load32 mem k in
      if v =? 0xffffffff
      then count_bits_loop i' (S k) mem (u32 (ret + 32))
      else count_bits_loop i' (S k) mem (u32 (ret + popcount_word v))
  end.

Definition count_bits (afl : afl_state_t) (mem : list byte) : Z :=
  let i := Z.shiftr (u32 (real_map_size (fsrv afl) + 3)) 2 in
  count_bits_loop (Z.to_nat i) 0 mem 0.

(** Reference notion: the number of one bits of a non-negative integer,
    and of a buffer read as a bit string. *)
Fixpoint pos_popcount (p : positive) : Z :=
  match p with
  | xH => 1
  | xO q => pos_popcount q
  | xI q => 1 + pos_popcount q
  end.

Definition Z_popcount (z : Z) : Z :=
  match z with
  | Zpos p => pos_popcount p
  | _ => 0
  end.

Definition hamming_weight (mem : list byte) : Z :=
  fold_right (fun b acc => Z_popcount (byte.unsigned b) + acc) 0 mem.

(** The number of 32-bit words [count_bits] reads. *)
Definition count_bits_words (afl : afl_state_t) : nat :=
  Z.to_nat (Z.shiftr (u32 (real_map_size (fsrv afl) + 3)) 2).

(* ================================================================== *)
(** * Byte counting *)

(** [while (i--)] of [count_bytes]; [k] is the number of words already
    read through [ptr]. *)
Fixpoint count_bytes_loop (i : nat) (k : nat) (mem : list byte) (ret : Z) : Z :=
  match i with
  | O => ret
  | S i' =>
      let v := load32 mem k in
      if v =? 0 then count_bytes_loop i' (S k) mem ret
      else
        let ret := if truthy (Z.land v 0x000000ff) then u32 (ret + 1) else ret in
        let ret := if truthy (Z.land v 0x0000ff00) then u32 (ret + 1) else ret in
        let ret := if truthy (Z.land v 0x00ff0000) then u32 (ret + 1) else ret in
        let ret := if truthy (Z.land v 0xff000000) then u32 (ret + 1) else ret in
        count_bytes_loop i' (S k) mem ret
  end.

Definition count_bytes (afl : afl_state_t) (mem : list byte) : Z :=
  let i := Z.shiftr (u32 (real_map_size (fsrv afl) + 3)) 2 in
  count_bytes_loop (Z.to_nat i) 0 mem 0.

(** [while (i--)] of [count_non_255_bytes]. *)
Fixpoint count_non_255_bytes_loop (i : nat) (k : nat) (mem : list byte) (ret : Z) : Z :=
  match i with
  | O => ret
  | S i' =>
      let v := load32 mem k in
      if v =? 0xffffffff then count_non_255_bytes_loop i' (S k) mem ret
      else
        let ret :=
          if negb (Z.land v 0x000000ff =? 0x000000ff) then u32 (ret + 1) else ret in
        let ret :=
          if negb (Z.land v 0x0000ff00 =? 0x0000ff00) then u32 (ret + 1) else ret in
        let ret :=
          if negb (Z.land v 0x00ff0000 =? 0x00ff0000) then u32 (ret + 1) else ret in
        let ret :=
          if negb (Z.land v 0xff000000 =? 0xff000000) then u32 (ret + 1) else ret in
        count_non_255_bytes_loop i' (S k) mem ret
  end.

Definition count_non_255_bytes (afl : afl_state_t) (mem : list byte) : Z :=
  let i := Z.shiftr (u32 (real_map_size (fsrv afl) + 3)) 2 in
  count_non_255_bytes_loop (Z.to_nat i) 0 mem 0.

(* ================================================================== *)
(** * Trace compaction *)

(** Body of the [while] loop of [minimize_bits] at index [i]:
    [if ( *(src++)) dst[i >> 3] |= 1 << (i & 7);]. Accesses beyond the two
    buffers are outside the model. *)
Definition minimize_bits_body (src : list byte) (dst : list byte) (i : nat) : list byte :=
  if truthy (byte.unsigned (default Byte.x00 (src !! i))) then
    let j := Z.to_nat (Z.shiftr (Z.of_nat i) 3) in
    <[j := byte.of_Z (Z.lor (byte.unsigned (default Byte.x00 (dst !! j)))
                            (Z.shiftl 1 (Z.land (Z.of_nat i) 7)))]> dst
  else dst.

(** [minimize_bits]; the result is the buffer [dst] after the call. *)
Definition minimize_bits (afl : afl_state_t) (dst src : list byte) : list byte :=
  fold_left (minimize_bits_body src) (seq 0 (Z.to_nat (map_size (fsrv afl)))) dst.

(* ================================================================== *)
(** * Classification tables *)

(** Read of a constant table at a C index. *)
Definition tbl_get (t : list Z) (i : Z) : Z := default 0 (t !! Z.to_nat i).

(** [simplify_lookup]: [[0] = 1, [1 ... 255] = 128]. *)
Definition simplify_lookup : list Z := [1] ++ replicate 255 128.

(** [count_class_lookup8], one line per designated initialiser. *)
Definition count_class_lookup8 : list Z :=
  [0] ++                      (* [0]           = 0   *)
  [1] ++                      (* [1]           = 1   *)
  [2] ++                      (* [2]           = 2   *)
  [4] ++                      (* [3]           = 4   *)
  replicate 4 8 ++            (* [4 ... 7]     = 8   *)
  replicate 8 16 ++           (* [8 ... 15]    = 16  *)
  replicate 16 32 ++          (* [16 ... 31]   = 32  *)
  replicate 96 64 ++          (* [32 ... 127]  = 64  *)
  replicate 128 128.          (* [128 ... 255] = 128 *)

(** The body of the inner loop of [init_count_class16]. *)
Definition init_count_class16_store (b1 b2 : Z) (tbl : list Z) : list Z :=
  <[Z.to_nat (Z.shiftl b1 8 + b2) :=
      u16 (Z.lor (Z.shiftl (tbl_get count_class_lookup8 b1) 8)
                 (tbl_get count_class_lookup8 b2))]> tbl.

(** [init_count_class16], run on the zero-initialised global array. *)
Definition init_count_class16 (tbl : list Z) : list Z :=
  fold_left (fun tbl b1 =>
      fold_left (fun tbl b2 => init_count_class16_store b1 b2 tbl)
        (map Z.of_nat (seq 0 256)) tbl)
    (map Z.of_nat (seq 0 256)) tbl.

(** [count_class_lookup16] once [init_count_class16] has run. *)
Definition count_class_lookup16 : list Z :=
  init_count_class16 (replicate (Z.to_nat 65536) 0).

(* ================================================================== *)
(** * Coverage primitives of [coverage-64.h] *)

(** Replacement of the [i]-th 64-bit word of a buffer by eight bytes. *)
Definition store_chunk64 (mem : list byte) (i : nat) (w : list byte) : list byte :=
  take (8 * i) mem ++ w ++ drop (8 * i + 8) mem.

(** Modelled from the spec: [classify_word] of coverage-64.h, which is not
    part of the sources at hand. "Classification applies lookup16 across
    the trace word-aligned": each 16-bit unit of the word, read on the
    host, is replaced by its [count_class_lookup16] entry. *)
Fixpoint classify_word (w : list byte) : list byte :=
  match w with
  | b0 :: b1 :: rest =>
      le_split 2 (tbl_get count_class_lookup16 (le_combine [b0; b1]))
        ++ classify_word rest
  | _ => w
  end.

(** Modelled from the spec: [classify_counts] of coverage-64.h. The trace
    of [map_size] bytes is classified one 64-bit word at a time. *)
Definition classify_counts (f : afl_forkserver_t) : afl_forkserver_t :=
  set_trace_bits
    (fold_left (fun mem i => store_chunk64 mem i (classify_word (chunk64 mem i)))
       (seq 0 (Z.to_nat (Z.shiftr (map_size f) 3))) (trace_bits f))
    f.

(** Modelled from the spec: [simplify_trace] of coverage-64.h.
    "[simplify_lookup[b]] maps [0 -> 1], everything else [-> 128]. Applied
    byte-wise to the trace". *)
Definition simplify_trace (afl : afl_state_t) (bytes : list byte) : list byte :=
  let n := Z.to_nat (map_size (fsrv afl)) in
  map (fun b => byte.of_Z (tbl_get simplify_lookup (byte.unsigned b))) (take n bytes)
    ++ drop n bytes.

(** Novelty of one trace byte against one virgin byte, after the rule of
    the spec: a non-zero byte whose virgin byte is still [0xff] is a new
    edge (2); otherwise a class bit still set in the virgin byte is a new
    count bucket (1). *)
Definition byte_novelty (cur vir : byte) : Z :=
  if negb (byte.unsigned cur =? 0) && (byte.unsigned vir =? 0xff) then 2
  else if negb (Z.land (byte.unsigned cur) (byte.unsigned vir) =? 0) then 1
  else 0.

(** Highest byte novelty over the byte positions of a word. *)
Fixpoint word_novelty (current virgin : list byte) : Z :=
  match current, virgin with
  | c :: cs, v :: vs => Z.max (byte_novelty c v) (word_novelty cs vs)
  | _, _ => 0
  end.

(** Modelled from the spec: [discover_word] of coverage-64.h.
    "If [*current & *virgin] is non-zero, one or more edges are novel. For
    each non-zero byte position [i] in [*current] where the corresponding
    byte of [*virgin] is [0xff], raise [tag] to 2; otherwise, if the
    current byte's class bit is not yet cleared in the virgin byte, raise
    [tag] to [max(tag,1)]. Then clear the seen bits from the virgin word."
    [current] is the trace word, [vm] the virgin buffer and [idx] the
    position of the word in it; [modify = false] is the dry run of the
    multi-map variant. *)
Definition discover_word (ret : Z) (current : list byte) (vm : list byte)
    (idx : nat) (modify : bool) : Z * list byte :=
  let virgin := chunk64 vm idx in
  if Z.land (le_combine current) (le_combine virgin) =? 0 then (ret, vm)
  else
    (Z.max ret (word_novelty current virgin),
     if modify
     then store64 vm idx (Z.land (le_combine virgin) (Z.lnot (le_combine current)))
     else vm).

(** Modelled from the spec: [discover_word_mul] of coverage-64.h.
    "For each virgin [k] in [[0,num)], compute the per-edge novelty level
    using the same rule as the single-map version, fold via max into
    [new_bits[k]], and, if [modify], clear the seen bits in [virgins[k]]."
    The maps are reached through their pointers, one after the other. *)
Fixpoint discover_word_mul_from (k : nat) (new_bits : list Z) (current : list byte)
    (virgins : list ptr) (idx : nat) (modify : bool) (h : heap) : list Z * heap :=
  match virgins with
  | [] => (new_bits, h)
  | p :: rest =>
      let '(r, vm) :=
        discover_word (default 0 (new_bits !! k)) current (deref h p) idx modify in
      discover_word_mul_from (S k) (<[k := r]> new_bits) current rest idx modify
        (if modify then <[p := vm]> h else h)
  end.

Definition discover_word_mul (new_bits : list Z) (current : list byte)
    (virgins : list ptr) (idx : nat) (modify : bool) (h : heap) : list Z * heap :=
  discover_word_mul_from 0 new_bits current virgins idx modify h.

(** Modelled from the spec: [skim] of coverage-64.h. "Returns true iff any
    word in [[current_start, current_end)] has at least one bit that is
    still set in at least one virgin. It is a pure read, no mutation."
    The pre-filter runs on the raw trace and must agree with the decision
    taken after classification ("if skim returns false, classification
    would not have changed the decision"; the comment over
    [has_new_bits_unclassified] calls it "a combination of
    classify_counts and has_new_bits"), so each word is compared in its
    classified form, computed on the fly and not stored. [nwords] is the
    number of words between the two pointers. *)
Definition skim (h : heap) (virgins : list ptr) (current : list byte)
    (nwords : nat) : bool :=
  existsb (fun i =>
      existsb (fun p =>
          negb (Z.land (le_combine (classify_word (chunk64 current i)))
                       (load64 (deref h p) i) =? 0))
        virgins)
    (seq 0 nwords).

(* ================================================================== *)
(** * Novelty detection *)

(** Body of the [while (i--)] loop of [has_new_bits]; [k] is the position
    reached by [current] and [virgin]. *)
Definition has_new_bits_body (trace : list byte) (s : Z * list byte) (k : nat)
    : Z * list byte :=
  let '(ret, vm) := s in
  let current := chunk64 trace k in
  if le_combine current =? 0 then (ret, vm)
  else discover_word ret current vm k true.

(** [has_new_bits]: the single-map pass, which commits its finds. *)
Definition has_new_bits (afl : afl_state_t) (virgin_map : ptr) : Z * afl_state_t :=
  let i := Z.to_nat (Z.shiftr (u32 (real_map_size (fsrv afl) + 7)) 3) in
  let res :=
    fold_left (has_new_bits_body (afl_trace afl)) (seq 0 i)
      (0, deref (mem_heap afl) virgin_map) in
  let ret := fst res in
  let afl := set_mem_heap (<[virgin_map := snd res]> (mem_heap afl)) afl in
  let afl :=
    if truthy ret && bool_decide (virgin_map = virgin_bits afl)
    then set_bitmap_changed true afl else afl in
  (ret, afl).

(** Body of the [for] loop of [has_new_bits_mul] over the trace words. *)
Definition has_new_bits_mul_body (trace : list byte) (virgin_maps : list ptr)
    (modify : bool) (s : list Z * heap) (i : nat) : list Z * heap :=
  let '(nb, h) := s in
  let current := chunk64 trace i in
  if le_combine current =? 0 then (nb, h)
  else discover_word_mul nb current virgin_maps i modify h.

(** [has_new_bits_mul]: the multi-map pass over [virgin_maps[0 .. num)];
    the array and its length are the list [virgin_maps]. *)
Definition has_new_bits_mul (afl : afl_state_t) (virgin_maps : list ptr)
    (modify : bool) : Z * afl_state_t :=
  let num := length virgin_maps in
  let new_bits0 := replicate num 0 in                 (* afl_realloc, memset *)
  let len := Z.to_nat (Z.shiftr (u32 (real_map_size (fsrv afl) + 7)) 3) in
  let res :=
    fold_left (has_new_bits_mul_body (afl_trace afl) virgin_maps modify)
      (seq 0 len) (new_bits0, mem_heap afl) in
  let nb := fst res in
  let primary := default 0 (nb !! 0%nat) in
  let diversity := fold_left Z.max (drop 1 nb) 0 in
  (u8 (Z.lor primary (Z.shiftl diversity 2)),
   set_new_bits nb (set_mem_heap (snd res) afl)).

(** [has_new_bits_unclassified]: the read-only pre-filter over the raw
    trace; [end = trace_bits + map_size]. *)
Definition has_new_bits_unclassified (afl : afl_state_t) (virgin_maps : list ptr) : Z :=
  let nwords := Z.to_nat ((map_size (fsrv afl) + 7) / 8) in
  if negb (skim (mem_heap afl) virgin_maps (afl_trace afl) nwords) then 0 else 1.

(** Reference notion: the novelty level of a trace against one virgin
    map over the first [len] words -- 0 nothing new, 1 a new count bucket
    only, 2 a new edge. *)
Definition word_level (current virgin : list byte) : Z :=
  if Z.land (le_combine current) (le_combine virgin) =? 0 then 0
  else word_novelty current virgin.

Definition novelty (trace : list byte) (len : nat) (vm : list byte) : Z :=
  fold_left (fun acc i => Z.max acc (word_level (chunk64 trace i) (chunk64 vm i)))
    (seq 0 len) 0.

Definition max_level (l : list Z) : Z := fold_left Z.max l 0.

(** The number of 64-bit words the novelty passes visit. *)
Definition mul_words (afl : afl_state_t) : nat :=
  Z.to_nat (Z.shiftr (u32 (real_map_size (fsrv afl) + 7)) 3).

(** Reference notion: the count class of one trace byte. *)
Definition bucket (b : byte) : byte :=
  byte.of_Z (tbl_get count_class_lookup8 (byte.unsigned b)).

(** The number of trace bytes [classify_counts] rewrites. *)
Definition classified_bytes (f : afl_forkserver_t) : nat :=
  (8 * Z.to_nat (Z.shiftr (map_size f) 3))%nat.

(* ================================================================== *)
(** * Results of routines that may terminate the process *)

Inductive outcome (A : Type) :=
| Done (a : A) (afl : afl_state_t)   (* normal return *)
| Fatal (msg : string)               (* FATAL / PFATAL: the process is gone *)
| OutOfFuel.                         (* the bound on back jumps was reached *)

Arguments Done {A} a afl.
Arguments Fatal {A} msg.
Arguments OutOfFuel {A}.

Definition M (A : Type) : Type := afl_state_t -> outcome A.

#[global] Instance M_ret : MRet M := fun A a afl => Done a afl.

#[global] Instance M_bind : MBind M := fun A B f m afl =>
  match m afl with
  | Done a afl' => f a afl'
  | Fatal msg => Fatal msg
  | OutOfFuel => OutOfFuel
  end.

Definition get_afl : M afl_state_t := fun afl => Done afl afl.
Definition update (f : afl_state_t -> afl_state_t) : M unit := fun afl => Done tt (f afl).
Definition fatal {A} (msg : string) : M A := fun _ => Fatal msg.
Definition out_of_fuel {A} : M A := fun _ => OutOfFuel.

(** A state transformer that also returns a value. *)
Definition call {A} (f : afl_state_t -> A * afl_state_t) : M A :=
  fun afl => let '(a, afl') := f afl in Done a afl'.

(* ================================================================== *)
(** * The environment of the core *)

(** Status of the valuation child as [waitpid] reports it, with the
    flag the [SIGALRM] handler sets and the value found in the
    uninitialised local [is_run_failed]. *)
Record child_report := mk_child_report {
  fork_failed : bool;
  waitpid_failed : bool;
  term_signal : option Z;      (* WIFSIGNALED, WTERMSIG *)
  exit_status : Z;             (* WEXITSTATUS *)
  timed_out : bool;            (* child_timed_out *)
  is_run_failed : bool
}.

(** What the core consumes from the operating system, the fork server,
    the queue, the scheduler ([aflrun_*]) and the headers. Operations that
    only answer are functions of the state; collaborators that take the
    fuzzer state and may change it are state transformers. *)
Record environment := mk_environment {
  (* constants of the headers *)
  FAST : Z;
  RARE : Z;
  N_FUZZ_SIZE : Z;
  KEEP_UNIQUE_HANG : Z;
  KEEP_UNIQUE_CRASH : Z;
  NAME_MAX : Z;
  PATH_MAX : Z;
  ARITH_MAX : Z;
  HASH_CONST : Z;
  MSAN_ERROR : Z;
  SIGKILL : Z;
  (* libc and operating system *)
  getenv : string -> option string;
  get_cur_time : afl_state_t -> Z;
  open_fails : afl_state_t -> string -> bool;           (* open(2) returns < 0 *)
  file_exists : afl_state_t -> string -> bool;          (* access(F_OK) == 0 *)
  file_contents : afl_state_t -> string -> option (list byte);  (* fopen, fread *)
  valuation_child : afl_state_t -> child_report;
  (* hashing *)
  hash32 : list byte -> Z -> Z;
  hash64 : list byte -> Z -> Z;
  rand_below : afl_state_t -> Z -> Z;
  (* fork server and queue *)
  trace_ctx : afl_state_t -> list byte;                 (* fsrv.trace_ctx, MAP_TR_SIZE bytes *)
  write_to_testcase : afl_state_t -> list byte -> Z -> Z -> list byte * Z;
  fuzz_run_target : afl_state_t -> Z -> fsrv_run_result * afl_state_t;
  add_to_queue : afl_state_t -> string -> Z -> Z -> afl_state_t;
  calibrate_case : afl_state_t -> list byte -> Z -> Z -> fsrv_run_result * afl_state_t;
  queue_testcase_store_mem : afl_state_t -> list byte -> afl_state_t;
  (* scheduler *)
  aflrun_recover_virgin : afl_state_t -> afl_state_t;
  aflrun_get_virgins : afl_state_t -> list (ptr * Z);
  aflrun_has_new_path :
    afl_state_t -> Z -> option (list Z) -> list Z -> Z * afl_state_t;
  aflrun_max_clusters : afl_state_t -> Z;
  aflrun_get_seed_virgins : afl_state_t -> list (ptr * Z);
  aflrun_queue_cycle : afl_state_t -> Z
}.

(* ================================================================== *)
(** * Formatting ([sprintf] conversions in use) *)

Definition strlen (s : string) : Z := Z.of_nat (String.length s).

(** [%u], [%llu] *)
Definition fmt_u (z : Z) : string := NilZero.string_of_uint (N.to_uint (Z.to_N z)).

(** [%d] *)
Definition fmt_d (z : Z) : string := NilZero.string_of_int (Z.to_int z).

(** [%+d] *)
Definition fmt_plus_d (z : Z) : string :=
  if z <? 0 then fmt_d z else ("+" ++ fmt_d z)%string.

Definition pad0 (width : nat) (s : string) : string :=
  (string_of_list_ascii (repeat "0"%char (width - String.length s)) ++ s)%string.

(** [%06u], [%06llu] *)
Definition fmt_06u (z : Z) : string := pad0 6 (fmt_u z).

(** [%02u] *)
Definition fmt_02u (z : Z) : string := pad0 2 (fmt_u z).

(** [%06d] *)
Definition fmt_06d (z : Z) : string :=
  if z <? 0 then ("-" ++ pad0 5 (fmt_u (- z)))%string else pad0 6 (fmt_u z).

(** [ssize_t] reading of a 64-bit pattern. *)
Definition s64 (z : Z) : Z := (z + 2 ^ 63) mod 2 ^ 64 - 2 ^ 63.

(* ================================================================== *)
(** * Artifact naming *)

Section Naming.
Variable E : environment.

(** The descriptor before the suffixes, [None] on
  [FATAL("filename got too long")]. *)
Definition describe_op_stem (afl : afl_state_t) (is_timeout : bool)
  (real_max_len : Z) : option string :=
let st := settings afl in
match syncing_party st with
| Some party =>
    Some ("sync:" ++ party ++ ",src:" ++ fmt_06u (syncing_case st))%string
| None =>
    let ret := ("src:" ++ fmt_06u (current_entry st))%string in
    let ret :=
      if 0 <=? splicing_with st
      then (ret ++ "+" ++ fmt_06d (splicing_with st))%string else ret in
    let ret :=
      (ret ++ ",time:"
           ++ fmt_u (u64 (get_cur_time E afl + prev_run_time st - start_time st))
           ++ ",execs:" ++ fmt_u (total_execs (fsrv afl)))%string in
    match current_custom_fuzz st ≫= afl_custom_describe with
    | Some custom_describe =>
        let ret := (ret ++ ",")%string in
        let len_current := strlen ret in
        let size_left :=
          s64 (u64 (real_max_len - len_current - strlen ",+cov2"
                    - strlen ",+div2" - strlen ",+path" - 2)) in
        let size_left :=
          if is_timeout then s64 (u64 (size_left - strlen ",+tout"))
          else size_left in
        if size_left <=? 0 then None
        else
          match custom_describe size_left with
          | None | Some EmptyString =>
              Some (ret ++ "op:" ++ stage_short st)%string
          | Some custom_description =>
              Some (ret ++ substring 0 (Z.to_nat size_left) custom_description)%string
          end
    | None =>
        let ret := (ret ++ ",op:" ++ stage_short st)%string in
        if 0 <=? stage_cur_byte st then
          let ret := (ret ++ ",pos:" ++ fmt_d (stage_cur_byte st))%string in
          if bool_decide (stage_val_type st <> STAGE_VAL_NONE) then
            Some (ret ++ ",val:"
                      ++ (if bool_decide (stage_val_type st = STAGE_VAL_BE)
                          then "be:" else "")
                      ++ fmt_plus_d (stage_cur_val st))%string
          else Some ret
        else Some (ret ++ ",rep:" ++ fmt_d (stage_cur_val st))%string
    end
end.

(** The suffixes appended after the stem. *)
Definition describe_op_suffix (ret : string) (is_timeout : bool)
  (new_bits new_div new_paths : Z) : string :=
let ret := if is_timeout then (ret ++ ",+tout")%string else ret in
let ret :=
  if truthy new_bits
  then ((ret ++ ",+cov") ++ (if (new_bits =? 2)%Z then "2" else ""))%string
  else ret in
let ret :=
  if truthy new_div
  then ((ret ++ ",+div") ++ (if (new_div =? 2)%Z then "2" else ""))%string
  else ret in
if truthy new_paths then (ret ++ ",+path")%string else ret.

(** The descriptor as built, before the final length check. *)
Definition describe_op_build (afl : afl_state_t) (new_bits new_paths : Z)
  (max_description_len : Z) : option string :=
let is_timeout := truthy (Z.land new_bits 0xf0) in
let new_bits := if is_timeout then u8 (new_bits - 0x80) else new_bits in
let new_div := Z.shiftr new_bits 2 in
let new_bits := Z.land new_bits 3 in
let real_max_len := Z.min max_description_len 256 in
ret ← describe_op_stem afl is_timeout real_max_len;
Some (describe_op_suffix ret is_timeout new_bits new_div new_paths).

(** [describe_op]; [None] when the process is terminated by [FATAL]. *)
Definition describe_op (afl : afl_state_t) (new_bits new_paths : Z)
  (max_description_len : Z) : option string :=
ret ← describe_op_build afl new_bits new_paths max_description_len;
if max_description_len <=? strlen ret then None   (* describe string is too long *)
else Some ret.
End Naming.

(* ================================================================== *)
(** * Hash map operations

    [ck_alloc] either returns memory or ends the process itself, so the
    [NULL] tests after it never fire; a division by a zero table size
    traps. Both ends of the process are [None]. *)

Definition hashmap_create (table_size : Z) : hashmap :=
  mk_hashmap 0 table_size (replicate (Z.to_nat table_size) []).

Definition hashmap_fit (key table_size : Z) : option Z :=
  if table_size =? 0 then None else Some (key mod table_size).

(** The [while (pair != NULL)] loop of [hashmap_resize] over one chain. *)
Fixpoint hashmap_resize_chain (chain : list key_value_pair) (new_table_size : Z)
    (new_table : list (list key_value_pair)) : option (list (list key_value_pair)) :=
  match chain with
  | [] => Some new_table
  | kv :: next =>
      index ← hashmap_fit (fst kv) new_table_size;
      hashmap_resize_chain next new_table_size
        (<[Z.to_nat index := kv :: default [] (new_table !! Z.to_nat index)]> new_table)
  end.

(** The [for] loop of [hashmap_resize] over the old buckets. *)
Fixpoint hashmap_resize_table (old_table : list (list key_value_pair))
    (new_table_size : Z) (new_table : list (list key_value_pair))
    : option (list (list key_value_pair)) :=
  match old_table with
  | [] => Some new_table
  | chain :: rest =>
      new_table ← hashmap_resize_chain chain new_table_size new_table;
      hashmap_resize_table rest new_table_size new_table
  end.

Definition hashmap_resize (map : hashmap) : option hashmap :=
  let new_table_size := u32 (table_size map * 2) in
  new_table ← hashmap_resize_table (take (Z.to_nat (table_size map)) (table map))
                 new_table_size (replicate (Z.to_nat new_table_size) []);
  Some (mk_hashmap (size map) new_table_size new_table).

Definition hashmap_size (map : hashmap) : Z := size map.

Definition hashmap_insert (map : hashmap) (key value : Z) : option hashmap :=
  index ← hashmap_fit key (table_size map);
  let chain := default [] (table map !! Z.to_nat index) in
  let map :=
    mk_hashmap (u32 (size map + 1)) (table_size map)
      (<[Z.to_nat index := (key, value) :: chain]> (table map)) in
  if size map >? table_size map / 2 then hashmap_resize map else Some map.

(** The search of [hashmap_remove] along one chain: the chain without its
    first pair for [key], or [None] when no pair has that key. *)
Fixpoint chain_remove (chain : list key_value_pair) (key : Z)
    : option (list key_value_pair) :=
  match chain with
  | [] => None
  | kv :: next =>
      if fst kv =? key then Some next
      else rest ← chain_remove next key; Some (kv :: rest)
  end.

Definition hashmap_remove (map : hashmap) (key : Z) : option hashmap :=
  index ← hashmap_fit key (table_size map);
  match chain_remove (default [] (table map !! Z.to_nat index)) key with
  | Some chain =>
      Some (mk_hashmap (u32 (size map - 1)) (table_size map)
              (<[Z.to_nat index := chain]> (table map)))
  | None => Some map
  end.

(** The search of [hashmap_get] along one chain; [None] is [NULL]. *)
Fixpoint chain_get (chain : list key_value_pair) (key : Z) : option key_value_pair :=
  match chain with
  | [] => None
  | kv :: next => if fst kv =? key then Some kv else chain_get next key
  end.

Definition hashmap_get (map : hashmap) (key : Z) : option (option key_value_pair) :=
  index ← hashmap_fit key (table_size map);
  Some (chain_get (default [] (table map !! Z.to_nat index)) key).

(* ================================================================== *)
(** * Valuation side channel and save pipeline *)

(** Where control goes after [switch (fault)] in [save_if_interesting]:
    an early [return keeping], or [break] with the artifact name chosen. *)
Inductive flow :=
| Return (keeping : Z)
| Break (fn : string) (mem : list byte) (len : Z) (keeping : Z).

Section Pipeline.
Variable E : environment.

(** [snprintf(_, PATH_MAX, ...)] keeps at most [PATH_MAX - 1] characters. *)
Definition snprintf_path (s : string) : string :=
substring 0 (Z.to_nat (PATH_MAX E - 1)) s.

(** [open(fn, O_WRONLY | O_CREAT | O_EXCL)], [ck_write], [close]. *)
Definition create_file (fn : string) (mem : list byte) (len : Z) : M unit :=
afl ← get_afl;
if open_fails E afl fn then fatal ("Unable to create '" ++ fn ++ "'")
else update (emit (EvWriteFile fn (take (Z.to_nat len) mem))).

Definition write_bitmap : M unit :=
afl ← get_afl;
if negb (bitmap_changed afl) then mret tt
else
  update (set_bitmap_changed false);;
  let fname := snprintf_path (out_dir (settings afl) ++ "/fuzz_bitmap") in
  if open_fails E afl fname then fatal ("Unable to open '" ++ fname ++ "'")
  else
    update (emit (EvWriteFile fname
              (take (Z.to_nat (map_size (fsrv afl)))
                    (deref (mem_heap afl) (virgin_bits afl))))).

Definition write_crash_readme : M unit :=
afl ← get_afl;
if open_fails E afl (out_dir (settings afl) ++ "/crashes/README.txt") then mret tt
else update (emit EvCrashReadme).

(** ** Valuation *)

Definition hash_file (afl : afl_state_t) (filename : string) : Z :=
match file_contents E afl filename with
| None => 0                                        (* WARNF, return 0 *)
| Some data =>
    let length := Z.of_nat (length data) in
    let max_read := Z.shiftl 1 25 in
    let length := if length <? max_read then length else max_read in
    hash32 E (take (Z.to_nat length) data) (HASH_CONST E)
end.

(** Lazy opening of one of the persistent descriptors. *)
Definition open_persistent (fd : Z) (path : string) : M Z :=
if fd <? 0 then
  afl ← get_afl;
  if open_fails E afl path
  then fatal ("[PacFuzz] [run_valuation_binary] Unable to open " ++ path)
  else mret 0
else mret fd.

Definition run_valuation_binary (argv : list string) (timeout : Z)
  (env_opt : string) : M fault_t :=
afl ← get_afl;
urandom ← open_persistent (dev_urandom_fd (statics afl)) "/dev/urandom";
null ← open_persistent (dev_null_fd (statics afl)) "/dev/null";
out ← open_persistent (out_dir_fd (statics afl)) (out_dir (settings afl));
let report := valuation_child E afl in
if fork_failed report then fatal "[PacFuzz] [run_valuation_binary] fork() failed"
else
  update (emit (EvForkExec (hd ""%string argv) env_opt));;
  update (emit (EvSetitimer timeout));;
  if waitpid_failed report
  then fatal "[PacFuzz] [run_valuation_binary] waitpid() failed"
  else
    update (emit (EvSetitimer 0));;
    let st signal :=
      mk_statics (timed_out report) signal urandom null out in
    match term_signal report with
    | Some sig =>
        update (set_statics (st (u8 sig)));;
        if timed_out report && (u8 sig =? SIGKILL E) then mret FAULT_TMOUT
        else mret FAULT_CRASH
    | None =>
        if uses_asan (fsrv afl) && (exit_status report =? MSAN_ERROR E) then
          update (set_statics (st 0));; mret FAULT_CRASH
        else
          update (set_statics (st (kill_signal (statics afl))));;
          if is_run_failed report then mret FAULT_ERROR else mret FAULT_NONE
    end.

(** The end of [run_valuation], from [u32 hash = hash_file(tmpfile)]:
  the side file is hashed, the valuation map is probed, and the hash
  is inserted when it is new. *)
Definition probe_value_map (tmpfile : string) : M (Z * Z * option string) :=
afl ← get_afl;
let hash := hash_file afl tmpfile in
match hashmap_get (value_map afl) hash with
| None => fatal "hashmap_fit: division by zero"
| Some (Some kvp) =>
    update (emit (EvLog "[PacFuzz] [run_valuation] [already-exist]"));;
    update (emit (EvRemove tmpfile));;
    mret (0, 0, None)
| Some None =>
    match hashmap_insert (value_map afl) hash 0 with
    | None => fatal "hashmap_insert: the hash map cannot grow"
    | Some map =>
        update (set_value_map map);;
        mret (1, hash, Some tmpfile)
    end
end.

(** [run_valuation] returns its result with the two out parameters
  [*val_hash] and [*valuation_file]. *)
Definition run_valuation (crashed : Z) (argv : list string) (mem : list byte)
  (len : Z) : M (Z * Z * option string) :=
afl ← get_afl;
let num := 1 + rand_below E afl (ARITH_MAX E) in
match getenv E "PACFIX_VAL_EXE", getenv E "PACFIX_COV_DIR" with
| None, _ => mret (0, 0, None)
| Some _, None => mret (0, 0, None)
| Some valexe, Some covdir =>
    let tmpfile :=
      if truthy crashed
      then (covdir ++ "/__valuation_file_"
              ++ fmt_u (total_saved_crashes (counters afl)))%string
      else (covdir ++ "/__valuation_file_noncrash_"
              ++ fmt_u (total_saved_positives (counters afl)))%string in
    let tmpfile_env := ("PACFIX_FILENAME=" ++ tmpfile)%string in
    update (emit (EvChmod tmpfile));;
    update (emit (EvRemove tmpfile));;
    update (emit (EvWriteTestcase (fst (write_to_testcase E afl mem len 0))));;
    fault_tmp ← run_valuation_binary (valexe :: tail argv) 10000 tmpfile_env;
    afl ← get_afl;
    if bool_decide (fault_tmp = FAULT_TMOUT) || negb (file_exists E afl tmpfile) then
      update (emit (EvLog "[PacFuzz] [run_valuation] [timeout] [no-file]"));;
      mret (0, 0, None)
    else probe_value_map tmpfile
end.

Definition save_valuation (val_hash : Z) (valuation_file : string)
  (crashed : Z) : M unit :=
afl ← get_afl;
let c := counters afl in
let c :=
  if truthy crashed then
    mk_counters (total_crashes c) (total_tmouts c) (saved_crashes c) (saved_hangs c)
      (saved_tmouts c) (u64 (total_saved_crashes c + 1)) (total_saved_positives c)
      (queued_extra c) (queued_with_cov c) (last_hang_time c) (last_crash_time c)
      (last_crash_execs c)
  else
    mk_counters (total_crashes c) (total_tmouts c) (saved_crashes c) (saved_hangs c)
      (saved_tmouts c) (total_saved_crashes c) (u64 (total_saved_positives c + 1))
      (queued_extra c) (queued_with_cov c) (last_hang_time c) (last_crash_time c)
      (last_crash_execs c) in
update (set_counters c);;
let target_file :=
  ("memory/" ++ (if truthy crashed then "neg" else "pos") ++ "/id:"
     ++ fmt_06u (if truthy crashed then total_saved_crashes c
                 else total_saved_positives c))%string in
let target_file_full := (out_dir (settings afl) ++ "/" ++ target_file)%string in
update (emit (EvRename valuation_file target_file_full)).

Definition get_valuation (argv : list string) (use_mem : list byte) (len : Z)
  (crashed : Z) : M Z :=
update (emit (EvLog "[PacFuzz] [targets]"));;
afl ← get_afl;
if (trace_targets_num (fsrv afl) >? 0) || truthy crashed then
  r ← run_valuation crashed argv use_mem len;
  let '(success, val_hash, valuation_file) := r in
  (if truthy success
   then save_valuation val_hash (default ""%string valuation_file) crashed
   else mret tt);;
  mret success
else mret 0.

(** ** Save pipeline *)

Definition bump (f : afl_counters -> afl_counters) : M unit :=
update (fun afl => set_counters (f (counters afl)) afl).

Definition inc_total_crashes (c : afl_counters) : afl_counters :=
mk_counters (u64 (total_crashes c + 1)) (total_tmouts c) (saved_crashes c)
  (saved_hangs c) (saved_tmouts c) (total_saved_crashes c)
  (total_saved_positives c) (queued_extra c) (queued_with_cov c)
  (last_hang_time c) (last_crash_time c) (last_crash_execs c).

Definition inc_total_tmouts (c : afl_counters) : afl_counters :=
mk_counters (total_crashes c) (u64 (total_tmouts c + 1)) (saved_crashes c)
  (saved_hangs c) (saved_tmouts c) (total_saved_crashes c)
  (total_saved_positives c) (queued_extra c) (queued_with_cov c)
  (last_hang_time c) (last_crash_time c) (last_crash_execs c).

Definition inc_saved_tmouts (c : afl_counters) : afl_counters :=
mk_counters (total_crashes c) (total_tmouts c) (saved_crashes c)
  (saved_hangs c) (u64 (saved_tmouts c + 1)) (total_saved_crashes c)
  (total_saved_positives c) (queued_extra c) (queued_with_cov c)
  (last_hang_time c) (last_crash_time c) (last_crash_execs c).

Definition inc_queued_extra (c : afl_counters) : afl_counters :=
mk_counters (total_crashes c) (total_tmouts c) (saved_crashes c)
  (saved_hangs c) (saved_tmouts c) (total_saved_crashes c)
  (total_saved_positives c) (u32 (queued_extra c + 1)) (queued_with_cov c)
  (last_hang_time c) (last_crash_time c) (last_crash_execs c).

Definition inc_queued_with_cov (c : afl_counters) : afl_counters :=
mk_counters (total_crashes c) (total_tmouts c) (saved_crashes c)
  (saved_hangs c) (saved_tmouts c) (total_saved_crashes c)
  (total_saved_positives c) (queued_extra c) (u32 (queued_with_cov c + 1))
  (last_hang_time c) (last_crash_time c) (last_crash_execs c).

(** [++afl->saved_hangs; afl->last_hang_time = get_cur_time();] *)
Definition note_hang (now : Z) (c : afl_counters) : afl_counters :=
mk_counters (total_crashes c) (total_tmouts c) (saved_crashes c)
  (u64 (saved_hangs c + 1)) (saved_tmouts c) (total_saved_crashes c)
  (total_saved_positives c) (queued_extra c) (queued_with_cov c)
  now (last_crash_time c) (last_crash_execs c).

Definition inc_saved_crashes (c : afl_counters) : afl_counters :=
mk_counters (total_crashes c) (total_tmouts c) (u64 (saved_crashes c + 1))
  (saved_hangs c) (saved_tmouts c) (total_saved_crashes c)
  (total_saved_positives c) (queued_extra c) (queued_with_cov c)
  (last_hang_time c) (last_crash_time c) (last_crash_execs c).

(** [afl->last_crash_time = get_cur_time(); afl->last_crash_execs = ...] *)
Definition note_crash (now execs : Z) (c : afl_counters) : afl_counters :=
mk_counters (total_crashes c) (total_tmouts c) (saved_crashes c)
  (saved_hangs c) (saved_tmouts c) (total_saved_crashes c)
  (total_saved_positives c) (queued_extra c) (queued_with_cov c)
  (last_hang_time c) now execs.

Definition classify : M unit :=
update (fun afl => set_fsrv (classify_counts (fsrv afl)) afl).

Definition simplify : M unit :=
update (fun afl =>
  set_fsrv (set_trace_bits (simplify_trace afl (afl_trace afl)) (fsrv afl)) afl).

(** [describe_op] inside the pipeline: [FATAL] ends it. *)
Definition describe (new_bits new_paths max_len : Z) : M string :=
afl ← get_afl;
match describe_op E afl new_bits new_paths max_len with
| Some s => mret s
| None => fatal "describe string is too long"
end.

(** From the label [save_to_queue] to [keeping = 1]. *)
Definition save_to_queue (mem : list byte) (len : Z)
  (new_bits new_paths is_timeout cksum : Z) : M unit :=
afl ← get_afl;
dop ← describe (u8 (new_bits + is_timeout)) new_paths
        (NAME_MAX E - strlen "id:000000,");
let queue_fn :=
  (out_dir (settings afl) ++ "/queue/id:" ++ fmt_06u (queued_items afl)
     ++ "," ++ dop)%string in
create_file queue_fn mem len;;
update (fun afl => add_to_queue E afl queue_fn len 0);;
afl ← get_afl;
let q := queue_top afl in
let extra :=
  (Z.land new_bits 3 =? 0) && (truthy (Z.shiftr new_bits 2) || truthy new_paths) in
let cov := Z.land new_bits 3 =? 2 in
let q :=
  mk_queue_entry (fname q) (queue_entry_len q) 1
    (hash64 E (trace_ctx E afl) (HASH_CONST E))
    (hash64 E (take (Z.to_nat (map_size (fsrv afl))) (afl_trace afl)) (HASH_CONST E))
    (if cov then 1 else has_new_cov q)
    (if extra then 1 else aflrun_extra q)
    (if truthy cksum then cksum mod N_FUZZ_SIZE E else n_fuzz_entry q) in
update (set_queue_top q);;
(if extra then bump inc_queued_extra else mret tt);;
(if cov then bump inc_queued_with_cov else mret tt);;
(if truthy cksum then
   update (fun afl =>
     set_n_fuzz (fun i => if i =? cksum mod N_FUZZ_SIZE E then 1 else n_fuzz afl i) afl)
 else mret tt);;
afl ← get_afl;
res ← call (fun afl => calibrate_case E afl mem (aflrun_queue_cycle E afl) 0);
if bool_decide (res = FSRV_RUN_ERROR) then fatal "Unable to execute target application"
else
  afl ← get_afl;
  if truthy (q_testcase_max_cache_size (settings afl))
  then update (fun afl => queue_testcase_store_mem E afl mem)
  else mret tt.

(** From the label [keep_as_crash] to the [break] of the crash case. *)
Definition keep_as_crash (mem : list byte) (len keeping : Z) (classified : bool)
  : M flow :=
bump inc_total_crashes;;
afl ← get_afl;
if KEEP_UNIQUE_CRASH E <=? saved_crashes (counters afl) then mret (Return keeping)
else
  fresh ←
    (if negb (non_instrumented_mode (settings afl)) then
       (if negb classified then classify else mret tt);;
       simplify;;
       hnb ← call (fun afl => has_new_bits afl (virgin_crash afl));
       mret (truthy hnb)
     else mret true);
  if negb fresh then mret (Return keeping)
  else
    afl ← get_afl;
    (if (saved_crashes (counters afl) =? 0)
          && negb (afl_no_crash_readme (settings afl) =? 1)
     then write_crash_readme else mret tt);;
    dop ← describe 0 0 (NAME_MAX E - strlen "id:000000,sig:00,");
    afl ← get_afl;
    let fn :=
      snprintf_path
        (out_dir (settings afl) ++ "/crashes/id:"
           ++ fmt_06u (saved_crashes (counters afl)) ++ ",sig:"
           ++ fmt_02u (last_kill_signal (fsrv afl)) ++ "," ++ dop) in
    bump inc_saved_crashes;;
    (match infoexec (settings afl) with
     | Some cmd => update (emit (EvSystem cmd))
     | None => mret tt
     end);;
    afl ← get_afl;
    bump (note_crash (get_cur_time E afl) (total_execs (fsrv afl)));;
    mret (Break fn mem len keeping).

(** [case FSRV_RUN_TMOUT] of the [switch]. The jump back to
  [save_to_queue] re-enters the [switch] with the same [fault], hence
  the bound [fuel] on the number of such jumps. *)
Fixpoint tmout_case (fuel : nat) (mem : list byte) (len : Z)
  (new_bits new_paths keeping : Z) (classified : bool) (cksum : Z) : M flow :=
match fuel with
| O => out_of_fuel
| S fuel =>
    bump inc_total_tmouts;;
    afl ← get_afl;
    if KEEP_UNIQUE_HANG E <=? saved_hangs (counters afl) then mret (Return keeping)
    else
      r ←
        (if negb (non_instrumented_mode (settings afl)) then
           (if negb classified then classify else mret tt);;
           simplify;;
           hnb ← call (fun afl => has_new_bits afl (virgin_tmout afl));
           mret (truthy hnb, true)
         else mret (true, classified));
      let '(fresh, classified) := r in
      if negb fresh then mret (Return keeping)
      else
        let is_timeout := 0x80 in
        let save_hang (mem : list byte) (len : Z) : M flow :=
          dop ← describe 0 0 (NAME_MAX E - strlen "id:000000,");
          afl ← get_afl;
          let fn :=
            snprintf_path
              (out_dir (settings afl) ++ "/hangs/id:"
                 ++ fmt_06u (saved_hangs (counters afl)) ++ "," ++ dop) in
          bump (note_hang (get_cur_time E afl));;
          mret (Break fn mem len keeping) in
        afl ← get_afl;
        if exec_tmout (fsrv afl) <? hang_tmout (settings afl) then
          let '(mem1, tmp_len) := write_to_testcase E afl mem len 0 in
          update (emit (EvWriteTestcase mem1));;
          r ←
            (if truthy tmp_len then mret (mem1, tmp_len)
             else
               afl ← get_afl;
               let '(mem2, len2) := write_to_testcase E afl mem1 len 1 in
               update (emit (EvWriteTestcase mem2));;
               mret (mem2, len2));
          let '(mem, len) := r in
          new_fault ← call (fun afl => fuzz_run_target E afl (hang_tmout (settings afl)));
          classify;;
          afl ← get_afl;
          if negb (stop_soon (settings afl)) && bool_decide (new_fault = FSRV_RUN_CRASH)
          then keep_as_crash mem len keeping classified
          else if stop_soon (settings afl) || bool_decide (new_fault <> FSRV_RUN_TMOUT)
          then
            if afl_keep_timeouts (settings afl) then
              bump inc_saved_tmouts;;
              update (fun afl => set_virgins [virgin_bits afl] [0] afl);;
              save_to_queue mem len new_bits new_paths is_timeout cksum;;
              tmout_case fuel mem len new_bits new_paths 1 classified cksum
            else mret (Return keeping)
          else save_hang mem len
        else save_hang mem len
end.

(** The novelty protocol of the [OK]/[CRASH] branch up to the label
  [save_to_queue]: [None] is the early [return 0], otherwise the final
  tag and the new-path flag. *)
Definition novelty_protocol (inc : Z) : M (option (Z * Z)) :=
afl ← get_afl;
let extras := aflrun_get_virgins E afl in
update (set_virgins (virgin_bits afl :: map fst extras) (0 :: map snd extras));;
afl ← get_afl;
let new_bits := has_new_bits_unclassified afl (virgins afl) in
(if truthy new_bits then
   classify;;
   tag ← call (fun afl => has_new_bits_mul afl (virgins afl) false);
   mret tt
 else mret tt);;
new_paths ←
  call (fun afl =>
    aflrun_has_new_path E afl inc
      (if truthy new_bits then Some (afl_new_bits afl) else None)
      (clusters afl));
if negb (truthy new_bits) && negb (truthy new_paths) then
  afl ← get_afl;
  (if crash_mode (settings afl) then bump inc_total_crashes else mret tt);;
  mret None
else
  afl ← get_afl;
  let n := aflrun_max_clusters E afl in
  let seeds := aflrun_get_seed_virgins E afl in
  update (set_virgins (virgin_bits afl :: map fst seeds) (0 :: map snd seeds));;
  (if negb (truthy new_bits) then classify else mret tt);;
  tag ← call (fun afl => has_new_bits_mul afl (virgins afl) true);
  mret (Some (tag, new_paths)).

(** The saturated increment of the path frequency. *)
Definition update_path_frequency : M Z :=
afl ← get_afl;
let st := settings afl in
if negb (is_aflrun st) && (FAST E <=? schedule st) && (schedule st <=? RARE E) then
  let cksum :=
    hash64 E (take (Z.to_nat (map_size (fsrv afl))) (afl_trace afl)) (HASH_CONST E) in
  let slot := cksum mod N_FUZZ_SIZE E in
  (if n_fuzz afl slot <? 0xFFFFFFFF then
     update (set_n_fuzz (fun i => if i =? slot then n_fuzz afl slot + 1 else n_fuzz afl i))
   else mret tt);;
  mret cksum
else mret 0.

Definition save_if_interesting (fuel : nat) (mem : list byte) (len : Z)
  (fault : fsrv_run_result) (inc : Z) : M Z :=
if len =? 0 then
  update (aflrun_recover_virgin E);;
  mret 0
else
  cksum ← update_path_frequency;
  let ok_or_crash :=
    bool_decide (fault = FSRV_RUN_CRASH) || bool_decide (fault = FSRV_RUN_OK) in
  is_unique ←
    (if ok_or_crash then
       let is_crash := b2u8 (bool_decide (fault = FSRV_RUN_CRASH)) in
       afl ← get_afl;
       is_unique ← get_valuation (argv (settings afl)) mem len is_crash;
       (if truthy is_unique then
          dop ← describe 0 0 (NAME_MAX E - strlen "neg_000000_");
          afl ← get_afl;
          let fn :=
            snprintf_path
              (out_dir (settings afl) ++ "/memory/input/"
                 ++ (if truthy is_crash then "neg" else "pos") ++ "_"
                 ++ fmt_06u (if truthy is_crash
                             then total_saved_crashes (counters afl)
                             else total_saved_positives (counters afl))
                 ++ "_" ++ dop) in
          update (emit (EvLog "[valuation] [uniq]"));;
          create_file fn mem len
        else mret tt);;
       mret is_unique
     else mret 0);
  r ←
    (if ok_or_crash then
       found ← novelty_protocol inc;
       match found with
       | None => mret None
       | Some (new_bits, new_paths) =>
           save_to_queue mem len new_bits new_paths 0 cksum;;
           mret (Some (new_bits, new_paths, 1, true))
       end
     else
       update (aflrun_recover_virgin E);;
       mret (Some (0, 0, 0, false)));
  match r with
  | None => mret 0
  | Some (new_bits, new_paths, keeping, classified) =>
      next ←
        match fault with
        | FSRV_RUN_TMOUT =>
            tmout_case fuel mem len new_bits new_paths keeping classified cksum
        | FSRV_RUN_CRASH => keep_as_crash mem len keeping classified
        | FSRV_RUN_ERROR => fatal "Unable to execute target application"
        | _ => mret (Return keeping)
        end;
      match next with
      | Return keeping => mret keeping
      | Break fn mem len keeping =>
          if truthy is_unique then mret keeping
          else
            create_file fn mem len;;
            afl ← get_afl;
            (if nyx_mode (fsrv afl) && bool_decide (fault = FSRV_RUN_CRASH) then
               create_file (snprintf_path (fn ++ ".log"))
                 (nyx_aux_string (fsrv afl))
                 (Z.of_nat (length (nyx_aux_string (fsrv afl))))
             else mret tt);;
            mret keeping
      end
  end.
End Pipeline.

(* ================================================================== *)
(** * Reference notions for the hash map *)

(** A pair is stored in some chain of the table. *)
Definition stored (t : list (list key_value_pair)) (kv : key_value_pair) : Prop :=
  exists i chain, t !! i = Some chain /\ In kv chain.

(** The table has [ts] buckets and every pair sits in the bucket of its
    key. *)
Definition buckets_ok (ts : Z) (t : list (list key_value_pair)) : Prop :=
  length t = Z.to_nat ts /\
  forall i chain kv, t !! i = Some chain -> In kv chain -> Z.to_nat (fst kv mod ts) = i.

Definition hashmap_wf (map : hashmap) : Prop :=
  0 < table_size map /\ buckets_ok (table_size map) (table map).

(** Reference notions: all the pairs of a table, bucket after bucket, and
    the property that no key is stored twice. *)
Definition contents (m : hashmap) : list key_value_pair := concat (table m).

Definition keys_nodup (m : hashmap) : Prop := NoDup (contents m).*1.


(** A succession of [run_valuation] calls: each starts in a state whose
    valuation map is the one the previous call left; the list collects
    the hashes returned with success. *)
Inductive valuation_runs (E : environment) : hashmap -> list Z -> hashmap -> Prop :=
| valuation_runs_nil map :
    valuation_runs E map [] map
| valuation_runs_cons afl crashed argv mem len success val_hash valuation_file afl'
    hashes map' :
    run_valuation E crashed argv mem len afl
      = Done (success, val_hash, valuation_file) afl' ->
    valuation_runs E (value_map afl') hashes map' ->
    valuation_runs E (value_map afl)
      (if truthy success then val_hash :: hashes else hashes) map'.

(* ================================================================== *)
(** * Sample states and environments *)

Definition sample_settings : afl_settings :=
  mk_settings "out" ["./target"%string] "./target" 0 true false false 1000 false
    false 0 None 0 0 0 None 0 7 (-1) None "havoc" (-1) 0 STAGE_VAL_NONE.

Definition sample_counters : afl_counters := mk_counters 0 0 0 0 0 0 0 0 0 0 0 0.

Definition sample_queue_entry : queue_entry := mk_queue_entry "" 0 0 0 0 0 0 0.

Definition sample_statics : valuation_statics := mk_statics false 0 (-1) (-1) (-1).

Definition sample_fsrv (trace : list byte) (msize : Z) : afl_forkserver_t :=
  mk_fsrv trace msize msize 0 0 100 0 false false false [].

(** A state with the given trace of [msize] bytes and the given heap; the
    primary, timeout and crash maps are the buffers 0, 1 and 2. *)
Definition sample_afl (trace : list byte) (msize : Z) (h : heap) : afl_state_t :=
  mk_afl (sample_fsrv trace msize) sample_settings sample_counters h
    0%nat 1%nat 2%nat false [] [] [] (fun _ => 0) 0 sample_queue_entry
    (hashmap_create 4) sample_statics [].

(** An environment in which the valuation binary always leaves a side
    file with the same content, and the collaborators leave the state
    alone. *)
Definition sample_env : environment :=
  mk_environment 3 7 2097152 500 10000 255 4096 35 0xa5b35705 86 9
    (fun _ => Some "/cov"%string)
    (fun _ => 5000)
    (fun _ _ => false)
    (fun _ _ => true)
    (fun _ _ => Some [Byte.x2a])
    (fun _ => mk_child_report false false None 0 false false)
    (fun data seed => 7)
    (fun data seed => 11)
    (fun _ _ => 0)
    (fun _ => [])
    (fun _ mem len _ => (mem, len))
    (fun afl _ => (FSRV_RUN_TMOUT, afl))
    (fun afl _ _ _ => afl)
    (fun afl _ _ _ => (FSRV_RUN_OK, afl))
    (fun afl _ => afl)
    (fun afl => afl)
    (fun _ => [])
    (fun afl _ _ _ => (0, afl))
    (fun _ => 1)
    (fun _ => [])
    (fun _ => 0).

(** Buffers of eight bytes, one 64-bit word. *)
Definition word_of (b : byte) : list byte := b :: replicate 7 Byte.x00.
Definition virgin_of (b : byte) : list byte := b :: replicate 7 Byte.xff.
Definition untouched : list byte := replicate 8 Byte.xff.

(** One never-seen edge hit once, against untouched maps. *)
Definition fresh_edge_afl : afl_state_t :=
  sample_afl (word_of Byte.x01) 8 [untouched; untouched; untouched].

(** A raw count of 3 on an edge whose buckets 1 and 2 were seen. *)
Definition raw3_afl : afl_state_t :=
  sample_afl (word_of Byte.x03) 8 [virgin_of Byte.xfc; untouched; untouched].

(** A classified count (bucket 4) that the primary map has seen. *)
Definition seen4_afl : afl_state_t :=
  sample_afl (word_of Byte.x04) 8 [virgin_of Byte.xfb; untouched; untouched].

(** A raw count of 3, whose class is bucket 4, on an edge of which the
    primary map has seen bucket 4 already; and the same trace against
    untouched maps. *)
Definition known3_afl : afl_state_t :=
  sample_afl (word_of Byte.x03) 8 [virgin_of Byte.xfb; untouched; untouched].

(** A new edge for the primary map, a new bucket for a second map. *)
Definition two_map_afl : afl_state_t :=
  sample_afl (word_of Byte.x01) 8 [untouched; virgin_of Byte.xfd; untouched].

(** A map of [2^29] bytes, all bits set, and a state of that map size. *)
Definition full_map : list byte := replicate (Z.to_nat 536870912) Byte.xff.
Definition full_map_afl : afl_state_t := sample_afl [] 536870912 [].

(** Traces for classification: raw counts, and counts that are their own
    class or at least 32. *)
Definition raw3_fsrv : afl_forkserver_t := sample_fsrv (word_of Byte.x03) 8.
Definition settled_fsrv : afl_forkserver_t :=
  sample_fsrv [Byte.x00; Byte.x01; Byte.x02; Byte.x20; Byte.x40; Byte.x7f;
               Byte.x80; Byte.xff] 8.

(** A table of eight buckets after the inserts of (3, 30), (19, 190) and
    (3, 31), which all fall into bucket 3. *)
Definition three_pair_map : hashmap :=
  mk_hashmap 3 8 ([] :: [] :: [] :: [(3, 31); (19, 190); (3, 30)] :: replicate 4 []).

(** A state whose valuation map already holds the hash 7. *)
Definition known_hash_afl : afl_state_t :=
  set_value_map (mk_hashmap 1 4 [[]; []; []; [(7, 0)]]) fresh_edge_afl.

(** A map of eight bytes with two bytes set and one byte cleared, and a
    state whose maps have that size. *)
Definition sparse_map : list byte :=
  [Byte.x00; Byte.x01; Byte.x00; Byte.xff; Byte.x00; Byte.x00; Byte.x00; Byte.x00].
Definition eight_byte_afl : afl_state_t := sample_afl sparse_map 8 [untouched; untouched; untouched].

(** A table of four buckets holding the keys 3 and 7 in one bucket. *)
Definition two_key_map : hashmap :=
  mk_hashmap 2 4 [[]; []; []; [(7, 0); (3, 30)]].

(** A state whose custom mutator describes itself at length. *)
Definition custom_settings : afl_settings :=
  mk_settings "out" ["./target"%string] "./target" 0 true false false 1000 false
    false 0 None 0 0 0 None 0 7 (-1)
    (Some (mk_custom_mutator
             (Some (fun _ => Some "flip_every_other_byte_then_splice_the_tail"%string))))
    "havoc" (-1) 0 STAGE_VAL_NONE.

Definition custom_afl : afl_state_t :=
  mk_afl (sample_fsrv (word_of Byte.x01) 8) custom_settings sample_counters
    [untouched; untouched; untouched]
    0%nat 1%nat 2%nat false [] [] [] (fun _ => 0) 0 sample_queue_entry
    (hashmap_create 4) sample_statics [].

(** A state that has kept its share of hangs. *)
Definition hangs_full_afl : afl_state_t :=
  set_counters (mk_counters 0 0 0 500 0 0 0 0 0 0 0 0) fresh_edge_afl.



(* ================================================================== *)
(** * Auxiliary notions of the proofs *)

(** The first two stages of the parallel count, on one byte. *)
Definition pair_sum (b : Z) : Z := b - Z.land (Z.shiftr b 1) 0x55.
Definition quad_sum (c : Z) : Z := Z.land c 0x33 + Z.land (Z.shiftr c 2) 0x33.

(** The entry [init_count_class16] stores at index [j]. *)
Definition entry16 (j : nat) : Z :=
  let w := Z.of_nat j in
  u16 (Z.lor (Z.shiftl (tbl_get count_class_lookup8 (Z.shiftr w 8)) 8)
             (tbl_get count_class_lookup8 (Z.land w 255))).

(** The novelty level gathered over the words [a .. a + n) from level [r]. *)
Definition level_from (trace : list byte) (a n : nat) (vm : list byte) (r : Z) : Z :=
  fold_left (fun acc i => Z.max acc (word_level (chunk64 trace i) (chunk64 vm i)))
    (seq a n) r.

(** Unfolding of the monadic combinators. *)
Ltac munfold :=
  cbv [mbind M_bind mret M_ret update get_afl fatal out_of_fuel call] in *.

(** Reference notion: the number of bytes of a buffer that satisfy a
    test. *)
Definition count_where (P : byte -> bool) (mem : list byte) : Z :=
  Z.of_nat (length (List.filter P mem)).

Definition is_set (b : byte) : bool := negb (byte.unsigned b =? 0).
Definition is_touched (b : byte) : bool := negb (byte.unsigned b =? 255).

(** Reference notion: bit [i] of a buffer read as a bit string, least
    significant bit of each byte first. *)
Definition bit_of (mem : list byte) (i : nat) : bool :=
  Z.testbit (byte.unsigned (default Byte.x00 (mem !! (i / 8)%nat))) (Z.of_nat (i mod 8)).

(** Reference notion: byte [i] of a trace is non-zero. *)
Definition hit (src : list byte) (i : nat) : bool :=
  negb (byte.unsigned (default Byte.x00 (src !! i)) =? 0).

(** Reference notion: the virgin word left after the bits of a trace word
    were seen. *)
Definition clear_seen (virgin current : Z) : Z := Z.land virgin (Z.lnot current).

(** The single-map pass of [has_new_bits] over the words [a .. a + n). *)
Definition single_pass (trace : list byte) (a n : nat) (s : Z * list byte)
    : Z * list byte :=
  fold_left (has_new_bits_body trace) (seq a n) s.

(** The checks behind the facts on [count_class_lookup8], as computations
    over the 256 indices. *)
Definition byte_values : list Z := List.map Z.of_nat (seq 0 256).

Definition is_class_bit (c : Z) : bool :=
  existsb (fun k => c =? 2 ^ k) [0; 1; 2; 3; 4; 5; 6; 7].

Definition lookup8_classes_ok : bool :=
  forallb (fun b =>
      let c := tbl_get count_class_lookup8 b in
      if b =? 0 then c =? 0 else is_class_bit c)
    byte_values.

Definition lookup8_monotone_ok : bool :=
  forallb (fun b =>
      tbl_get count_class_lookup8 b <=? tbl_get count_class_lookup8 (b + 1))
    (List.map Z.of_nat (seq 0 255)).


(* ================================================================== *)
(** * Bit-level facts *)

Lemma add_shift_lor k x y : 0 <= k -> 0 <= x < 2 ^ k -> x + 2 ^ k * y = Z.lor x (Z.shiftl y k).
Proof.
  intros Hk Hx. rewrite <- Z.add_nocarry_lor.
  - rewrite Z.shiftl_mul_pow2 by lia. lia.
  - apply Z.bits_inj'. intros i Hi. rewrite Z.land_spec, Z.bits_0.
    destruct (Z.ltb_spec i k).
    + rewrite Z.shiftl_spec_low by lia. apply andb_false_r.
    + rewrite (testbit_above (p:=k) (n:=x)) by lia. reflexivity.
Qed.

Lemma le_combine_cons b t :
  le_combine (b :: t) = byte.unsigned b + 256 * le_combine t.
Proof.
  change (le_combine (b :: t)) with (Z.lor (byte.unsigned b) (Z.shiftl (le_combine t) 8)).
  pose proof (byte.unsigned_range b).
  change 256 with (2 ^ 8). rewrite add_shift_lor by lia. reflexivity.
Qed.

Lemma le_combine_nil' : le_combine [] = 0.
Proof. reflexivity. Qed.

Lemma land_bound k a m : 0 <= k -> 0 <= a < 2 ^ k -> 0 <= Z.land a m < 2 ^ k.
Proof.
  intros Hk Ha.
  assert (E : Z.land a m = Z.land a m mod 2 ^ k).
  { rewrite <- Z.land_ones by lia. apply Z.bits_inj'. intros i Hi.
    rewrite !Z.land_spec. destruct (Z.ltb_spec i k).
    - rewrite Z.ones_spec_low by lia. now rewrite andb_true_r.
    - rewrite (testbit_above (p:=k) (n:=a)) by lia. reflexivity. }
  rewrite E. apply Z.mod_pos_bound. apply Z.pow_pos_nonneg; lia.
Qed.

Lemma land_peel k a r m n :
  0 <= k -> 0 <= a < 2 ^ k -> 0 <= m < 2 ^ k ->
  Z.land (a + 2 ^ k * r) (m + 2 ^ k * n) = Z.land a m + 2 ^ k * Z.land r n.
Proof.
  intros Hk Ha Hm.
  pose proof (land_bound k a m Hk Ha) as Hl.
  rewrite !add_shift_lor by lia.
  apply Z.bits_inj'. intros i Hi.
  rewrite ?Z.land_spec, ?Z.lor_spec, ?Z.land_spec.
  destruct (Z.ltb_spec i k).
  - rewrite !Z.shiftl_spec_low by lia. rewrite !orb_false_r. reflexivity.
  - rewrite !Z.shiftl_spec_high by lia.
    rewrite (testbit_above (p:=k) (n:=a)), (testbit_above (p:=k) (n:=m)) by lia.
    rewrite Z.land_spec. reflexivity.
Qed.

Lemma shiftr_land_peel s a r m n :
  0 <= s <= 8 -> 0 <= a < 256 -> 0 <= r -> 0 <= m < 2 ^ (8 - s) ->
  Z.land (Z.shiftr (a + 256 * r) s) (m + 256 * n) =
  Z.land (Z.shiftr a s) m + 256 * Z.land (Z.shiftr r s) n.
Proof.
  intros Hs Ha Hr Hm.
  assert (E: Z.shiftr (a + 256 * r) s = (Z.shiftr a s + 2 ^ (8 - s) * (r mod 2 ^ s)) + 2 ^ 8 * (Z.shiftr r s)).
  { rewrite !Z.shiftr_div_pow2 by lia.
    assert (P: 256 = 2 ^ s * 2 ^ (8 - s)). { rewrite <- Z.pow_add_r by lia. replace (s + (8 - s)) with 8 by lia. reflexivity. }
    assert (0 < 2 ^ s) by (apply Z.pow_pos_nonneg; lia).
    assert (0 < 2 ^ (8 - s)) by (apply Z.pow_pos_nonneg; lia).
    change (2 ^ 8) with 256.
    rewrite P.
    pose proof (Z.div_mod r (2 ^ s) ltac:(lia)).
    pose proof (Z.div_mod a (2 ^ s) ltac:(lia)).
    pose proof (Z.mod_pos_bound a (2 ^ s) ltac:(lia)).
    symmetry. apply Z.div_unique with (r := a mod 2 ^ s); [lia|]. nia. }
  rewrite E.
  assert (0 < 2 ^ s) by (apply Z.pow_pos_nonneg; lia).
  assert (0 < 2 ^ (8 - s)) by (apply Z.pow_pos_nonneg; lia).
  assert (P: 256 = 2 ^ s * 2 ^ (8 - s)). { rewrite <- Z.pow_add_r by lia. replace (s + (8 - s)) with 8 by lia. reflexivity. }
  assert (Ba : 0 <= Z.shiftr a s < 2 ^ (8 - s)).
  { rewrite Z.shiftr_div_pow2 by lia. split; [apply Z.div_pos; lia | apply Z.div_lt_upper_bound; lia]. }
  pose proof (Z.mod_pos_bound r (2 ^ s) ltac:(lia)).
  change 256 with (2 ^ 8).
  rewrite land_peel; [| lia | change (2^8) with 256; nia | change (2^8) with 256; nia ].
  f_equal.
  replace m with (m + 2 ^ (8 - s) * 0) at 1 by lia.
  rewrite land_peel by lia. rewrite Z.land_0_r. lia.
Qed.

(* ================================================================== *)
(** * Counting bits *)

Lemma byte_stages (b : byte) :
  let x := byte.unsigned b in
  let c := pair_sum x in
  let d := quad_sum c in
  0 <= Z.land (Z.shiftr x 1) 0x55 <= x /\ 0 <= c < 256 /\
  0 <= d mod 16 <= 4 /\ 0 <= d / 16 <= 4 /\ d mod 16 + d / 16 = Z_popcount x.
Proof. destruct b; vm_compute; repeat split; congruence. Qed.

Lemma popcount_word_bytes (b0 b1 b2 b3 : byte) :
  popcount_word (le_combine [b0; b1; b2; b3]) =
  Z_popcount (byte.unsigned b0) + Z_popcount (byte.unsigned b1) +
  Z_popcount (byte.unsigned b2) + Z_popcount (byte.unsigned b3).
Proof.
  rewrite !le_combine_cons. change (le_combine []) with 0.
  pose proof (byte_stages b0) as S0. pose proof (byte_stages b1) as S1.
  pose proof (byte_stages b2) as S2. pose proof (byte_stages b3) as S3.
  pose proof (byte.unsigned_range b0) as R0. pose proof (byte.unsigned_range b1) as R1.
  pose proof (byte.unsigned_range b2) as R2. pose proof (byte.unsigned_range b3) as R3.
  change (2 ^ 8) with 256 in *.
  cbv zeta in *.
  set (x0 := byte.unsigned b0) in *. set (x1 := byte.unsigned b1) in *.
  set (x2 := byte.unsigned b2) in *. set (x3 := byte.unsigned b3) in *.
  destruct S0 as (G0 & C0 & L0 & H0 & P0). destruct S1 as (G1 & C1 & L1 & H1 & P1).
  destruct S2 as (G2 & C2 & L2 & H2 & P2). destruct S3 as (G3 & C3 & L3 & H3 & P3).
  unfold popcount_word.
  (* stage 1 *)
  assert (E1 : Z.land (Z.shiftr (x0 + 256 * (x1 + 256 * (x2 + 256 * (x3 + 256 * 0)))) 1) 0x55555555
             = Z.land (Z.shiftr x0 1) 0x55 + 256 * (Z.land (Z.shiftr x1 1) 0x55 + 256 *
               (Z.land (Z.shiftr x2 1) 0x55 + 256 * Z.land (Z.shiftr x3 1) 0x55))).
  { change 0x55555555 with (0x55 + 256 * (0x55 + 256 * (0x55 + 256 * (0x55 + 256 * 0)))).
    rewrite !shiftr_land_peel by (cbn; lia). rewrite Z.land_0_r. lia. }
  rewrite E1. clear E1.
  set (v1 := u32 (_ - _)).
  assert (V1 : v1 = pair_sum x0 + 256 * (pair_sum x1 + 256 * (pair_sum x2 + 256 * (pair_sum x3 + 256 * 0)))).
  { subst v1. unfold u32, pair_sum in *. change (2 ^ 32) with 4294967296. rewrite Z.mod_small; lia. }
  clearbody v1. subst v1.
  set (c0 := pair_sum x0) in *. set (c1 := pair_sum x1) in *.
  set (c2 := pair_sum x2) in *. set (c3 := pair_sum x3) in *.
  (* stage 2 *)
  assert (E2 : Z.land (c0 + 256 * (c1 + 256 * (c2 + 256 * (c3 + 256 * 0)))) 0x33333333
             = Z.land c0 0x33 + 256 * (Z.land c1 0x33 + 256 * (Z.land c2 0x33 + 256 * Z.land c3 0x33))).
  { change 0x33333333 with (0x33 + 2 ^ 8 * (0x33 + 2 ^ 8 * (0x33 + 2 ^ 8 * (0x33 + 2 ^ 8 * 0)))).
    change 256 with (2 ^ 8).
    rewrite !land_peel by (change (2 ^ 8) with 256; lia). rewrite Z.land_0_r. lia. }
  assert (E3 : Z.land (Z.shiftr (c0 + 256 * (c1 + 256 * (c2 + 256 * (c3 + 256 * 0)))) 2) 0x33333333
             = Z.land (Z.shiftr c0 2) 0x33 + 256 * (Z.land (Z.shiftr c1 2) 0x33 + 256 *
               (Z.land (Z.shiftr c2 2) 0x33 + 256 * Z.land (Z.shiftr c3 2) 0x33))).
  { change 0x33333333 with (0x33 + 256 * (0x33 + 256 * (0x33 + 256 * (0x33 + 256 * 0)))).
    rewrite !shiftr_land_peel by (cbn; lia). rewrite Z.land_0_r. lia. }
  rewrite E2, E3. clear E2 E3.
  set (v2 := u32 (Z.land c0 51 + _ + _)).
  assert (Q : forall c, 0 <= c < 256 -> 0 <= quad_sum c < 256).
  { intros c Hc. unfold quad_sum.
    pose proof (land_bound 6 0x33 c ltac:(lia) ltac:(cbn; lia)).
    pose proof (land_bound 6 0x33 (Z.shiftr c 2) ltac:(lia) ltac:(cbn; lia)).
    rewrite (Z.land_comm c), (Z.land_comm (Z.shiftr c 2)). change (2 ^ 6) with 64 in *. lia. }
  pose proof (Q c0 C0). pose proof (Q c1 C1). pose proof (Q c2 C2). pose proof (Q c3 C3).
  assert (V2 : v2 = quad_sum c0 + 256 * (quad_sum c1 + 256 * (quad_sum c2 + 256 * quad_sum c3))).
  { subst v2. unfold u32. unfold quad_sum in *. change (2 ^ 32) with 4294967296. rewrite Z.mod_small; lia. }
  clearbody v2. subst v2.
  set (d0 := quad_sum c0) in *. set (d1 := quad_sum c1) in *.
  set (d2 := quad_sum c2) in *. set (d3 := quad_sum c3) in *.
  clearbody d0 d1 d2 d3. clear Q.
  (* stage 3: nibbles of each byte *)
  assert (N : forall d, exists l h, d = l + 16 * h /\ l = d mod 16 /\ h = d / 16).
  { intros d. exists (d mod 16), (d / 16). pose proof (Z.div_mod d 16). lia. }
  destruct (N d0) as (l0 & h0 & D0 & El0 & Eh0). destruct (N d1) as (l1 & h1 & D1 & El1 & Eh1).
  destruct (N d2) as (l2 & h2 & D2 & El2 & Eh2). destruct (N d3) as (l3 & h3 & D3 & El3 & Eh3).
  rewrite <- El0, <- Eh0 in *. rewrite <- El1, <- Eh1 in *.
  rewrite <- El2, <- Eh2 in *. rewrite <- El3, <- Eh3 in *.
  clear N El0 Eh0 El1 Eh1 El2 Eh2 El3 Eh3. subst d0 d1 d2 d3.
  rewrite <- P0, <- P1, <- P2, <- P3.
  clear - L0 H0 L1 H1 L2 H2 L3 H3.
  set (V := l0 + 16 * h0 + 256 * (l1 + 16 * h1 + 256 * (l2 + 16 * h2 + 256 * (l3 + 16 * h3)))).
  assert (E4 : u32 (V + Z.shiftr V 4) =
    ((l0 + h0) + 2 ^ 4 * (h0 + l1)) + 2 ^ 8 * (
    ((l1 + h1) + 2 ^ 4 * (h1 + l2)) + 2 ^ 8 * (
    ((l2 + h2) + 2 ^ 4 * (h2 + l3)) + 2 ^ 8 * (
    ((l3 + h3) + 2 ^ 4 * (h3 + 0)) + 2 ^ 8 * 0)))).
  { unfold u32. rewrite Z.shiftr_div_pow2 by lia.
    change (2 ^ 4) with 16. change (2 ^ 8) with 256. change (2 ^ 32) with 4294967296.
    assert (EV : V / 16 = h0 + 16 * (l1 + 16 * h1 + 256 * (l2 + 16 * h2 + 256 * (l3 + 16 * h3)))).
    { symmetry. apply Z.div_unique with (r := l0); [lia | subst V; lia]. }
    rewrite EV. subst V. rewrite Z.mod_small; lia. }
  rewrite E4. clear E4 V.
  change 0xF0F0F0F with ((15 + 2 ^ 4 * 0) + 2 ^ 8 * ((15 + 2 ^ 4 * 0) + 2 ^ 8 * ((15 + 2 ^ 4 * 0) + 2 ^ 8 * ((15 + 2 ^ 4 * 0) + 2 ^ 8 * 0)))).
  rewrite !(land_peel 8) by (change (2 ^ 8) with 256; change (2 ^ 4) with 16; lia).
  rewrite !(land_peel 4) by (change (2 ^ 4) with 16; lia).
  rewrite !Z.land_0_r.
  assert (F : forall e, 0 <= e < 16 -> Z.land e 15 = e).
  { intros e He. change 15 with (Z.ones 4). rewrite Z.land_ones by lia. apply Z.mod_small. cbn; lia. }
  rewrite !F by lia. clear F.
  unfold u32. rewrite Z.shiftr_div_pow2 by lia.
  change (2 ^ 4) with 16. change (2 ^ 8) with 256. change (2 ^ 32) with 4294967296. change (2 ^ 24) with 16777216.
  set (e0 := l0 + h0). set (e1 := l1 + h1). set (e2 := l2 + h2). set (e3 := l3 + h3).
  assert (0 <= e0 <= 8 /\ 0 <= e1 <= 8 /\ 0 <= e2 <= 8 /\ 0 <= e3 <= 8) as (B0 & B1 & B2 & B3) by (unfold e0, e1, e2, e3; lia).
  clearbody e0 e1 e2 e3.
  rewrite !Z.mul_0_r, !Z.add_0_r.
  set (Y := (e0 + 256 * (e1 + 256 * (e2 + 256 * e3))) * 16843009).
  assert (EY : Y mod 4294967296 = e0 + 256 * (e0 + e1) + 65536 * (e0 + e1 + e2) + 16777216 * (e0 + e1 + e2 + e3)).
  { symmetry. apply Z.mod_unique with (q := e1 + e2 + e3 + 256 * (e2 + e3) + 65536 * e3); [lia | subst Y; lia]. }
  rewrite EY. symmetry.
  apply Z.div_unique with (r := e0 + 256 * (e0 + e1) + 65536 * (e0 + e1 + e2)); lia.
Qed.

Lemma hamming_weight_app l1 l2 :
  hamming_weight (l1 ++ l2) = hamming_weight l1 + hamming_weight l2.
Proof. induction l1 as [|b l1 IH]; cbn [hamming_weight fold_right app]; [reflexivity|].
  fold (hamming_weight (l1 ++ l2)). fold (hamming_weight l1). lia. Qed.

Lemma byte_popcount_bound (b : byte) : 0 <= Z_popcount (byte.unsigned b) <= 8.
Proof. destruct b; vm_compute; split; congruence. Qed.

Lemma hamming_weight_bound l : 0 <= hamming_weight l <= 8 * Z.of_nat (length l).
Proof.
  induction l as [|b l IH]; cbn [hamming_weight fold_right length]; [lia|].
  fold (hamming_weight l). pose proof (byte_popcount_bound b). lia.
Qed.

Lemma hamming_weight_word b0 b1 b2 b3 :
  hamming_weight [b0; b1; b2; b3] = popcount_word (le_combine [b0; b1; b2; b3]).
Proof. rewrite popcount_word_bytes. cbn [hamming_weight fold_right]. lia. Qed.

Lemma u32_add_l a b : u32 (u32 a + b) = u32 (a + b).
Proof. unfold u32. apply Zplus_mod_idemp_l. Qed.

Lemma count_bits_loop_weight i : forall k mem ret,
  (4 * (k + i) <= length mem)%nat ->
  count_bits_loop i k mem (u32 ret) =
  u32 (ret + hamming_weight (take (4 * i) (drop (4 * k) mem))).
Proof.
  induction i as [|i IH]; intros k mem ret Hlen.
  - cbn [count_bits_loop]. rewrite Nat.mul_0_r, take_0. cbn. f_equal. lia.
  - cbn [count_bits_loop].
    assert (Hc : exists b0 b1 b2 b3, chunk32 mem k = [b0; b1; b2; b3]).
    { assert (L : length (chunk32 mem k) = 4%nat).
      { unfold chunk32. rewrite length_take, length_drop. lia. }
      destruct (chunk32 mem k) as [|b0 [|b1 [|b2 [|b3 [|]]]]]; cbn in L; try lia.
      eauto. }
    destruct Hc as (b0 & b1 & b2 & b3 & Hc).
    assert (Hs : take (4 * S i) (drop (4 * k) mem) =
                 [b0; b1; b2; b3] ++ take (4 * i) (drop (4 * S k) mem)).
    { rewrite <- Hc. unfold chunk32.
      replace (4 * S i)%nat with (4 + 4 * i)%nat by lia.
      replace (4 * S k)%nat with (4 * k + 4)%nat by lia.
      rewrite <- drop_drop. rewrite <- take_take_drop. reflexivity. }
    rewrite Hs, hamming_weight_app, hamming_weight_word.
    unfold load32. rewrite Hc.
    assert (E : forall x, u32 (u32 ret + x) = u32 (ret + x)) by (intros; apply u32_add_l).
    destruct (Z.eqb_spec (le_combine [b0; b1; b2; b3]) 0xffffffff) as [Hv|Hv].
    + rewrite E, IH by lia. rewrite Hv.
      change (popcount_word 4294967295) with 32. f_equal. lia.
    + rewrite E, IH by lia. f_equal. lia.
Qed.

Lemma count_bits_mod afl mem :
  (4 * count_bits_words afl <= length mem)%nat ->
  count_bits afl mem = hamming_weight (take (4 * count_bits_words afl) mem) mod 2 ^ 32.
Proof.
  intros H. unfold count_bits. fold (count_bits_words afl).
  change 0 with (u32 0) at 1. rewrite count_bits_loop_weight by (cbn; lia).
  rewrite drop_0. reflexivity.
Qed.

(* ================================================================== *)
(** * Classification *)

Lemma bucket_unsigned b : byte.unsigned (bucket b) = tbl_get count_class_lookup8 (byte.unsigned b).
Proof. destruct b; vm_compute; reflexivity. Qed.

Lemma bucket_fixed b :
  bucket (bucket b) = bucket b <-> byte.unsigned b <= 2 \/ 32 <= byte.unsigned b.
Proof.
  destruct b; vm_compute; split; intros H;
    solve [ reflexivity | left; discriminate | right; discriminate
          | discriminate H | destruct H as [H|H]; exfalso; apply H; reflexivity ].
Qed.

(* writes whose value is a function of the index *)
Lemma fold_insert_lookup {A} (idx : A -> nat) (val : A -> Z) (g : nat -> Z)
    (l : list A) (t : list Z) (j : nat) :
  (forall a, In a l -> val a = g (idx a)) ->
  (j < length t)%nat ->
  fold_left (fun t a => <[idx a := val a]> t) l t !! j =
  if existsb (fun a => Nat.eqb (idx a) j) l then Some (g j) else t !! j.
Proof.
  revert t. induction l as [|a l IH]; intros t Hv Hj; cbn [fold_left existsb].
  - reflexivity.
  - rewrite IH; [| intros; apply Hv; now right | rewrite length_insert; lia].
    destruct (existsb _ l); [destruct (idx a =? j)%nat; reflexivity|].
    destruct (Nat.eqb_spec (idx a) j) as [<-|Hne]; cbn.
    + rewrite Hv by now left. apply list_lookup_insert_eq. lia.
    + apply list_lookup_insert_ne. lia.
Qed.

Lemma fold_left_flat_map {A B C} (f : C -> B -> C) (h : A -> list B) (l : list A) (c : C) :
  fold_left f (flat_map h l) c = fold_left (fun c a => fold_left f (h a) c) l c.
Proof.
  revert c. induction l as [|a l IH]; intros c; cbn; [reflexivity|].
  rewrite fold_left_app. apply IH.
Qed.

Lemma split_index b1 b2 :
  0 <= b1 < 256 -> 0 <= b2 < 256 ->
  Z.shiftr (Z.shiftl b1 8 + b2) 8 = b1 /\ Z.land (Z.shiftl b1 8 + b2) 255 = b2.
Proof.
  intros H1 H2. rewrite Z.shiftl_mul_pow2, Z.shiftr_div_pow2 by lia.
  change 255 with (Z.ones 8). rewrite Z.land_ones by lia. change (2 ^ 8) with 256.
  split.
  - symmetry. apply Z.div_unique with (r := b2); lia.
  - symmetry. apply Z.mod_unique with (q := b1); lia.
Qed.

Lemma count_class_lookup16_spec b1 b2 :
  0 <= b1 < 256 -> 0 <= b2 < 256 ->
  tbl_get count_class_lookup16 (Z.shiftl b1 8 + b2) =
  Z.lor (Z.shiftl (tbl_get count_class_lookup8 b1) 8) (tbl_get count_class_lookup8 b2).
Proof.
  intros H1 H2.
  set (bs := map Z.of_nat (seq 0 256)).
  assert (Hin : forall b, In b bs <-> 0 <= b < 256).
  { intros b. unfold bs. rewrite in_map_iff. split.
    - intros (n & <- & Hn). apply in_seq in Hn. lia.
    - intros Hb. exists (Z.to_nat b). split; [lia|]. apply in_seq. lia. }
  unfold tbl_get, count_class_lookup16, init_count_class16. fold bs.
  rewrite <- (fold_left_flat_map
    (fun tbl (p : Z * Z) => init_count_class16_store (fst p) (snd p) tbl)
    (fun b1 => map (fun b2 => (b1, b2)) bs)).
  - unfold init_count_class16_store.
    rewrite (fold_insert_lookup (fun p : Z * Z => Z.to_nat (Z.shiftl (fst p) 8 + snd p)) _ entry16).
    + replace (existsb _ _) with true.
      * cbn [default]. unfold entry16. rewrite Z2Nat.id.
        -- destruct (split_index b1 b2 H1 H2) as [-> ->].
           unfold u16. apply Z.mod_small.
           assert (B : forall b, 0 <= b < 256 -> 0 <= tbl_get count_class_lookup8 b <= 128).
           { intros b Hb. replace b with (byte.unsigned (byte.of_Z b)).
             - destruct (byte.of_Z b); vm_compute; split; congruence.
             - rewrite byte.unsigned_of_Z. apply Z.mod_small. exact Hb. }
           pose proof (B b1 H1). pose proof (B b2 H2).
           rewrite <- Z.add_nocarry_lor.
           ++ rewrite Z.shiftl_mul_pow2 by lia. change (2 ^ 8) with 256. change (2 ^ 16) with 65536. unfold tbl_get in *. lia.
           ++ apply Z.bits_inj'. intros i Hi. rewrite Z.land_spec, Z.bits_0.
              destruct (Z.ltb_spec i 8).
              ** rewrite Z.shiftl_spec_low by lia. reflexivity.
              ** rewrite (testbit_above (p:=8) (n:=tbl_get count_class_lookup8 b2)) by (change (2^8) with 256; lia).
                 apply andb_false_r.
        -- rewrite Z.shiftl_mul_pow2 by lia. lia.
      * symmetry. apply existsb_exists. exists (b1, b2). split.
        -- apply in_flat_map. exists b1. split; [now apply Hin|]. apply in_map. now apply Hin.
        -- apply Nat.eqb_eq. reflexivity.
    + intros [c1 c2] Hp. apply in_flat_map in Hp. destruct Hp as (c & Hc & Hp).
      apply in_map_iff in Hp. destruct Hp as (d & [= <- <-] & Hd).
      apply Hin in Hc, Hd. cbn [fst snd]. unfold entry16.
      rewrite Z2Nat.id by (rewrite Z.shiftl_mul_pow2 by lia; lia).
      destruct (split_index c d Hc Hd) as [-> ->]. reflexivity.
    + rewrite length_replicate. rewrite Z.shiftl_mul_pow2 by lia. change (2 ^ 8) with 256. lia.
Qed.

Lemma classify_unit a b :
  le_split 2 (tbl_get count_class_lookup16 (le_combine [a; b])) = [bucket a; bucket b].
Proof.
  pose proof (byte.unsigned_range a) as Ha. pose proof (byte.unsigned_range b) as Hb.
  pose proof (byte.unsigned_range (bucket a)) as Ha'.
  change (2 ^ 8) with 256 in *.
  assert (E : le_combine [a; b] = Z.shiftl (byte.unsigned b) 8 + byte.unsigned a).
  { rewrite !le_combine_cons, le_combine_nil', Z.shiftl_mul_pow2 by lia. lia. }
  rewrite E, count_class_lookup16_spec by lia.
  rewrite <- !bucket_unsigned.
  replace (Z.lor _ _) with (le_combine [bucket a; bucket b]).
  - apply (split_le_combine [bucket a; bucket b]).
  - rewrite !le_combine_cons, le_combine_nil'. rewrite Z.lor_comm.
    change 256 with (2 ^ 8) at 1. rewrite add_shift_lor by (change (2 ^ 8) with 256; lia).
    f_equal. f_equal. lia.
Qed.

Lemma classify_word_map (w : list byte) :
  Nat.Even (length w) -> classify_word w = map bucket w.
Proof.
  intros [n Hn]. revert w Hn. induction n as [|n IH]; intros w Hn.
  - destruct w; [reflexivity | cbn in Hn; lia].
  - destruct w as [|a [|b w]]; cbn [length] in Hn; try lia.
    cbn [classify_word map]. rewrite classify_unit, IH by lia. reflexivity.
Qed.

(** A word-by-word rewriting of the first [n] words is a bytewise map. *)
Lemma fold_store_chunk64_map (g : byte -> byte) (f : list byte -> list byte) n mem :
  (forall w, length w = 8%nat -> f w = map g w) ->
  (8 * n <= length mem)%nat ->
  fold_left (fun mem i => store_chunk64 mem i (f (chunk64 mem i))) (seq 0 n) mem =
  map g (take (8 * n) mem) ++ drop (8 * n) mem.
Proof.
  intros Hf. induction n as [|n IH]; intros Hn.
  - cbn. reflexivity.
  - rewrite seq_S, fold_left_app. cbn [fold_left Nat.add]. rewrite IH by lia.
    set (done := map g (take (8 * n) mem)).
    assert (Hd : length done = (8 * n)%nat).
    { unfold done. rewrite length_map, length_take. lia. }
    assert (Hc : chunk64 (done ++ drop (8 * n) mem) n = take 8 (drop (8 * n) mem)).
    { unfold chunk64. rewrite drop_app_length' by (symmetry; exact Hd). reflexivity. }
    rewrite Hc. unfold store_chunk64.
    rewrite take_app_length' by (symmetry; exact Hd).
    rewrite Hf by (rewrite length_take, length_drop; lia).
    replace (8 * n + 8)%nat with (length done + 8)%nat by lia.
    rewrite drop_app_add', drop_drop by reflexivity.
    replace (8 * S n)%nat with (8 * n + 8)%nat by lia.
    rewrite app_assoc. f_equal.
    unfold done. rewrite <- map_app. f_equal.
    rewrite <- (take_drop (8 * n) (take (8 * n + 8) mem)).
    rewrite take_take, skipn_firstn_comm.
    rewrite Nat.min_l by lia.
    replace (8 * n + 8 - 8 * n)%nat with 8%nat by lia. reflexivity.
Qed.

(* ================================================================== *)
(** * Novelty detection over several maps *)

Lemma byte_novelty_range c v : 0 <= byte_novelty c v <= 2.
Proof. unfold byte_novelty. repeat destruct (_ && _); repeat destruct (negb _); lia. Qed.

#[local] Hint Resolve byte_novelty_range : core.

Lemma word_novelty_range c v : 0 <= word_novelty c v <= 2.
Proof.
  revert v. induction c as [|a c IH]; intros [|b v]; cbn [word_novelty]; try lia.
  pose proof (byte_novelty_range a b). pose proof (IH v). lia.
Qed.

Lemma word_level_range c v : 0 <= word_level c v <= 2.
Proof. unfold word_level. pose proof (word_novelty_range c v). destruct (_ =? _); lia. Qed.

(** One application of [discover_word]. *)
Lemma discover_word_fst ret cur vm idx modify :
  0 <= ret ->
  fst (discover_word ret cur vm idx modify) = Z.max ret (word_level cur (chunk64 vm idx)).
Proof.
  intros Hr. unfold discover_word, word_level.
  destruct (_ =? 0); cbn [fst]; lia.
Qed.

Lemma chunk64_store64_later vm i w j :
  (i < j)%nat -> chunk64 (store64 vm i w) j = chunk64 vm j.
Proof.
  intros Hij. unfold chunk64, store64. f_equal.
  destruct (Nat.le_gt_cases (8 * i) (length vm)) as [Hl|Hl].
  - rewrite app_assoc.
    replace (8 * j)%nat with ((8 * i + 8) + (8 * j - 8 * i - 8))%nat by lia.
    rewrite drop_app_add'.
    + rewrite drop_drop. reflexivity.
    + rewrite length_app, length_take, length_le_split. lia.
  - rewrite (take_ge vm) by lia. rewrite (drop_ge vm (8 * i + 8)) by lia.
    rewrite (drop_ge vm (8 * j)) by lia. rewrite app_nil_r.
    apply drop_ge. rewrite length_app, length_le_split. lia.
Qed.

Lemma discover_word_later ret cur vm idx modify j :
  (idx < j)%nat ->
  chunk64 (snd (discover_word ret cur vm idx modify)) j = chunk64 vm j.
Proof.
  intros H. unfold discover_word. destruct (_ =? 0); cbn [snd]; [reflexivity|].
  destruct modify; [apply chunk64_store64_later; exact H | reflexivity].
Qed.

Lemma deref_insert_ne (h : heap) p q vm : p <> q -> deref (<[p := vm]> h) q = deref h q.
Proof. intros H. unfold deref. rewrite list_lookup_insert_ne by exact H. reflexivity. Qed.

Lemma deref_insert_eq (h : heap) p vm :
  (p < length h)%nat -> deref (<[p := vm]> h) p = vm.
Proof. intros H. unfold deref. rewrite list_lookup_insert_eq by exact H. reflexivity. Qed.

Lemma zip_with_ext_in {A B C} (f g : A -> B -> C) (l : list A) (k : list B) :
  (forall x y, In y k -> f x y = g x y) -> zip_with f l k = zip_with g l k.
Proof.
  revert k. induction l as [|a l IH]; intros [|b k] H; cbn [zip_with]; try reflexivity.
  rewrite H by now left. f_equal. apply IH. intros x y Hy. apply H. now right.
Qed.

(** The inner loop over the maps, for maps that are pairwise distinct. *)
Lemma discover_word_mul_from_spec cur idx modify : forall vms pre nb h,
  (modify = true -> NoDup vms) ->
  length nb = length vms ->
  Forall (fun r => 0 <= r) nb ->
  let res := discover_word_mul_from (length pre) (pre ++ nb) cur vms idx modify h in
  fst res = pre ++ zip_with (fun r p => Z.max r (word_level cur (chunk64 (deref h p) idx))) nb vms
  /\ (forall q j, (idx < j)%nat -> chunk64 (deref (snd res) q) j = chunk64 (deref h q) j)
  /\ (modify = false -> snd res = h)
  /\ (forall q, ~ In q vms -> deref (snd res) q = deref h q).
Proof.
  induction vms as [|p vms IH]; intros pre nb h Hnd Hlen Hpos.
  - destruct nb; [|discriminate]. cbn. rewrite app_nil_r. auto.
  - destruct nb as [|r nb]; [discriminate|]. cbn [discover_word_mul_from].
    rewrite lookup_app_r, Nat.sub_diag by lia. cbn [lookup list_lookup default from_option id]. unfold id.
    destruct (discover_word r cur (deref h p) idx modify) as [r' vm'] eqn:Hd.
    assert (Hr' : r' = Z.max r (word_level cur (chunk64 (deref h p) idx))).
    { change r' with (fst (r', vm')). rewrite <- Hd. apply discover_word_fst.
      now inversion Hpos. }
    assert (Hvm' : forall j, (idx < j)%nat -> chunk64 vm' j = chunk64 (deref h p) j).
    { intros j Hj. change vm' with (snd (r', vm')). rewrite <- Hd.
      now apply discover_word_later. }
    cbv beta iota.
    assert (E : <[length pre := r']> (pre ++ r :: nb) = (pre ++ [r']) ++ nb).
    { rewrite insert_app_r_alt, Nat.sub_diag by lia. cbn. now rewrite <- app_assoc. }
    rewrite E. clear E.
    replace (S (length pre)) with (length (pre ++ [r'])) by (rewrite length_app; cbn; lia).
    set (h1 := if modify then <[p := vm']> h else h).
    assert (Hh1 : forall q, q <> p -> deref h1 q = deref h q).
    { intros q Hq. unfold h1. destruct modify; [|reflexivity].
      apply deref_insert_ne. congruence. }
    assert (Hh1' : forall q j, (idx < j)%nat -> chunk64 (deref h1 q) j = chunk64 (deref h q) j).
    { intros q j Hj. destruct (decide (q = p)) as [->|Hq]; [|now rewrite Hh1].
      unfold h1. destruct modify; [|reflexivity].
      destruct (Nat.lt_ge_cases p (length h)) as [Hp|Hp].
      - rewrite deref_insert_eq by exact Hp. now apply Hvm'.
      - rewrite list_insert_ge by exact Hp. reflexivity. }
    specialize (IH (pre ++ [r']) nb h1).
    destruct IH as (IH1 & IH2 & IH3 & IH4).
    { intros Hm. specialize (Hnd Hm). now inversion Hnd. }
    { cbn in Hlen. lia. }
    { now inversion Hpos. }
    split; [|split; [|split]].
    + rewrite IH1, <- app_assoc. cbn [app zip_with]. f_equal. f_equal; [exact Hr'|].
      apply zip_with_ext_in. intros x q Hq. f_equal. f_equal. f_equal.
      unfold h1. destruct modify eqn:Hm; [|reflexivity].
      apply deref_insert_ne. specialize (Hnd eq_refl). inversion Hnd as [|? ? Hni]; subst.
      intros ->. apply Hni. now apply list_elem_of_In.
    + intros q j Hj. rewrite IH2 by exact Hj. now apply Hh1'.
    + intros Hm. rewrite IH3 by exact Hm. unfold h1. now rewrite Hm.
    + intros q Hq. rewrite IH4 by (intros Hin; apply Hq; now right).
      apply Hh1. intros ->. apply Hq. now left.
Qed.

Lemma zip_with_zip_with_l {A B} (f g : A -> B -> A) (l : list A) (k : list B) :
  zip_with f (zip_with g l k) k = zip_with (fun r p => f (g r p) p) l k.
Proof.
  revert k. induction l as [|a l IH]; intros [|b k]; cbn [zip_with]; try reflexivity.
  now rewrite IH.
Qed.

Lemma zip_with_max_0 (l : list Z) {B} (k : list B) :
  length l = length k -> Forall (fun r => 0 <= r) l ->
  zip_with (fun r _ => Z.max r 0) l k = l.
Proof.
  revert k. induction l as [|a l IH]; intros [|b k] Hl Hp; cbn in *; try reflexivity; try lia.
  inversion Hp; subst. rewrite IH by (auto; lia). f_equal. lia.
Qed.

Lemma zip_with_Forall_nonneg {B} (f : Z -> B -> Z) (l : list Z) (k : list B) :
  (forall r p, 0 <= r -> 0 <= f r p) -> Forall (fun r => 0 <= r) l ->
  Forall (fun r => 0 <= r) (zip_with f l k).
Proof.
  intros Hf. revert k. induction l as [|a l IH]; intros [|b k] Hp; cbn; try constructor.
  - apply Hf. now inversion Hp.
  - apply IH. now inversion Hp.
Qed.

Section MulPass.
Variables (trace : list byte) (vms : list nat) (modify : bool).

Lemma level_from_ext a n vm vm' r :
  (forall j, (a <= j)%nat -> chunk64 vm' j = chunk64 vm j) ->
  level_from trace a n vm' r = level_from trace a n vm r.
Proof.
  unfold level_from. revert a r. induction n as [|n IH]; intros a r H; [reflexivity|].
  cbn [seq fold_left]. rewrite H by lia. apply IH.
  intros j Hj. apply H. lia.
Qed.

Lemma level_from_nonneg a n vm r : 0 <= r -> 0 <= level_from trace a n vm r.
Proof.
  unfold level_from. revert a r. induction n as [|n IH]; intros a r H; cbn [seq fold_left]; [exact H|].
  apply IH. lia.
Qed.

Lemma level_from_range a n vm r : 0 <= r <= 2 -> 0 <= level_from trace a n vm r <= 2.
Proof.
  unfold level_from. revert a r. induction n as [|n IH]; intros a r H; cbn [seq fold_left]; [exact H|].
  apply IH. pose proof (word_level_range (chunk64 trace a) (chunk64 vm a)). lia.
Qed.

Lemma mul_step_spec i nb h :
  (modify = true -> NoDup vms) ->
  length nb = length vms ->
  Forall (fun r => 0 <= r) nb ->
  let res := has_new_bits_mul_body trace vms modify (nb, h) i in
  fst res = zip_with (fun r p => Z.max r (word_level (chunk64 trace i) (chunk64 (deref h p) i))) nb vms
  /\ (forall q j, (i < j)%nat -> chunk64 (deref (snd res) q) j = chunk64 (deref h q) j)
  /\ (modify = false -> snd res = h)
  /\ (forall q, ~ In q vms -> deref (snd res) q = deref h q).
Proof.
  intros Hnd Hlen Hpos. unfold has_new_bits_mul_body.
  destruct (Z.eqb_spec (le_combine (chunk64 trace i)) 0) as [Hz|Hz].
  - cbn [fst snd]. split; [|auto].
    rewrite <- (zip_with_max_0 nb vms Hlen Hpos) at 1.
    apply zip_with_ext_in. intros r p _. unfold word_level.
    rewrite Hz, Z.land_0_l. reflexivity.
  - unfold discover_word_mul.
    apply (discover_word_mul_from_spec (chunk64 trace i) i modify vms [] nb h Hnd Hlen Hpos).
Qed.

Lemma mul_pass_spec n : forall a nb h,
  (modify = true -> NoDup vms) ->
  length nb = length vms ->
  Forall (fun r => 0 <= r) nb ->
  let res := fold_left (has_new_bits_mul_body trace vms modify) (seq a n) (nb, h) in
  fst res = zip_with (fun r p => level_from trace a n (deref h p) r) nb vms
  /\ (modify = false -> snd res = h)
  /\ (forall q, ~ In q vms -> deref (snd res) q = deref h q).
Proof.
  induction n as [|n IH]; intros a nb h Hnd Hlen Hpos.
  - cbn. split; [|auto]. clear Hpos Hnd. revert vms Hlen.
    induction nb as [|r nb IHn]; intros [|p k] Hl; cbn in *; try reflexivity; try lia.
    f_equal. apply IHn. lia.
  - cbn [seq fold_left].
    destruct (mul_step_spec a nb h Hnd Hlen Hpos) as (S1 & S2 & S3 & S4).
    destruct (has_new_bits_mul_body trace vms modify (nb, h) a) as [nb1 h1]. cbn [fst snd] in *.
    assert (Hlen1 : length nb1 = length vms).
    { rewrite S1, length_zip_with. lia. }
    assert (Hpos1 : Forall (fun r => 0 <= r) nb1).
    { rewrite S1. apply zip_with_Forall_nonneg; [|exact Hpos]. intros; lia. }
    destruct (IH (S a) nb1 h1 Hnd Hlen1 Hpos1) as (I1 & I2 & I3).
    split; [|split].
    + rewrite I1, S1, zip_with_zip_with_l. apply zip_with_ext_in. intros r p _.
      rewrite (level_from_ext (S a) n (deref h p) (deref h1 p)) by (intros; apply S2; lia).
      reflexivity.
    + intros Hm. rewrite I2, S3 by exact Hm. reflexivity.
    + intros q Hq. rewrite I3, S4 by exact Hq. reflexivity.
Qed.
End MulPass.

Lemma novelty_level trace len vm : novelty trace len vm = level_from trace 0 len vm 0.
Proof. reflexivity. Qed.

Lemma zip_with_replicate_map {B} (f : Z -> B -> Z) (k : list B) :
  zip_with f (replicate (length k) 0) k = map (f 0) k.
Proof. induction k as [|b k IH]; cbn; [reflexivity|]. now rewrite IH. Qed.

Lemma fold_max_range (l : list Z) r :
  0 <= r <= 2 -> Forall (fun x => 0 <= x <= 2) l -> 0 <= fold_left Z.max l r <= 2.
Proof.
  revert r. induction l as [|x l IH]; intros r Hr Hl; cbn; [exact Hr|].
  inversion Hl; subst. apply IH; [lia|assumption].
Qed.

Lemma has_new_bits_mul_levels afl vms modify :
  (modify = true -> NoDup vms) ->
  new_bits (snd (has_new_bits_mul afl vms modify)) =
  map (fun p => novelty (afl_trace afl) (mul_words afl) (deref (mem_heap afl) p)) vms.
Proof.
  intros Hnd. unfold has_new_bits_mul. cbv zeta. cbn [snd new_bits set_new_bits].
  fold (mul_words afl).
  destruct (mul_pass_spec (afl_trace afl) vms modify (mul_words afl) 0
              (replicate (length vms) 0) (mem_heap afl) Hnd) as (H1 & _).
  - apply length_replicate.
  - apply Forall_forall. intros x Hx. apply elem_of_replicate in Hx. lia.
  - rewrite H1. apply zip_with_replicate_map.
Qed.

(** ** Skim *)

Lemma skim_false h vms cur n :
  skim h vms cur n = false ->
  forall i p, (i < n)%nat -> In p vms ->
  Z.land (le_combine (classify_word (chunk64 cur i))) (load64 (deref h p) i) = 0.
Proof.
  unfold skim. intros H i p Hi Hp.
  destruct (Z.eqb_spec (Z.land (le_combine (classify_word (chunk64 cur i)))
                               (load64 (deref h p) i)) 0) as [E|E]; [exact E|].
  exfalso. rewrite <- not_true_iff_false in H. apply H.
  apply existsb_exists. exists i. split; [apply in_seq; lia|].
  apply existsb_exists. exists p. split; [exact Hp|].
  apply negb_true_iff. now apply Z.eqb_neq.
Qed.

Lemma discover_word_mul_from_noop cur idx modify : forall vms k nb h,
  (forall p, In p vms -> Z.land (le_combine cur) (load64 (deref h p) idx) = 0) ->
  (k + length vms <= length nb)%nat ->
  discover_word_mul_from k nb cur vms idx modify h = (nb, h).
Proof.
  induction vms as [|p vms IH]; intros k nb h Hz Hk; cbn [discover_word_mul_from]; [reflexivity|].
  unfold discover_word. fold (load64 (deref h p) idx).
  rewrite (Hz p) by now left. cbn [Z.eqb].
  cbn [length] in Hk.
  destruct (lookup_lt_is_Some_2 nb k ltac:(lia)) as [x Hx].
  rewrite Hx. cbn [default from_option]. unfold id.
  rewrite (list_insert_id nb k x Hx).
  assert (Hh : (if modify then <[p := deref h p]> h else h) = h).
  { destruct modify; [|reflexivity]. unfold deref.
    destruct (h !! p) as [v|] eqn:Hv.
    - now apply list_insert_id.
    - apply list_insert_ge. now apply lookup_ge_None. }
  rewrite Hh. apply IH; [|lia]. intros q Hq. apply Hz. now right.
Qed.

Lemma mul_pass_noop trace vms modify n h : forall a nb,
  (forall i p, (a <= i < a + n)%nat -> In p vms ->
     Z.land (load64 trace i) (load64 (deref h p) i) = 0) ->
  (length vms <= length nb)%nat ->
  fold_left (has_new_bits_mul_body trace vms modify) (seq a n) (nb, h) = (nb, h).
Proof.
  induction n as [|n IH]; intros a nb Hz Hl; cbn [seq fold_left]; [reflexivity|].
  assert (E : has_new_bits_mul_body trace vms modify (nb, h) a = (nb, h)).
  { unfold has_new_bits_mul_body. destruct (_ =? 0); [reflexivity|].
    apply discover_word_mul_from_noop; [|cbn; lia].
    intros p Hp. apply (Hz a p); [lia|exact Hp]. }
  rewrite E. apply IH; [|exact Hl]. intros i p Hi Hp. apply Hz; [lia|exact Hp].
Qed.

Lemma mul_words_le_skim afl :
  0 <= real_map_size (fsrv afl) <= map_size (fsrv afl) ->
  (mul_words afl <= Z.to_nat ((map_size (fsrv afl) + 7) / 8))%nat.
Proof.
  intros H. unfold mul_words, u32. rewrite Z.shiftr_div_pow2 by lia.
  change (2 ^ 3) with 8. apply Z2Nat.inj_le.
  - apply Z.div_pos; [|lia]. apply Z.mod_pos_bound. lia.
  - apply Z.div_pos; lia.
  - apply Z.div_le_mono; [lia|].
    pose proof (Z.mod_le (real_map_size (fsrv afl) + 7) (2 ^ 32) ltac:(lia) ltac:(lia)). lia.
Qed.

(* ================================================================== *)
(** * Hash map *)

Lemma fit_some key ts : 0 < ts -> hashmap_fit key ts = Some (key mod ts).
Proof. intros H. unfold hashmap_fit. destruct (Z.eqb_spec ts 0); [lia|reflexivity]. Qed.

Lemma fit_lt key ts : 0 < ts -> (Z.to_nat (key mod ts) < Z.to_nat ts)%nat.
Proof. intros H. pose proof (Z.mod_pos_bound key ts H). lia. Qed.

Lemma chain_get_Some chain key kv :
  chain_get chain key = Some kv -> fst kv = key /\ In kv chain.
Proof.
  induction chain as [|x chain IH]; cbn; [discriminate|].
  destruct (Z.eqb_spec (fst x) key) as [Hk|Hk].
  - intros [= <-]. auto.
  - intros H. destruct (IH H). auto.
Qed.

Lemma chain_get_None chain key :
  chain_get chain key = None <-> forall v, ~ In (key, v) chain.
Proof.
  induction chain as [|x chain IH]; cbn.
  - split; auto.
  - destruct (Z.eqb_spec (fst x) key) as [Hk|Hk].
    + split; [discriminate|]. intros H. exfalso. apply (H (snd x)). left.
      destruct x; cbn in *; congruence.
    + rewrite IH. split.
      * intros H v [Hx|Hx]; [subst x; now apply Hk | now apply (H v)].
      * intros H v Hv. apply (H v). now right.
Qed.

Lemma stored_insert_cons (t : list (list key_value_pair)) i x kv :
  (i < length t)%nat ->
  stored (<[i := x :: default [] (t !! i)]> t) kv <-> kv = x \/ stored t kv.
Proof.
  intros Hi. destruct (lookup_lt_is_Some_2 t i Hi) as [c Hc]. rewrite Hc. cbn [default from_option id].
  unfold id. split.
  - intros (j & chain & Hj & Hin). destruct (decide (i = j)) as [<-|Hne].
    + rewrite list_lookup_insert_eq in Hj by exact Hi. injection Hj as <-.
      destruct Hin as [->|Hin]; [now left|]. right. now exists i, c.
    + rewrite list_lookup_insert_ne in Hj by exact Hne. right. now exists j, chain.
  - intros [->|(j & chain & Hj & Hin)].
    + exists i, (x :: c). rewrite list_lookup_insert_eq by exact Hi. split; [reflexivity|now left].
    + destruct (decide (i = j)) as [<-|Hne].
      * exists i, (x :: c). rewrite list_lookup_insert_eq by exact Hi.
        split; [reflexivity|]. right. congruence.
      * exists j, chain. rewrite list_lookup_insert_ne by exact Hne. auto.
Qed.

Lemma buckets_ok_insert_cons ts (t : list (list key_value_pair)) x :
  0 < ts -> buckets_ok ts t ->
  buckets_ok ts (<[Z.to_nat (fst x mod ts) := x :: default [] (t !! Z.to_nat (fst x mod ts))]> t).
Proof.
  intros Hts [Hlen Hb]. set (i := Z.to_nat (fst x mod ts)).
  assert (Hi : (i < length t)%nat) by (rewrite Hlen; now apply fit_lt).
  split; [now rewrite length_insert|].
  intros j chain kv Hj Hin. destruct (decide (i = j)) as [<-|Hne].
  - rewrite list_lookup_insert_eq in Hj by exact Hi. injection Hj as <-.
    destruct Hin as [->|Hin]; [reflexivity|].
    destruct (t !! i) as [c|] eqn:Hc; [|destruct Hin]. apply (Hb i c kv Hc Hin).
  - rewrite list_lookup_insert_ne in Hj by exact Hne. now apply (Hb j chain).
Qed.

Lemma hashmap_get_spec map key :
  hashmap_wf map ->
  exists r, hashmap_get map key = Some r /\
    match r with
    | Some kv => fst kv = key /\ stored (table map) kv
    | None => forall v, ~ stored (table map) (key, v)
    end.
Proof.
  intros [Hts [Hlen Hb]]. unfold hashmap_get. rewrite fit_some by exact Hts. cbn [mbind option_bind].
  set (i := Z.to_nat (key mod table_size map)).
  assert (Hi : (i < length (table map))%nat) by (rewrite Hlen; now apply fit_lt).
  destruct (lookup_lt_is_Some_2 _ i Hi) as [c Hc]. rewrite Hc. cbn [default from_option id]. unfold id.
  eexists. split; [reflexivity|].
  destruct (chain_get c key) as [kv|] eqn:Hg.
  - apply chain_get_Some in Hg. destruct Hg. split; [assumption|]. now exists i, c.
  - intros v (j & chain & Hj & Hin).
    pose proof (Hb j chain (key, v) Hj Hin) as Hidx. cbn [fst] in Hidx. fold i in Hidx. subst j.
    assert (chain = c) by congruence. subst chain.
    rewrite chain_get_None in Hg. now apply (Hg v).
Qed.

Lemma resize_chain_spec nts : forall chain nt nt',
  0 < nts -> buckets_ok nts nt ->
  hashmap_resize_chain chain nts nt = Some nt' ->
  buckets_ok nts nt' /\ forall kv, stored nt' kv <-> In kv chain \/ stored nt kv.
Proof.
  induction chain as [|x chain IH]; intros nt nt' Hts Hok; cbn [hashmap_resize_chain].
  - intros [= <-]. split; [exact Hok|]. intros kv. split; [now right|now intros [[]|]].
  - rewrite fit_some by exact Hts. cbn [mbind option_bind]. intros Hr.
    pose proof (buckets_ok_insert_cons nts nt x Hts Hok) as Hok1.
    destruct (IH _ _ Hts Hok1 Hr) as [Hok' Hst]. split; [exact Hok'|].
    intros kv. rewrite Hst, stored_insert_cons.
    + cbn [In]. split; intros H; repeat destruct H as [H|H]; auto.
    + destruct Hok as [Hlen _]. rewrite Hlen. now apply fit_lt.
Qed.

Lemma resize_table_spec nts : forall old nt nt',
  0 < nts -> buckets_ok nts nt ->
  hashmap_resize_table old nts nt = Some nt' ->
  buckets_ok nts nt' /\ forall kv, stored nt' kv <-> stored old kv \/ stored nt kv.
Proof.
  induction old as [|chain old IH]; intros nt nt' Hts Hok; cbn [hashmap_resize_table].
  - intros [= <-]. split; [exact Hok|]. intros kv. split; [now right|].
    intros [(i & c & Hi & _)|H]; [|exact H]. now rewrite lookup_nil in Hi.
  - destruct (hashmap_resize_chain chain nts nt) as [nt1|] eqn:Hc; cbn [mbind option_bind]; [|discriminate].
    intros Hr. destruct (resize_chain_spec nts chain nt nt1 Hts Hok Hc) as [Hok1 Hst1].
    destruct (IH nt1 nt' Hts Hok1 Hr) as [Hok' Hst]. split; [exact Hok'|].
    intros kv. rewrite Hst, Hst1. split.
    + intros [(i & c & Hi & Hin)|[Hin|Hs]].
      * left. now exists (S i), c.
      * left. now exists 0%nat, chain.
      * now right.
    + intros [(i & c & Hi & Hin)|Hs]; [|auto].
      destruct i as [|i]; cbn in Hi.
      * injection Hi as <-. auto.
      * left. now exists i, c.
Qed.

Lemma resize_table_zero : forall old nt kv,
  stored old kv -> hashmap_resize_table old 0 nt = None.
Proof.
  induction old as [|chain old IH]; intros nt kv (i & c & Hi & Hin).
  - now rewrite lookup_nil in Hi.
  - cbn [hashmap_resize_table]. destruct chain as [|x chain].
    + cbn [hashmap_resize_chain mbind option_bind].
      destruct i as [|i]; cbn in Hi.
      * injection Hi as <-. destruct Hin.
      * apply (IH nt kv). now exists i, c.
    + reflexivity.
Qed.

Lemma buckets_ok_empty ts : buckets_ok ts (replicate (Z.to_nat ts) []).
Proof.
  split; [apply length_replicate|]. intros i chain kv Hi Hin.
  apply lookup_replicate in Hi. destruct Hi as [-> _]. destruct Hin.
Qed.

Lemma stored_empty n kv : ~ stored (replicate n []) kv.
Proof. intros (i & c & Hi & Hin). apply lookup_replicate in Hi. destruct Hi as [-> _]. destruct Hin. Qed.

Lemma hashmap_resize_spec map map' :
  length (table map) = Z.to_nat (table_size map) ->
  (exists kv, stored (table map) kv) ->
  hashmap_resize map = Some map' ->
  hashmap_wf map' /\ size map' = size map /\
  forall kv, stored (table map') kv <-> stored (table map) kv.
Proof.
  intros Hlen [kv0 Hkv0]. unfold hashmap_resize. set (nts := u32 (table_size map * 2)).
  rewrite <- Hlen, firstn_all.
  destruct (Z.eqb_spec nts 0) as [Hz|Hz].
  - rewrite Hz, (resize_table_zero _ _ kv0 Hkv0). discriminate.
  - assert (Hts : 0 < nts).
    { unfold nts, u32 in *. pose proof (Z.mod_pos_bound (table_size map * 2) (2 ^ 32) ltac:(lia)). lia. }
    destruct (hashmap_resize_table _ _ _) as [nt|] eqn:Hr; cbn [mbind option_bind]; [|discriminate].
    intros [= <-]. cbn [table table_size size].
    destruct (resize_table_spec nts _ _ nt Hts (buckets_ok_empty nts) Hr) as [Hok Hst].
    split; [split; assumption|]. split; [reflexivity|].
    intros kv. rewrite Hst. split; [|auto]. intros [H|H]; [exact H|]. now apply stored_empty in H.
Qed.

Lemma hashmap_insert_spec map key value map' :
  hashmap_wf map ->
  hashmap_insert map key value = Some map' ->
  hashmap_wf map' /\ size map' = u32 (size map + 1) /\
  forall kv, stored (table map') kv <-> kv = (key, value) \/ stored (table map) kv.
Proof.
  intros [Hts Hok] Hins. unfold hashmap_insert in Hins.
  rewrite fit_some in Hins by exact Hts. cbn [mbind option_bind] in Hins.
  set (i := Z.to_nat (key mod table_size map)) in *.
  assert (Hi : (i < length (table map))%nat) by (destruct Hok as [-> _]; now apply fit_lt).
  pose proof (buckets_ok_insert_cons (table_size map) (table map) (key, value) Hts Hok) as Hok1.
  cbn [fst] in Hok1. fold i in Hok1.
  pose proof (stored_insert_cons (table map) i (key, value)) as Hst1.
  cbn [size table_size table] in Hins.
  destruct (_ >? _) in Hins.
  - apply hashmap_resize_spec in Hins.
    + cbn [size table table_size] in Hins. destruct Hins as (Hwf & Hsz & Hst).
      split; [exact Hwf|]. split; [exact Hsz|].
      intros kv. rewrite Hst. now apply Hst1.
    + cbn [table table_size]. rewrite length_insert. now destruct Hok.
    + exists (key, value). cbn [table]. apply Hst1; [exact Hi|now left].
  - injection Hins as <-. cbn [size table table_size].
    split; [split; assumption|]. split; [reflexivity|].
    intros kv. now apply Hst1.
Qed.

(* ================================================================== *)
(** * Valuation runs *)

Lemma bind_Done {A B} (m : M A) (f : A -> M B) afl b afl2 :
  (m ≫= f) afl = Done b afl2 ->
  exists a afl1, m afl = Done a afl1 /\ f a afl1 = Done b afl2.
Proof.
  unfold mbind, M_bind. destruct (m afl) as [a afl1| |]; try discriminate. eauto.
Qed.

Section Valuation.
Variable E : environment.

Lemma open_persistent_keeps fd path afl r afl' :
  open_persistent E fd path afl = Done r afl' -> afl' = afl.
Proof.
  unfold open_persistent. destruct (fd <? 0); munfold.
  - destruct (open_fails E afl path); [discriminate|]. now intros [= _ <-].
  - now intros [= _ <-].
Qed.

Lemma run_valuation_binary_value_map argv timeout env_opt afl r afl' :
  run_valuation_binary E argv timeout env_opt afl = Done r afl' ->
  value_map afl' = value_map afl.
Proof.
  unfold run_valuation_binary. intros H.
  apply bind_Done in H. destruct H as (a0 & s0 & H0 & H). munfold. injection H0 as <- <-.
  apply bind_Done in H. destruct H as (u & s1 & H1 & H). apply open_persistent_keeps in H1. subst s1.
  apply bind_Done in H. destruct H as (n & s1 & H1 & H). apply open_persistent_keeps in H1. subst s1.
  apply bind_Done in H. destruct H as (o & s1 & H1 & H). apply open_persistent_keeps in H1. subst s1.
  destruct (fork_failed _); [discriminate|]. munfold.
  destruct (waitpid_failed _); [discriminate|].
  destruct (term_signal _) as [sig|].
  - destruct (_ && _); injection H as _ <-; reflexivity.
  - destruct (_ && _).
    + injection H as _ <-. reflexivity.
    + destruct (is_run_failed _); injection H as _ <-; reflexivity.
Qed.

(** The probe of the valuation map, case by case. *)
Lemma probe_value_map_spec tmpfile afl :
  hashmap_wf (value_map afl) ->
  let hash := hash_file E afl tmpfile in
  match hashmap_get (value_map afl) hash with
  | Some (Some kvp) =>
      probe_value_map E tmpfile afl =
        Done (0, 0, None)
          (emit (EvRemove tmpfile)
             (emit (EvLog "[PacFuzz] [run_valuation] [already-exist]") afl))
  | Some None =>
      match hashmap_insert (value_map afl) hash 0 with
      | Some map =>
          probe_value_map E tmpfile afl =
            Done (1, hash, Some tmpfile) (set_value_map map afl)
          /\ stored (table map) (hash, 0)
      | None => probe_value_map E tmpfile afl = Fatal "hashmap_insert: the hash map cannot grow"
      end
  | None => False
  end.
Proof.
  intros Hwf hash. destruct (hashmap_get_spec _ hash Hwf) as (r & Hr & Hspec).
  rewrite Hr. unfold probe_value_map. munfold. fold hash. rewrite Hr.
  destruct r as [kvp|]; [reflexivity|].
  destruct (hashmap_insert _ _ _) as [map|] eqn:Hi; [|reflexivity].
  split; [reflexivity|].
  apply hashmap_insert_spec in Hi; [|exact Hwf]. destruct Hi as (_ & _ & Hst).
  apply Hst. now left.
Qed.

(** One run: a success inserts a hash that was absent, anything else
    leaves the map alone. *)
Lemma run_valuation_step crashed argv mem len afl success val_hash file afl' :
  hashmap_wf (value_map afl) ->
  run_valuation E crashed argv mem len afl = Done (success, val_hash, file) afl' ->
  (success = 1 /\ hashmap_get (value_map afl) val_hash = Some None /\
   hashmap_insert (value_map afl) val_hash 0 = Some (value_map afl'))
  \/ (success = 0 /\ value_map afl' = value_map afl).
Proof.
  intros Hwf. unfold run_valuation. intros H.
  apply bind_Done in H. destruct H as (a0 & s0 & H0 & H). munfold. injection H0 as <- <-.
  destruct (getenv E "PACFIX_VAL_EXE") as [valexe|]; [|injection H as <- _ _ <-; auto].
  destruct (getenv E "PACFIX_COV_DIR") as [covdir|]; [|injection H as <- _ _ <-; auto].
  set (tmpfile := if truthy crashed then _ else _) in H.
  destruct (run_valuation_binary _ _ _ _ _) as [ft afl1| |] eqn:Hb; try discriminate.
  apply run_valuation_binary_value_map in Hb. cbn [value_map emit] in Hb.
  destruct (_ || _).
  - injection H as <- _ _ <-. right. split; [reflexivity|]. exact Hb.
  - rewrite <- Hb in Hwf. pose proof (probe_value_map_spec tmpfile afl1 Hwf) as Hp.
    cbv zeta in Hp.
    destruct (hashmap_get (value_map afl1) _) as [[kvp|]|] eqn:Hg; [| |contradiction].
    + rewrite Hp in H. injection H as <- _ _ <-. right. split; [reflexivity|exact Hb].
    + destruct (hashmap_insert _ _ _) as [map|] eqn:Hi.
      * destruct Hp as [Hp _]. rewrite Hp in H. injection H as <- <- _ <-.
        left. cbn [value_map set_value_map]. rewrite <- Hb. auto.
      * rewrite Hp in H. discriminate.
Qed.

Lemma valuation_runs_distinct map hashes map' :
  valuation_runs E map hashes map' ->
  hashmap_wf map ->
  hashmap_wf map' /\
  (forall kv, stored (table map) kv -> stored (table map') kv) /\
  (forall h, In h hashes -> (forall v, ~ stored (table map) (h, v)) /\ stored (table map') (h, 0)) /\
  NoDup hashes.
Proof.
  induction 1 as [map | afl crashed argv mem len success val_hash file afl' hashes map' Hrun Hrest IH];
    intros Hwf.
  - split; [exact Hwf|]. split; [auto|]. split; [intros h []|constructor].
  - destruct (run_valuation_step _ _ _ _ _ _ _ _ _ Hwf Hrun)
      as [(-> & Hget & Hins) | (-> & Hsame)].
    + pose proof (hashmap_insert_spec _ _ _ _ Hwf Hins) as (Hwf' & _ & Hst).
      destruct (IH Hwf') as (Hwf'' & Hmono & Hnew & Hnd).
      destruct (hashmap_get_spec _ val_hash Hwf) as (r & Hr & Habs).
      rewrite Hget in Hr. injection Hr as <-.
      cbn [truthy Z.eqb negb]. split; [exact Hwf''|]. split; [|split].
      * intros kv Hkv. apply Hmono, Hst. now right.
      * intros h [<-|Hh]; split.
        -- exact Habs.
        -- apply Hmono, Hst. now left.
        -- intros v Hv. apply (proj1 (Hnew h Hh) v). apply Hst. now right.
        -- apply (Hnew h Hh).
      * apply NoDup_cons_2; [|exact Hnd]. intros Hin%list_elem_of_In.
        apply (proj1 (Hnew val_hash Hin) 0). apply Hst. now left.
    + rewrite Hsame in IH. cbn [truthy Z.eqb negb]. apply IH. exact Hwf.
Qed.
End Valuation.

(* ================================================================== *)
(** * Further facts used below *)

Lemma classify_counts_eq f :
  (classified_bytes f <= length (trace_bits f))%nat ->
  classify_counts f =
  set_trace_bits (map bucket (take (classified_bytes f) (trace_bits f))
                    ++ drop (classified_bytes f) (trace_bits f)) f.
Proof.
  intros H. unfold classify_counts. f_equal.
  apply fold_store_chunk64_map; [|exact H].
  intros w Hw. apply classify_word_map. exists 4%nat. lia.
Qed.

Lemma map_bucket_fixed (l : list byte) :
  map bucket (map bucket l) = map bucket l <->
  Forall (fun b => byte.unsigned b <= 2 \/ 32 <= byte.unsigned b) l.
Proof.
  induction l as [|b l IH]; cbn [map].
  - split; [constructor|reflexivity].
  - split.
    + intros [= Hb Hl]. constructor; [now apply bucket_fixed | now apply IH].
    + intros H. inversion H as [|? ? Hb Hl]; subst. f_equal; [now apply bucket_fixed | now apply IH].
Qed.

Lemma classify_twice_fixed_iff f :
  (classified_bytes f <= length (trace_bits f))%nat ->
  classify_counts (classify_counts f) = classify_counts f <->
  Forall (fun b => byte.unsigned b <= 2 \/ 32 <= byte.unsigned b)
    (take (classified_bytes f) (trace_bits f)).
Proof.
  intros H. set (n := classified_bytes f) in *. set (T := trace_bits f) in *.
  assert (Hn : length (take n T) = n) by (rewrite length_take; lia).
  rewrite (classify_counts_eq f H). fold n T.
  set (T1 := map bucket (take n T) ++ drop n T).
  assert (H1 : (classified_bytes (set_trace_bits T1 f) <= length (trace_bits (set_trace_bits T1 f)))%nat).
  { cbn [trace_bits set_trace_bits]. change (classified_bytes (set_trace_bits T1 f)) with n.
    unfold T1. rewrite length_app, length_map, length_drop. lia. }
  rewrite (classify_counts_eq _ H1). cbn [trace_bits set_trace_bits].
  change (classified_bytes (set_trace_bits T1 f)) with n.
  assert (Ht : take n T1 = map bucket (take n T)).
  { unfold T1. rewrite take_app_length'; [reflexivity|]. now rewrite length_map. }
  assert (Hd : drop n T1 = drop n T).
  { unfold T1. rewrite drop_app_length'; [reflexivity|]. now rewrite length_map. }
  rewrite Ht, Hd. etransitivity; [|apply map_bucket_fixed]. split.
  - intros Heq. apply (f_equal trace_bits) in Heq. cbn [trace_bits set_trace_bits] in Heq.
    unfold T1 in Heq. now apply app_inv_tail in Heq.
  - intros Heq. unfold set_trace_bits. cbn. unfold T1. f_equal. f_equal. exact Heq.
Qed.

Lemma get_valuation_skip E argv use_mem len afl :
  trace_targets_num (fsrv afl) <= 0 ->
  get_valuation E argv use_mem len 0 afl =
  Done 0 (emit (EvLog "[PacFuzz] [targets]") afl).
Proof.
  intros H. unfold get_valuation. munfold. cbn [fsrv emit trace_targets_num].
  destruct (Z.gtb_spec (trace_targets_num (fsrv afl)) 0); [lia|]. reflexivity.
Qed.

Lemma describe_op_Some E afl nb np max s :
  describe_op E afl nb np max = Some s ->
  strlen s < max /\ describe_op_build E afl nb np max = Some s.
Proof.
  unfold describe_op. destruct (describe_op_build E afl nb np max) as [r|]; cbn; [|discriminate].
  destruct (Z.leb_spec max (strlen r)); [discriminate|]. intros [= <-]. auto.
Qed.

Lemma describe_op_too_long E afl nb np max s :
  describe_op_build E afl nb np max = Some s ->
  max <= strlen s ->
  describe_op E afl nb np max = None.
Proof.
  intros Hb Hl. unfold describe_op. rewrite Hb. cbn.
  destruct (Z.leb_spec max (strlen s)); [reflexivity|lia].
Qed.

Lemma has_new_bits_mul_bitmap_changed afl vms modify :
  bitmap_changed (snd (has_new_bits_mul afl vms modify)) = bitmap_changed afl.
Proof. reflexivity. Qed.

Lemma hamming_weight_ones n : hamming_weight (replicate n Byte.xff) = 8 * Z.of_nat n.
Proof.
  induction n as [|n IH]; [reflexivity|].
  cbn [replicate hamming_weight fold_right]. fold (hamming_weight (replicate n Byte.xff)).
  rewrite IH. change (Z_popcount (byte.unsigned Byte.xff)) with 8. lia.
Qed.

Lemma hamming_weight_zeros l :
  Forall (fun b => b = Byte.x00) l -> hamming_weight l = 0.
Proof.
  induction 1 as [|b l Hb Hl IH]; [reflexivity|].
  cbn [hamming_weight fold_right]. fold (hamming_weight l). rewrite IH, Hb. reflexivity.
Qed.

Lemma count_bits_words_small afl :
  0 <= real_map_size (fsrv afl) <= 2 ^ 29 - 4 ->
  (Z.to_nat (real_map_size (fsrv afl)) <= 4 * count_bits_words afl)%nat /\
  Z.of_nat (4 * count_bits_words afl) < 2 ^ 29.
Proof.
  intros H. unfold count_bits_words, u32. rewrite Z.shiftr_div_pow2 by lia.
  change (2 ^ 29) with 536870912 in *. change (2 ^ 2) with 4. change (2 ^ 32) with 4294967296.
  rewrite Z.mod_small by lia.
  pose proof (Z.div_mod (real_map_size (fsrv afl) + 3) 4 ltac:(lia)).
  pose proof (Z.mod_pos_bound (real_map_size (fsrv afl) + 3) 4 ltac:(lia)).
  lia.
Qed.

Lemma count_bits_small afl mem :
  (4 * count_bits_words afl <= length mem)%nat ->
  0 <= real_map_size (fsrv afl) <= 2 ^ 29 - 4 ->
  count_bits afl mem = hamming_weight (take (4 * count_bits_words afl) mem).
Proof.
  intros H Hsz. rewrite count_bits_mod by exact H. apply Z.mod_small.
  pose proof (hamming_weight_bound (take (4 * count_bits_words afl) mem)) as Hb.
  rewrite length_take in Hb. destruct (count_bits_words_small afl Hsz) as [_ Hw].
  change (2 ^ 29) with 536870912 in *. change (2 ^ 32) with 4294967296. lia.
Qed.

Lemma hamming_weight_padding afl mem :
  0 <= real_map_size (fsrv afl) <= 2 ^ 29 - 4 ->
  Forall (fun b => b = Byte.x00)
    (drop (Z.to_nat (real_map_size (fsrv afl))) (take (4 * count_bits_words afl) mem)) ->
  hamming_weight (take (4 * count_bits_words afl) mem)
  = hamming_weight (take (Z.to_nat (real_map_size (fsrv afl))) mem).
Proof.
  intros Hsz Hpad. destruct (count_bits_words_small afl Hsz) as [Hle _].
  rewrite <- (take_drop (Z.to_nat (real_map_size (fsrv afl)))
                (take (4 * count_bits_words afl) mem)) at 1.
  rewrite hamming_weight_app, (hamming_weight_zeros _ Hpad), take_take.
  rewrite Nat.min_l by exact Hle. lia.
Qed.

(* ================================================================== *)
(** * The pre-filter on whole words *)

(** A word of the classified trace is the class of the raw word. *)
Lemma classified_chunk f i :
  (classified_bytes f <= length (trace_bits f))%nat ->
  (8 * i + 8 <= classified_bytes f)%nat ->
  chunk64 (trace_bits (classify_counts f)) i = classify_word (chunk64 (trace_bits f) i).
Proof.
  intros Hlen Hi. rewrite (classify_counts_eq f Hlen). cbn [trace_bits set_trace_bits].
  set (cb := classified_bytes f) in *. set (t := trace_bits f) in *.
  assert (L : length (chunk64 t i) = 8%nat).
  { unfold chunk64. rewrite length_take, length_drop. lia. }
  rewrite classify_word_map by (rewrite L; exists 4%nat; reflexivity).
  unfold chunk64.
  rewrite drop_app_le by (rewrite length_map, length_take; lia).
  rewrite take_app_le by (rewrite length_drop, length_map, length_take; lia).
  rewrite skipn_map, firstn_map. f_equal.
  rewrite skipn_firstn_comm, take_take. f_equal. lia.
Qed.

Lemma classified_bytes_aligned f :
  0 <= map_size f -> map_size f mod 8 = 0 ->
  classified_bytes f = Z.to_nat (map_size f)
  /\ Z.to_nat ((map_size f + 7) / 8) = Z.to_nat (Z.shiftr (map_size f) 3).
Proof.
  intros H0 Hm. unfold classified_bytes. rewrite Z.shiftr_div_pow2 by lia.
  change (2 ^ 3) with 8.
  pose proof (Z.div_mod (map_size f) 8 ltac:(lia)) as D. rewrite Hm in D.
  assert (E : (map_size f + 7) / 8 = map_size f / 8).
  { symmetry. apply Z.div_unique with (r := 7); lia. }
  rewrite E. split; [|reflexivity].
  assert (0 <= map_size f / 8) by (apply Z.div_pos; lia). lia.
Qed.
Lemma existsb_eq_in {A} (f g : A -> bool) (l : list A) :
  (forall x, In x l -> f x = g x) -> existsb f l = existsb g l.
Proof.
  induction l as [|a l IH]; intros H; cbn [existsb]; [reflexivity|].
  rewrite (H a) by now left. rewrite IH; [reflexivity|]. intros x Hx. apply H. now right.
Qed.

(** On whole words the pre-filter compares the classes of the bytes. *)
Lemma skim_map_bucket h vms cur n :
  (8 * n <= length cur)%nat ->
  skim h vms cur n =
  existsb (fun i =>
      existsb (fun p =>
          negb (Z.land (le_combine (List.map bucket (chunk64 cur i)))
                       (load64 (deref h p) i) =? 0))
        vms)
    (seq 0 n).
Proof.
  intros Hlen. unfold skim. apply existsb_eq_in. intros i Hi. apply in_seq in Hi.
  rewrite classify_word_map; [reflexivity|].
  unfold chunk64. rewrite length_take, length_drop.
  exists 4%nat. lia.
Qed.

(* ================================================================== *)
(** * The hash map as a finite map *)

Lemma stored_contents t kv : stored t kv <-> In kv (concat t).
Proof.
  unfold stored. rewrite in_concat. split.
  - intros (i & chain & Hi & Hin). exists chain. split; [|exact Hin].
    apply list_elem_of_In. eapply list_elem_of_lookup_2. exact Hi.
  - intros (chain & Hc & Hin). apply list_elem_of_In, list_elem_of_lookup_1 in Hc.
    destruct Hc as [i Hi]. eauto.
Qed.

Lemma concat_insert_cons (t : list (list key_value_pair)) i x :
  (i < length t)%nat ->
  concat (<[i := x :: default [] (t !! i)]> t) ≡ₚ x :: concat t.
Proof.
  intros Hi. destruct (lookup_lt_is_Some_2 t i Hi) as [c Hc]. rewrite Hc.
  cbn [default from_option id]. unfold id.
  rewrite insert_take_drop by exact Hi.
  rewrite <- (take_drop_middle t i c Hc) at 3.
  rewrite !concat_app, !concat_cons.
  cbn [app]. symmetry. apply Permutation_middle.
Qed.

Lemma resize_chain_perm nts : forall chain nt,
  0 < nts -> length nt = Z.to_nat nts ->
  exists nt', hashmap_resize_chain chain nts nt = Some nt'
    /\ length nt' = length nt /\ concat nt' ≡ₚ chain ++ concat nt.
Proof.
  induction chain as [|x chain IH]; intros nt Hts Hlen; cbn [hashmap_resize_chain].
  - exists nt. auto.
  - rewrite fit_some by exact Hts. cbn [mbind option_bind].
    set (i := Z.to_nat (fst x mod nts)).
    assert (Hi : (i < length nt)%nat) by (rewrite Hlen; now apply fit_lt).
    destruct (IH (<[i := x :: default [] (nt !! i)]> nt) Hts) as (nt' & E & L & P).
    { now rewrite length_insert. }
    exists nt'. split; [exact E|]. split; [now rewrite L, length_insert|].
    rewrite P, concat_insert_cons by exact Hi.
    cbn [app]. symmetry. apply Permutation_middle.
Qed.

Lemma resize_table_perm nts : forall old nt,
  0 < nts -> length nt = Z.to_nat nts ->
  exists nt', hashmap_resize_table old nts nt = Some nt'
    /\ length nt' = length nt /\ concat nt' ≡ₚ concat old ++ concat nt.
Proof.
  induction old as [|chain old IH]; intros nt Hts Hlen; cbn [hashmap_resize_table].
  - exists nt. auto.
  - destruct (resize_chain_perm nts chain nt Hts Hlen) as (nt1 & E1 & L1 & P1).
    rewrite E1. cbn [mbind option_bind].
    destruct (IH nt1 Hts) as (nt' & E & L & P); [congruence|].
    exists nt'. split; [exact E|]. split; [congruence|].
    rewrite P, P1, concat_cons.
    rewrite !app_assoc. apply Permutation_app_tail, Permutation_app_comm.
Qed.

(** [hashmap_resize] on a table whose doubled size still fits 32 bits. *)
Lemma hashmap_resize_perm m :
  hashmap_wf m -> table_size m < 2 ^ 31 ->
  exists m', hashmap_resize m = Some m'
    /\ hashmap_wf m' /\ table_size m' = 2 * table_size m /\ size m' = size m
    /\ contents m' ≡ₚ contents m.
Proof.
  intros [Hts [Hlen Hb]] Hmax. unfold hashmap_resize.
  assert (Hn : u32 (table_size m * 2) = 2 * table_size m).
  { unfold u32. rewrite Z.mod_small; lia. }
  rewrite Hn. rewrite <- Hlen, firstn_all.
  destruct (resize_table_perm (2 * table_size m) (table m)
              (replicate (Z.to_nat (2 * table_size m)) []))
    as (nt & E & L & P); [lia|apply length_replicate|].
  rewrite E. cbn [mbind option_bind]. eexists. split; [reflexivity|].
  unfold hashmap_wf, contents. cbn [table table_size size].
  destruct (resize_table_spec (2 * table_size m) _ _ nt ltac:(lia)
              (buckets_ok_empty (2 * table_size m)) E) as [Hok _].
  split; [split; [lia|exact Hok]|]. split; [reflexivity|]. split; [reflexivity|].
  rewrite P. clear.
  induction (Z.to_nat (2 * table_size m)) as [|n IH]; cbn [replicate concat app].
  - now rewrite app_nil_r.
  - exact IH.
Qed.

(** [hashmap_insert] always succeeds on a well-formed map that can still
    grow. *)
Lemma hashmap_insert_perm m key value :
  hashmap_wf m -> table_size m < 2 ^ 31 ->
  exists m', hashmap_insert m key value = Some m'
    /\ hashmap_wf m'
    /\ size m' = u32 (size m + 1)
    /\ table_size m' =
         (if u32 (size m + 1) >? table_size m / 2 then 2 * table_size m
          else table_size m)
    /\ contents m' ≡ₚ (key, value) :: contents m.
Proof.
  intros Hwf Hmax. pose proof Hwf as [Hts [Hlen Hb]].
  unfold hashmap_insert. rewrite fit_some by exact Hts. cbn [mbind option_bind].
  set (i := Z.to_nat (key mod table_size m)).
  assert (Hi : (i < length (table m))%nat) by (rewrite Hlen; now apply fit_lt).
  set (m1 := mk_hashmap (u32 (size m + 1)) (table_size m)
               (<[i := (key, value) :: default [] (table m !! i)]> (table m))).
  assert (Hwf1 : hashmap_wf m1).
  { split; [exact Hts|]. apply (buckets_ok_insert_cons (table_size m) (table m) (key, value) Hts).
    split; assumption. }
  assert (P1 : contents m1 ≡ₚ (key, value) :: contents m).
  { unfold contents, m1. cbn [table]. now apply concat_insert_cons. }
  change (size m1 >? table_size m1 / 2) with (u32 (size m + 1) >? table_size m / 2).
  destruct (u32 (size m + 1) >? table_size m / 2).
  - destruct (hashmap_resize_perm m1 Hwf1 Hmax) as (m' & E & W & T & S & P).
    exists m'. split; [exact E|]. split; [exact W|]. split; [exact S|].
    split; [exact T|]. now rewrite P.
  - exists m1. auto.
Qed.

Lemma chain_get_app l1 l2 key :
  chain_get (l1 ++ l2) key =
  match chain_get l1 key with Some kv => Some kv | None => chain_get l2 key end.
Proof.
  induction l1 as [|x l1 IH]; cbn [app chain_get]; [reflexivity|].
  destruct (fst x =? key); [reflexivity|exact IH].
Qed.

Lemma chain_get_absent l key :
  (forall kv, In kv l -> fst kv <> key) -> chain_get l key = None.
Proof.
  intros H. apply chain_get_None. intros v Hin. now apply (H _ Hin).
Qed.

(** The search of one bucket is the search of the whole table. *)
Lemma hashmap_get_contents m key :
  hashmap_wf m -> hashmap_get m key = Some (chain_get (contents m) key).
Proof.
  intros [Hts [Hlen Hb]]. unfold hashmap_get. rewrite fit_some by exact Hts.
  cbn [mbind option_bind]. f_equal.
  set (i := Z.to_nat (key mod table_size m)).
  assert (Hi : (i < length (table m))%nat) by (rewrite Hlen; now apply fit_lt).
  destruct (lookup_lt_is_Some_2 _ i Hi) as [c Hc]. rewrite Hc.
  cbn [default from_option id]. unfold id, contents.
  rewrite <- (take_drop_middle (table m) i c Hc).
  rewrite concat_app, concat_cons, !chain_get_app.
  assert (Hother : forall j chain, table m !! j = Some chain -> j <> i ->
            forall kv, In kv chain -> fst kv <> key).
  { intros j chain Hj Hne kv Hin Hk. apply Hne.
    rewrite <- (Hb j chain kv Hj Hin). subst i. now rewrite Hk. }
  rewrite (chain_get_absent (concat (take i (table m)))).
  - destruct (chain_get c key); [reflexivity|].
    symmetry. apply chain_get_absent. intros kv Hin.
    apply in_concat in Hin. destruct Hin as (chain & Hch & Hin).
    apply list_elem_of_In, list_elem_of_lookup_1 in Hch. destruct Hch as [j Hj].
    rewrite lookup_drop in Hj. apply (Hother _ _ Hj); [lia|exact Hin].
  - intros kv Hin.
    apply in_concat in Hin. destruct Hin as (chain & Hch & Hin).
    apply list_elem_of_In, list_elem_of_lookup_1 in Hch. destruct Hch as [j Hj].
    pose proof (lookup_lt_Some _ _ _ Hj) as Hlt. rewrite length_take in Hlt.
    rewrite lookup_take_lt in Hj by lia. apply (Hother _ _ Hj); [lia|exact Hin].
Qed.

Lemma NoDup_fst_inj (l : list key_value_pair) a b :
  NoDup l.*1 -> In a l -> In b l -> fst a = fst b -> a = b.
Proof.
  induction l as [|x l IH]; cbn [fmap list_fmap]; [intros _ []|].
  intros Hnd Ha Hb Hab. inversion Hnd as [|? ? Hni Hnd']; subst.
  assert (Hin : forall c, In c l -> fst c ∈ l.*1).
  { intros c Hc. apply list_elem_of_fmap. exists c. split; [reflexivity|].
    now apply list_elem_of_In. }
  destruct Ha as [->|Ha], Hb as [->|Hb].
  - reflexivity.
  - exfalso. apply Hni. rewrite Hab. now apply Hin.
  - exfalso. apply Hni. rewrite <- Hab. now apply Hin.
  - now apply IH.
Qed.

(** With no key stored twice the search does not depend on the order of
    the pairs. *)
Lemma chain_get_perm l l' key :
  NoDup l.*1 -> l ≡ₚ l' -> chain_get l key = chain_get l' key.
Proof.
  intros Hnd Hp.
  destruct (chain_get l key) as [kv|] eqn:E, (chain_get l' key) as [kv'|] eqn:E';
    try reflexivity.
  - apply chain_get_Some in E, E'. destruct E as [E1 E2], E' as [E1' E2'].
    f_equal. apply (NoDup_fst_inj l); [exact Hnd|exact E2| |congruence].
    eapply Permutation_in; [symmetry; exact Hp|exact E2'].
  - apply chain_get_Some in E. destruct E as [E1 E2].
    rewrite chain_get_None in E'. exfalso. apply (E' (snd kv)).
    eapply Permutation_in; [exact Hp|]. destruct kv; cbn in *; now subst.
  - apply chain_get_Some in E'. destruct E' as [E1 E2].
    rewrite chain_get_None in E. exfalso. apply (E (snd kv')).
    eapply Permutation_in; [symmetry; exact Hp|]. destruct kv'; cbn in *; now subst.
Qed.

Lemma chain_remove_spec chain key :
  match chain_remove chain key with
  | Some chain' =>
      exists kv, chain_get chain key = Some kv /\ chain ≡ₚ kv :: chain'
        /\ forall x, In x chain' -> In x chain
  | None => chain_get chain key = None
  end.
Proof.
  induction chain as [|x chain IH]; cbn [chain_remove chain_get]; [reflexivity|].
  destruct (fst x =? key).
  - exists x. split; [reflexivity|]. split; [reflexivity|]. intros y Hy. now right.
  - destruct (chain_remove chain key) as [rest|]; cbn [mbind option_bind].
    + destruct IH as (kv & G & P & S). exists kv. split; [exact G|]. split.
      * rewrite P. apply perm_swap.
      * intros y [->|Hy]; [now left|right; now apply S].
    + exact IH.
Qed.

(** [hashmap_remove] on a well-formed map: it never fails, a missing key
    leaves the map as it is, and otherwise exactly the pair that
    [hashmap_get] finds is taken out. *)
Lemma hashmap_remove_perm m key :
  hashmap_wf m ->
  exists m', hashmap_remove m key = Some m'
    /\ hashmap_wf m' /\ table_size m' = table_size m
    /\ match chain_get (contents m) key with
       | None => m' = m
       | Some kv => size m' = u32 (size m - 1) /\ contents m ≡ₚ kv :: contents m'
       end.
Proof.
  intros Hwf. pose proof (hashmap_get_contents m key Hwf) as Hget.
  destruct Hwf as [Hts [Hlen Hb]].
  unfold hashmap_get in Hget. unfold hashmap_remove.
  rewrite fit_some in * by exact Hts. cbn [mbind option_bind] in *.
  set (i := Z.to_nat (key mod table_size m)) in *.
  assert (Hi : (i < length (table m))%nat) by (rewrite Hlen; now apply fit_lt).
  destruct (lookup_lt_is_Some_2 _ i Hi) as [c Hc]. rewrite Hc in *.
  cbn [default from_option id] in *. unfold id in *.
  injection Hget as Hget. rewrite <- Hget.
  pose proof (chain_remove_spec c key) as Hr.
  destruct (chain_remove c key) as [c'|].
  - destruct Hr as (kv & G & P & S). rewrite G.
    eexists. split; [reflexivity|].
    unfold hashmap_wf, buckets_ok. cbn [table table_size size].
    split; [|split; [reflexivity|split; [reflexivity|]]].
    + split; [exact Hts|]. split; [now rewrite length_insert|].
      intros j chain x Hj Hin. destruct (decide (i = j)) as [<-|Hne].
      * rewrite list_lookup_insert_eq in Hj by exact Hi. injection Hj as <-.
        apply (Hb i c x Hc). now apply S.
      * rewrite list_lookup_insert_ne in Hj by exact Hne. now apply (Hb j chain).
    + unfold contents. cbn [table].
      rewrite insert_take_drop by exact Hi.
      rewrite <- (take_drop_middle (table m) i c Hc) at 1.
      rewrite !concat_app, !concat_cons, P. cbn [app].
      symmetry. apply Permutation_middle.
  - rewrite Hr. exists m. split; [reflexivity|].
    split; [split; [exact Hts|split; assumption]|]. split; reflexivity.
Qed.

Lemma contents_create n : contents (hashmap_create n) = [].
Proof.
  unfold contents, hashmap_create. cbn [table].
  induction (Z.to_nat n) as [|k IH]; [reflexivity|exact IH].
Qed.

Lemma hashmap_create_wf n : 0 < n -> hashmap_wf (hashmap_create n).
Proof. intros H. split; [exact H|apply buckets_ok_empty]. Qed.






(** A key that was absent is found with the inserted payload. *)
Lemma hashmap_get_inserted m key value m' :
  hashmap_wf m ->
  hashmap_get m key = Some None ->
  hashmap_insert m key value = Some m' ->
  hashmap_get m' key = Some (Some (key, value)).
Proof.
  intros Hwf Hg Hi.
  destruct (hashmap_insert_spec m key value m' Hwf Hi) as (Hwf' & _ & Hst).
  destruct (hashmap_get_spec m key Hwf) as (r & Hr & Habs).
  rewrite Hg in Hr. injection Hr as <-.
  destruct (hashmap_get_spec m' key Hwf') as (r' & Hr' & Hspec).
  rewrite Hr'. destruct r' as [kv|].
  - destruct Hspec as [Hk Hs]. apply Hst in Hs. destruct Hs as [->|Hs]; [reflexivity|].
    exfalso. apply (Habs (snd kv)). destruct kv; cbn in *; now subst.
  - exfalso. apply (Hspec value). apply Hst. now left.
Qed.

(* ================================================================== *)
(** * Byte counting *)

Lemma count_where_app P l1 l2 :
  count_where P (l1 ++ l2) = count_where P l1 + count_where P l2.
Proof.
  unfold count_where. rewrite List.filter_app, length_app. lia.
Qed.

Lemma count_where_bound P l : 0 <= count_where P l <= Z.of_nat (length l).
Proof.
  unfold count_where. pose proof (List.filter_length_le P l). lia.
Qed.

Lemma count_where_word P b0 b1 b2 b3 :
  count_where P [b0; b1; b2; b3] = b2u8 (P b0) + b2u8 (P b1) + b2u8 (P b2) + b2u8 (P b3).
Proof.
  unfold count_where. cbn [List.filter].
  destruct (P b0), (P b1), (P b2), (P b3); reflexivity.
Qed.

(** The four byte lanes of a 32-bit word read from memory. *)
Lemma word_lanes (b0 b1 b2 b3 : byte) :
  let v := le_combine [b0; b1; b2; b3] in
  v = byte.unsigned b0 + 256 * byte.unsigned b1 + 65536 * byte.unsigned b2
      + 16777216 * byte.unsigned b3
  /\ Z.land v 0x000000ff = byte.unsigned b0
  /\ Z.land v 0x0000ff00 = 256 * byte.unsigned b1
  /\ Z.land v 0x00ff0000 = 65536 * byte.unsigned b2
  /\ Z.land v 0xff000000 = 16777216 * byte.unsigned b3.
Proof.
  intros v. subst v.
  pose proof (byte.unsigned_range b0) as H0. pose proof (byte.unsigned_range b1) as H1.
  pose proof (byte.unsigned_range b2) as H2. pose proof (byte.unsigned_range b3) as H3.
  rewrite !le_combine_cons, le_combine_nil'.
  set (u0 := byte.unsigned b0) in *. set (u1 := byte.unsigned b1) in *.
  set (u2 := byte.unsigned b2) in *. set (u3 := byte.unsigned b3) in *.
  change (2 ^ 8) with 256 in *.
  assert (L255 : forall u, 0 <= u < 256 -> Z.land u 255 = u).
  { intros u Hu. change 255 with (Z.ones 8). rewrite Z.land_ones by lia.
    apply Z.mod_small. change (2 ^ 8) with 256. lia. }
  assert (P8 : forall a r m n, 0 <= a < 256 -> 0 <= m < 256 ->
             Z.land (a + 256 * r) (m + 256 * n) = Z.land a m + 256 * Z.land r n).
  { intros. apply (land_peel 8); change (2 ^ 8) with 256; lia. }
  split; [lia|].
  split.
  { change 255 with (255 + 256 * 0). rewrite P8 by lia.
    rewrite L255, Z.land_0_r by lia. lia. }
  split.
  { change 65280 with (0 + 256 * (255 + 256 * 0)). rewrite !P8 by lia.
    rewrite L255, !Z.land_0_r by lia. lia. }
  split.
  { change 16711680 with (0 + 256 * (0 + 256 * (255 + 256 * 0))). rewrite !P8 by lia.
    rewrite L255, !Z.land_0_r by lia. lia. }
  { change 4278190080 with (0 + 256 * (0 + 256 * (0 + 256 * (255 + 256 * 0)))).
    rewrite !P8 by lia.
    rewrite L255, !Z.land_0_r by lia. lia. }
Qed.

Lemma chunk32_in_range mem k :
  (4 * (k + 1) <= length mem)%nat ->
  exists b0 b1 b2 b3, chunk32 mem k = [b0; b1; b2; b3].
Proof.
  intros Hlen.
  assert (L : length (chunk32 mem k) = 4%nat).
  { unfold chunk32. rewrite length_take, length_drop. lia. }
  destruct (chunk32 mem k) as [|b0 [|b1 [|b2 [|b3 [|]]]]]; cbn in L; try lia.
  eauto.
Qed.

Lemma take_next_word mem k i :
  take (4 * S i) (drop (4 * k) mem) =
  chunk32 mem k ++ take (4 * i) (drop (4 * S k) mem).
Proof.
  unfold chunk32.
  replace (4 * S i)%nat with (4 + 4 * i)%nat by lia.
  replace (4 * S k)%nat with (4 * k + 4)%nat by lia.
  rewrite <- drop_drop. rewrite <- take_take_drop. reflexivity.
Qed.

Lemma count_bytes_loop_spec i : forall k mem ret,
  (4 * (k + i) <= length mem)%nat ->
  0 <= ret -> ret + 4 * Z.of_nat i < 2 ^ 32 ->
  count_bytes_loop i k mem ret =
  ret + count_where is_set (take (4 * i) (drop (4 * k) mem)).
Proof.
  induction i as [|i IH]; intros k mem ret Hlen Hret Hmax.
  - cbn [count_bytes_loop]. rewrite Nat.mul_0_r, take_0. unfold count_where. cbn. lia.
  - cbn [count_bytes_loop].
    destruct (chunk32_in_range mem k) as (b0 & b1 & b2 & b3 & Hc); [lia|].
    rewrite take_next_word, Hc, count_where_app, count_where_word.
    unfold load32. rewrite Hc.
    destruct (word_lanes b0 b1 b2 b3) as (Hv & L0 & L1 & L2 & L3).
    cbv zeta in Hv, L0, L1, L2, L3.
    pose proof (byte.unsigned_range b0) as H0. pose proof (byte.unsigned_range b1) as H1.
    pose proof (byte.unsigned_range b2) as H2. pose proof (byte.unsigned_range b3) as H3.
    change (2 ^ 8) with 256 in *.
    rewrite L0, L1, L2, L3.
    unfold is_set, truthy.
    change (2 ^ 32) with 4294967296 in *.
    destruct (Z.eqb_spec (le_combine [b0; b1; b2; b3]) 0) as [Hz|Hz].
    + rewrite IH by lia. unfold is_set.
      assert (byte.unsigned b0 = 0 /\ byte.unsigned b1 = 0 /\
              byte.unsigned b2 = 0 /\ byte.unsigned b3 = 0) as (E0 & E1 & E2 & E3) by lia.
      rewrite E0, E1, E2, E3. change (negb (0 =? 0)) with false. cbn [b2u8]. lia.
    + assert (U : forall x, 0 <= x -> x + 1 < 4294967296 -> u32 (x + 1) = x + 1).
      { intros x ? ?. unfold u32. apply Z.mod_small.
        change (2 ^ 32) with 4294967296. lia. }
      destruct (Z.eqb_spec (byte.unsigned b0) 0) as [E0|E0];
      destruct (Z.eqb_spec (256 * byte.unsigned b1) 0) as [E1|E1];
      destruct (Z.eqb_spec (65536 * byte.unsigned b2) 0) as [E2|E2];
      destruct (Z.eqb_spec (16777216 * byte.unsigned b3) 0) as [E3|E3];
      destruct (Z.eqb_spec (byte.unsigned b1) 0) as [F1|F1]; try lia;
      destruct (Z.eqb_spec (byte.unsigned b2) 0) as [F2|F2]; try lia;
      destruct (Z.eqb_spec (byte.unsigned b3) 0) as [F3|F3]; try lia;
      cbn [negb b2u8]; rewrite ?(U ret) by lia; rewrite ?(U (ret + 1)) by lia;
      rewrite ?(U (ret + 1 + 1)) by lia; rewrite ?(U (ret + 1 + 1 + 1)) by lia;
      rewrite IH by lia; unfold is_set; lia.
Qed.

Lemma count_words_bound afl : Z.of_nat (count_bits_words afl) < 2 ^ 30.
Proof.
  unfold count_bits_words.
  assert (0 <= u32 (real_map_size (fsrv afl) + 3) < 2 ^ 32)
    by (apply Z.mod_pos_bound; reflexivity).
  rewrite Z.shiftr_div_pow2 by lia.
  rewrite Z2Nat.id by (apply Z.div_pos; lia).
  apply Z.div_lt_upper_bound; [lia|].
  change (2 ^ 2 * 2 ^ 30) with (2 ^ 32). lia.
Qed.

Lemma count_bytes_spec afl mem :
  (4 * count_bits_words afl <= length mem)%nat ->
  count_bytes afl mem = count_where is_set (take (4 * count_bits_words afl) mem).
Proof.
  intros H. unfold count_bytes. fold (count_bits_words afl).
  pose proof (count_words_bound afl).
  change (2 ^ 30) with 1073741824 in *.
  rewrite count_bytes_loop_spec;
    [rewrite drop_0; lia | cbn; lia | lia | change (2 ^ 32) with 4294967296; lia].
Qed.

Lemma count_non_255_bytes_loop_spec i : forall k mem ret,
  (4 * (k + i) <= length mem)%nat ->
  0 <= ret -> ret + 4 * Z.of_nat i < 2 ^ 32 ->
  count_non_255_bytes_loop i k mem ret =
  ret + count_where is_touched (take (4 * i) (drop (4 * k) mem)).
Proof.
  induction i as [|i IH]; intros k mem ret Hlen Hret Hmax.
  - cbn [count_non_255_bytes_loop]. rewrite Nat.mul_0_r, take_0. unfold count_where. cbn. lia.
  - cbn [count_non_255_bytes_loop].
    destruct (chunk32_in_range mem k) as (b0 & b1 & b2 & b3 & Hc); [lia|].
    rewrite take_next_word, Hc, count_where_app, count_where_word.
    unfold load32. rewrite Hc.
    destruct (word_lanes b0 b1 b2 b3) as (Hv & L0 & L1 & L2 & L3).
    cbv zeta in Hv, L0, L1, L2, L3.
    pose proof (byte.unsigned_range b0) as H0. pose proof (byte.unsigned_range b1) as H1.
    pose proof (byte.unsigned_range b2) as H2. pose proof (byte.unsigned_range b3) as H3.
    change (2 ^ 8) with 256 in *.
    rewrite L0, L1, L2, L3.
    unfold is_touched.
    change (2 ^ 32) with 4294967296 in *.
    destruct (Z.eqb_spec (le_combine [b0; b1; b2; b3]) 4294967295) as [Hz|Hz].
    + rewrite IH by lia. unfold is_touched.
      assert (byte.unsigned b0 = 255 /\ byte.unsigned b1 = 255 /\
              byte.unsigned b2 = 255 /\ byte.unsigned b3 = 255) as (E0 & E1 & E2 & E3) by lia.
      rewrite E0, E1, E2, E3. change (negb (255 =? 255)) with false. cbn [b2u8]. lia.
    + assert (U : forall x, 0 <= x -> x + 1 < 4294967296 -> u32 (x + 1) = x + 1).
      { intros x ? ?. unfold u32. apply Z.mod_small.
        change (2 ^ 32) with 4294967296. lia. }
      destruct (Z.eqb_spec (byte.unsigned b0) 255) as [E0|E0];
      destruct (Z.eqb_spec (256 * byte.unsigned b1) 65280) as [E1|E1];
      destruct (Z.eqb_spec (65536 * byte.unsigned b2) 16711680) as [E2|E2];
      destruct (Z.eqb_spec (16777216 * byte.unsigned b3) 4278190080) as [E3|E3];
      destruct (Z.eqb_spec (byte.unsigned b1) 255) as [F1|F1]; try lia;
      destruct (Z.eqb_spec (byte.unsigned b2) 255) as [F2|F2]; try lia;
      destruct (Z.eqb_spec (byte.unsigned b3) 255) as [F3|F3]; try lia;
      cbn [negb b2u8]; rewrite ?(U ret) by lia; rewrite ?(U (ret + 1)) by lia;
      rewrite ?(U (ret + 1 + 1)) by lia; rewrite ?(U (ret + 1 + 1 + 1)) by lia;
      rewrite IH by lia; unfold is_touched; lia.
Qed.

Lemma count_non_255_bytes_spec afl mem :
  (4 * count_bits_words afl <= length mem)%nat ->
  count_non_255_bytes afl mem =
  count_where is_touched (take (4 * count_bits_words afl) mem).
Proof.
  intros H. unfold count_non_255_bytes. fold (count_bits_words afl).
  pose proof (count_words_bound afl).
  change (2 ^ 30) with 1073741824 in *.
  rewrite count_non_255_bytes_loop_spec;
    [rewrite drop_0; lia | cbn; lia | lia | change (2 ^ 32) with 4294967296; lia].
Qed.

(* ================================================================== *)
(** * Trace compaction *)

Lemma minimize_bits_body_length src dst i :
  length (minimize_bits_body src dst i) = length dst.
Proof.
  unfold minimize_bits_body. destruct (truthy _); [apply length_insert|reflexivity].
Qed.

Lemma byte_index_split (i n : nat) :
  ((i / 8 = n / 8 /\ i mod 8 = n mod 8) <-> i = n)%nat.
Proof.
  split; [|intros ->; auto].
  intros [Hq Hr].
  rewrite (Nat.div_mod_eq i 8), (Nat.div_mod_eq n 8). lia.
Qed.

Lemma testbit_one_shift s t :
  0 <= s -> 0 <= t -> Z.testbit (Z.shiftl 1 s) t = (t =? s).
Proof.
  intros Hs Ht. rewrite Z.shiftl_1_l, Z.pow2_bits_eqb by lia. apply Z.eqb_sym.
Qed.

Lemma minimize_bits_body_bit src dst n i :
  (n < 8 * length dst)%nat ->
  bit_of (minimize_bits_body src dst n) i =
  bit_of dst i || (Nat.eqb i n && hit src n).
Proof.
  intros Hn. unfold minimize_bits_body, hit, truthy.
  destruct (negb (byte.unsigned (default Byte.x00 (src !! n)) =? 0)).
  2:{ rewrite andb_false_r, orb_false_r. reflexivity. }
  rewrite andb_true_r.
  assert (Hj : Z.to_nat (Z.shiftr (Z.of_nat n) 3) = (n / 8)%nat).
  { rewrite Z.shiftr_div_pow2 by lia. change (2 ^ 3) with (Z.of_nat 8).
    rewrite <- Nat2Z.inj_div. apply Nat2Z.id. }
  assert (Hs : Z.land (Z.of_nat n) 7 = Z.of_nat (n mod 8)).
  { change 7 with (Z.ones 3). rewrite Z.land_ones by lia.
    change (2 ^ 3) with (Z.of_nat 8). rewrite <- Nat2Z.inj_mod. reflexivity. }
  cbv zeta. rewrite Hj, Hs. unfold bit_of.
  assert (Hlt : (n / 8 < length dst)%nat) by (apply Nat.Div0.div_lt_upper_bound; lia).
  assert (Hi8 : (i mod 8 < 8)%nat) by (apply Nat.mod_upper_bound; lia).
  destruct (Nat.eq_dec (i / 8)%nat (n / 8)%nat) as [Hq|Hq].
  - rewrite Hq, list_lookup_insert_eq by lia.
    cbn [default from_option]. unfold id.
    rewrite byte.unsigned_of_Z. unfold byte.wrap.
    rewrite Z.mod_pow2_bits_low by lia.
    rewrite Z.lor_spec, testbit_one_shift by lia.
    f_equal.
    destruct (Nat.eqb_spec i n) as [->|Hne].
    + apply Z.eqb_refl.
    + apply Z.eqb_neq. intros Hr. apply Hne, byte_index_split. split; lia.
  - rewrite list_lookup_insert_ne by lia.
    destruct (Nat.eqb_spec i n) as [->|Hne]; [congruence|].
    rewrite orb_false_r. reflexivity.
Qed.

Lemma minimize_bits_prefix src dst n :
  (n <= 8 * length dst)%nat ->
  let out := fold_left (minimize_bits_body src) (seq 0 n) dst in
  length out = length dst /\
  forall i, bit_of out i = bit_of dst i || (Nat.ltb i n && hit src i).
Proof.
  induction n as [|n IH]; intros Hn; cbv zeta.
  - cbn. split; [reflexivity|]. intros i. rewrite orb_false_r. reflexivity.
  - rewrite seq_S, fold_left_app. cbn [fold_left Nat.add].
    destruct IH as [IHl IHb]; [lia|].
    split.
    + rewrite minimize_bits_body_length. exact IHl.
    + intros i. rewrite minimize_bits_body_bit by lia.
      rewrite IHb, <- orb_assoc. f_equal.
      destruct (Nat.eqb_spec i n) as [->|Hne].
      * rewrite Nat.ltb_irrefl. cbn [andb orb].
        replace (n <? S n)%nat with true by (symmetry; apply Nat.ltb_lt; lia).
        reflexivity.
      * cbn [andb]. rewrite orb_false_r. f_equal.
        destruct (Nat.ltb_spec i n), (Nat.ltb_spec i (S n)); try reflexivity; lia.
Qed.

(** Two buffers with the same length and the same bits are equal. *)
Lemma bit_of_ext (a b : list byte) :
  length a = length b ->
  (forall i, bit_of a i = bit_of b i) ->
  a = b.
Proof.
  intros Hl Hb. apply list_eq. intros j.
  destruct (a !! j) as [x|] eqn:Ea, (b !! j) as [y|] eqn:Eb.
  - f_equal. apply byte.unsigned_inj. apply Z.bits_inj'. intros t Ht.
    pose proof (byte.unsigned_range x) as Hx. pose proof (byte.unsigned_range y) as Hy.
    destruct (Z.ltb_spec t 8).
    + specialize (Hb (8 * j + Z.to_nat t)%nat). unfold bit_of in Hb.
      replace ((8 * j + Z.to_nat t) / 8)%nat with j in Hb
        by (apply (Nat.div_unique _ 8 j (Z.to_nat t)); lia).
      replace ((8 * j + Z.to_nat t) mod 8)%nat with (Z.to_nat t) in Hb
        by (apply (Nat.mod_unique _ 8 j (Z.to_nat t)); lia).
      rewrite Ea, Eb, Z2Nat.id in Hb by lia. exact Hb.
    + rewrite !(testbit_above (p:=8)) by lia. reflexivity.
  - apply lookup_lt_Some in Ea. apply lookup_ge_None in Eb. lia.
  - apply lookup_lt_Some in Eb. apply lookup_ge_None in Ea. lia.
  - reflexivity.
Qed.

Lemma minimize_bits_body_hit src src' dst i :
  hit src i = hit src' i ->
  minimize_bits_body src dst i = minimize_bits_body src' dst i.
Proof.
  unfold minimize_bits_body, hit, truthy. intros ->. reflexivity.
Qed.

Lemma minimize_bits_same_hits src src' n : forall dst,
  (forall i, (i < n)%nat -> hit src i = hit src' i) ->
  fold_left (minimize_bits_body src) (seq 0 n) dst =
  fold_left (minimize_bits_body src') (seq 0 n) dst.
Proof.
  induction n as [|n IH]; intros dst H; [reflexivity|].
  rewrite seq_S, !fold_left_app. cbn [fold_left Nat.add].
  rewrite IH by (intros; apply H; lia).
  apply minimize_bits_body_hit, H. lia.
Qed.

(* ================================================================== *)
(** * The single-map pass *)

Lemma load64_range mem i : 0 <= load64 mem i < 2 ^ 64.
Proof.
  unfold load64, chunk64.
  pose proof (le_combine_bound (take 8 (drop (8 * i) mem))) as B.
  assert (L : (length (take 8 (drop (8 * i) mem)) <= 8)%nat)
    by (rewrite length_take; lia).
  split; [lia|].
  eapply Z.lt_le_trans; [apply B|].
  apply Z.pow_le_mono_r; lia.
Qed.

Lemma clear_seen_range v c : 0 <= v < 2 ^ 64 -> 0 <= clear_seen v c < 2 ^ 64.
Proof. intros H. unfold clear_seen. apply land_bound; lia. Qed.

Lemma clear_seen_disjoint v c : Z.land c (clear_seen v c) = 0.
Proof.
  unfold clear_seen. apply Z.bits_inj'. intros i Hi.
  rewrite !Z.land_spec, Z.lnot_spec, Z.bits_0 by lia.
  destruct (Z.testbit c i), (Z.testbit v i); reflexivity.
Qed.

Lemma clear_seen_none v c : Z.land c v = 0 -> clear_seen v c = v.
Proof.
  intros H. unfold clear_seen. apply Z.bits_inj'. intros i Hi.
  rewrite Z.land_spec, Z.lnot_spec by lia.
  assert (B : Z.testbit (Z.land c v) i = false) by (rewrite H; apply Z.bits_0).
  rewrite Z.land_spec in B.
  destruct (Z.testbit c i), (Z.testbit v i); cbn in *; congruence.
Qed.

Lemma clear_seen_twice v c : clear_seen (clear_seen v c) c = clear_seen v c.
Proof. apply clear_seen_none, clear_seen_disjoint. Qed.

Lemma store64_length vm i w :
  (8 * i + 8 <= length vm)%nat -> length (store64 vm i w) = length vm.
Proof.
  intros H. unfold store64.
  rewrite !length_app, length_take, length_le_split, length_drop. lia.
Qed.

Lemma chunk64_store64_same vm i w :
  (8 * i <= length vm)%nat -> chunk64 (store64 vm i w) i = le_split 8 w.
Proof.
  intros H. unfold chunk64, store64.
  rewrite drop_app_length' by (rewrite length_take; lia).
  rewrite take_app_length' by (rewrite length_le_split; reflexivity).
  reflexivity.
Qed.

Lemma chunk64_store64_earlier vm i w j :
  (j < i)%nat -> (8 * i <= length vm)%nat ->
  chunk64 (store64 vm i w) j = chunk64 vm j.
Proof.
  intros Hj H. unfold chunk64, store64.
  rewrite <- (take_drop (8 * i) vm) at 3.
  rewrite !drop_app_le by (rewrite length_take; lia).
  rewrite !take_app_le by (rewrite length_drop, length_take; lia).
  reflexivity.
Qed.

Lemma chunk64_store64_other vm i w j :
  j <> i -> (8 * i <= length vm)%nat ->
  chunk64 (store64 vm i w) j = chunk64 vm j.
Proof.
  intros Hne H. destruct (Nat.lt_gt_cases j i) as [Hc _]. destruct (Hc Hne).
  - now apply chunk64_store64_earlier.
  - now apply chunk64_store64_later.
Qed.

(** What one committing step leaves in the map. *)
Lemma has_new_bits_body_map trace ret vm k :
  (8 * k + 8 <= length vm)%nat ->
  let res := has_new_bits_body trace (ret, vm) k in
  length (snd res) = length vm
  /\ load64 (snd res) k = clear_seen (load64 vm k) (load64 trace k)
  /\ forall j, j <> k -> chunk64 (snd res) j = chunk64 vm j.
Proof.
  intros Hk. cbv zeta. unfold has_new_bits_body, discover_word.
  fold (load64 trace k). fold (load64 vm k).
  destruct (Z.eqb_spec (load64 trace k) 0) as [Hz|Hz].
  - cbn [snd]. split; [reflexivity|]. split; [|reflexivity].
    symmetry. apply clear_seen_none. rewrite Hz. apply Z.land_0_l.
  - destruct (Z.eqb_spec (Z.land (load64 trace k) (load64 vm k)) 0) as [Hl|Hl].
    + cbn [snd]. split; [reflexivity|]. split; [|reflexivity].
      symmetry. now apply clear_seen_none.
    + cbn [snd]. split; [apply store64_length; lia|]. split.
      * unfold load64 at 1. rewrite chunk64_store64_same by lia.
        rewrite le_combine_split. fold (clear_seen (load64 vm k) (load64 trace k)).
        apply Z.mod_small. change (Z.of_nat 8 * 8) with 64.
        apply clear_seen_range, load64_range.
      * intros j Hj. apply chunk64_store64_other; [exact Hj|lia].
Qed.

Lemma has_new_bits_body_level trace ret vm k :
  0 <= ret ->
  fst (has_new_bits_body trace (ret, vm) k) =
  Z.max ret (word_level (chunk64 trace k) (chunk64 vm k)).
Proof.
  intros Hr. unfold has_new_bits_body.
  destruct (Z.eqb_spec (le_combine (chunk64 trace k)) 0) as [Hz|Hz].
  - cbn [fst]. unfold word_level. rewrite Hz, Z.land_0_l. cbn. lia.
  - apply discover_word_fst. exact Hr.
Qed.

Lemma load64_chunk mem mem' j : chunk64 mem' j = chunk64 mem j -> load64 mem' j = load64 mem j.
Proof. unfold load64. now intros ->. Qed.

(** The pass over the words [a .. a + n): the level it returns and the
    map it leaves. *)
Lemma single_pass_spec trace n : forall a ret vm,
  0 <= ret ->
  (8 * (a + n) <= length vm)%nat ->
  let res := single_pass trace a n (ret, vm) in
  fst res = level_from trace a n vm ret
  /\ length (snd res) = length vm
  /\ (forall j, (a <= j < a + n)%nat ->
        load64 (snd res) j = clear_seen (load64 vm j) (load64 trace j))
  /\ (forall j, ~ (a <= j < a + n)%nat -> chunk64 (snd res) j = chunk64 vm j).
Proof.
  unfold single_pass.
  induction n as [|n IH]; intros a ret vm Hr Hlen; cbv zeta.
  - cbn. split; [reflexivity|]. split; [reflexivity|]. split; [intros; lia|reflexivity].
  - cbn [seq fold_left].
    pose proof (has_new_bits_body_level trace ret vm a Hr) as L1.
    destruct (has_new_bits_body_map trace ret vm a) as (M1 & M2 & M3); [lia|].
    destruct (has_new_bits_body trace (ret, vm) a) as [r1 vm1]. cbn [fst snd] in *.
    destruct (IH (S a) r1 vm1) as (I1 & I2 & I3 & I4); [lia|lia|].
    split; [|split; [|split]].
    + rewrite I1. unfold level_from. cbn [seq fold_left]. fold (level_from trace (S a) n vm1 r1).
      rewrite L1. apply level_from_ext. intros j Hj. apply M3. lia.
    + lia.
    + intros j Hj. destruct (Nat.eq_dec j a) as [->|Hne].
      * rewrite (load64_chunk vm1) by (apply I4; lia). exact M2.
      * rewrite I3 by lia. rewrite (load64_chunk vm vm1) by (apply M3; lia). reflexivity.
    + intros j Hj. rewrite I4 by lia. apply M3. lia.
Qed.

(** A pass over a map whose words share no bit with the trace changes
    nothing. *)
Lemma single_pass_noop trace n : forall a ret vm,
  (forall j, (a <= j < a + n)%nat -> Z.land (load64 trace j) (load64 vm j) = 0) ->
  single_pass trace a n (ret, vm) = (ret, vm).
Proof.
  unfold single_pass.
  induction n as [|n IH]; intros a ret vm H; [reflexivity|].
  cbn [seq fold_left].
  assert (E : has_new_bits_body trace (ret, vm) a = (ret, vm)).
  { unfold has_new_bits_body, discover_word.
    fold (load64 trace a). fold (load64 vm a).
    destruct (load64 trace a =? 0); [reflexivity|].
    rewrite (H a) by lia. reflexivity. }
  rewrite E. apply IH. intros j Hj. apply H. lia.
Qed.

Lemma has_new_bits_unfold afl p :
  has_new_bits afl p =
  let res := single_pass (afl_trace afl) 0 (mul_words afl) (0, deref (mem_heap afl) p) in
  (fst res,
   let afl1 := set_mem_heap (<[p := snd res]> (mem_heap afl)) afl in
   if truthy (fst res) && bool_decide (p = virgin_bits afl)
   then set_bitmap_changed true afl1 else afl1).
Proof. reflexivity. Qed.

Lemma discover_word_snd_indep r r' cur vm idx modify :
  snd (discover_word r cur vm idx modify) = snd (discover_word r' cur vm idx modify).
Proof. unfold discover_word. destruct (_ =? 0); reflexivity. Qed.

Lemma has_new_bits_body_snd_indep trace r r' vm k :
  snd (has_new_bits_body trace (r, vm) k) = snd (has_new_bits_body trace (r', vm) k).
Proof.
  unfold has_new_bits_body. destruct (_ =? 0); [reflexivity|].
  apply discover_word_snd_indep.
Qed.

Lemma single_pass_snd_indep trace n : forall a r r' vm,
  snd (single_pass trace a n (r, vm)) = snd (single_pass trace a n (r', vm)).
Proof.
  unfold single_pass.
  induction n as [|n IH]; intros a r r' vm; [reflexivity|].
  cbn [seq fold_left].
  pose proof (has_new_bits_body_snd_indep trace r r' vm a) as E.
  destruct (has_new_bits_body trace (r, vm) a) as [r1 vm1].
  destruct (has_new_bits_body trace (r', vm) a) as [r2 vm2].
  cbn [snd] in E. subst vm2. apply IH.
Qed.

Lemma has_new_bits_body_later trace r vm k j :
  (k < j)%nat -> chunk64 (snd (has_new_bits_body trace (r, vm) k)) j = chunk64 vm j.
Proof.
  intros H. unfold has_new_bits_body. destruct (_ =? 0); [reflexivity|].
  now apply discover_word_later.
Qed.

(** The level a pass returns, whatever the size of the map. *)
Lemma single_pass_level trace n : forall a ret vm,
  0 <= ret ->
  fst (single_pass trace a n (ret, vm)) = level_from trace a n vm ret.
Proof.
  unfold single_pass.
  induction n as [|n IH]; intros a ret vm Hr; [reflexivity|].
  cbn [seq fold_left].
  pose proof (has_new_bits_body_level trace ret vm a Hr) as L1.
  pose proof (has_new_bits_body_later trace ret vm a) as L2.
  destruct (has_new_bits_body trace (ret, vm) a) as [r1 vm1]. cbn [fst snd] in *.
  rewrite IH by lia.
  unfold level_from at 2. cbn [seq fold_left]. fold (level_from trace (S a) n vm r1).
  rewrite <- L1. apply level_from_ext. intros j Hj. apply L2. lia.
Qed.

(** The inner loop over pairwise distinct maps does to each map what
    [discover_word] does to it alone. *)
Lemma discover_word_mul_from_maps cur idx : forall vms k nb (h : list (list byte)),
  NoDup vms ->
  (forall p, In p vms -> (p < length h)%nat) ->
  let res := discover_word_mul_from k nb cur vms idx true h in
  length (snd res) = length h
  /\ (forall p, In p vms ->
        deref (snd res) p = snd (discover_word 0 cur (deref h p) idx true))
  /\ (forall q, ~ In q vms -> deref (snd res) q = deref h q).
Proof.
  induction vms as [|p vms IH]; intros k nb h Hnd Hlt; cbv zeta.
  - cbn. split; [reflexivity|]. split; [intros p []|reflexivity].
  - cbn [discover_word_mul_from].
    pose proof (discover_word_snd_indep (default 0 (nb !! k)) 0 cur (deref h p) idx true) as Hs.
    destruct (discover_word (default 0 (nb !! k)) cur (deref h p) idx true) as [r vm].
    cbn [snd] in Hs.
    inversion Hnd as [|? ? Hni Hnd']; subst.
    destruct (IH (S k) (<[k := r]> nb) (<[p := snd (discover_word 0 cur (deref h p) idx true)]> h))
      as (I1 & I2 & I3).
    + exact Hnd'.
    + intros q Hq. rewrite length_insert. apply Hlt. now right.
    + rewrite length_insert in I1.
      split; [exact I1|]. split.
      * intros q [<-|Hq].
        -- rewrite I3 by (intros Hin; apply Hni; now apply list_elem_of_In).
           apply deref_insert_eq. apply Hlt. now left.
        -- rewrite I2 by exact Hq.
           rewrite deref_insert_ne; [reflexivity|].
           intros ->. apply Hni. now apply list_elem_of_In.
      * intros q Hq. rewrite I3 by (intros Hin; apply Hq; now right).
        apply deref_insert_ne. intros ->. apply Hq. now left.
Qed.

Lemma mul_body_maps trace vms nb (h : list (list byte)) i :
  NoDup vms ->
  (forall p, In p vms -> (p < length h)%nat) ->
  let res := has_new_bits_mul_body trace vms true (nb, h) i in
  length (snd res) = length h
  /\ (forall p, In p vms ->
        deref (snd res) p = snd (has_new_bits_body trace (0, deref h p) i))
  /\ (forall q, ~ In q vms -> deref (snd res) q = deref h q).
Proof.
  intros Hnd Hlt. cbv zeta. unfold has_new_bits_mul_body, has_new_bits_body.
  destruct (le_combine (chunk64 trace i) =? 0).
  - cbn [snd]. auto.
  - apply discover_word_mul_from_maps; assumption.
Qed.

Lemma mul_pass_maps trace vms n : forall a nb (h : list (list byte)),
  NoDup vms ->
  (forall p, In p vms -> (p < length h)%nat) ->
  let res := fold_left (has_new_bits_mul_body trace vms true) (seq a n) (nb, h) in
  length (snd res) = length h
  /\ (forall p, In p vms ->
        deref (snd res) p = snd (single_pass trace a n (0, deref h p)))
  /\ (forall q, ~ In q vms -> deref (snd res) q = deref h q).
Proof.
  induction n as [|n IH]; intros a nb h Hnd Hlt; cbv zeta.
  - cbn. auto.
  - cbn [seq fold_left].
    destruct (mul_body_maps trace vms nb h a Hnd Hlt) as (B1 & B2 & B3).
    destruct (has_new_bits_mul_body trace vms true (nb, h) a) as [nb1 h1].
    cbn [snd] in *.
    destruct (IH (S a) nb1 h1 Hnd) as (I1 & I2 & I3).
    { intros p Hp. rewrite B1. now apply Hlt. }
    split; [lia|]. split.
    + intros p Hp. rewrite I2, B2 by exact Hp.
      unfold single_pass at 2. cbn [seq fold_left].
      fold (single_pass trace (S a) n (has_new_bits_body trace (0, deref h p) a)).
      destruct (has_new_bits_body trace (0, deref h p) a) as [r1 vm1]. cbn [snd].
      apply single_pass_snd_indep.
    + intros q Hq. rewrite I3, B3 by exact Hq. reflexivity.
Qed.

(* ================================================================== *)
(** * The classification tables *)

Lemma byte_values_in b : 0 <= b < 256 -> In b byte_values.
Proof.
  intros H. unfold byte_values. apply in_map_iff. exists (Z.to_nat b).
  split; [lia|]. apply in_seq. lia.
Qed.

Lemma lookup8_step b :
  0 <= b < 255 ->
  tbl_get count_class_lookup8 b <= tbl_get count_class_lookup8 (b + 1).
Proof.
  intros H.
  assert (C : lookup8_monotone_ok = true) by (vm_compute; reflexivity).
  unfold lookup8_monotone_ok in C. rewrite forallb_forall in C.
  apply Z.leb_le. apply C. apply in_map_iff. exists (Z.to_nat b).
  split; [lia|]. apply in_seq. lia.
Qed.

Lemma lookup8_monotone a b :
  0 <= a -> a <= b -> b < 256 ->
  tbl_get count_class_lookup8 a <= tbl_get count_class_lookup8 b.
Proof.
  intros Ha Hab Hb.
  replace b with (a + Z.of_nat (Z.to_nat (b - a))) in * by lia.
  induction (Z.to_nat (b - a)) as [|n IH]; [rewrite Z.add_0_r; lia|].
  rewrite Nat2Z.inj_succ in *.
  etransitivity; [apply IH; lia|].
  replace (a + Z.succ (Z.of_nat n)) with (a + Z.of_nat n + 1) by lia.
  apply lookup8_step. lia.
Qed.

Lemma fold_left_keeps_length {A} (f : list Z -> A -> list Z) (l : list A) (t : list Z) :
  (forall t a, length (f t a) = length t) ->
  length (fold_left f l t) = length t.
Proof.
  intros Hf. revert t. induction l as [|a l IH]; intros t; cbn [fold_left]; [reflexivity|].
  rewrite IH. apply Hf.
Qed.

Lemma init_count_class16_length tbl : length (init_count_class16 tbl) = length tbl.
Proof.
  unfold init_count_class16. apply fold_left_keeps_length. intros t b1.
  apply fold_left_keeps_length. intros t' b2.
  unfold init_count_class16_store. apply length_insert.
Qed.

Lemma lookup8_range b : 0 <= b < 256 -> 0 <= tbl_get count_class_lookup8 b <= 128.
Proof.
  intros Hb. replace b with (byte.unsigned (byte.of_Z b)).
  - destruct (byte.of_Z b); vm_compute; split; congruence.
  - rewrite byte.unsigned_of_Z. apply Z.mod_small. exact Hb.
Qed.

(** Every entry is written, whatever the table held before. *)
Lemma init_count_class16_entry tbl b1 b2 :
  length tbl = Z.to_nat 65536 ->
  0 <= b1 < 256 -> 0 <= b2 < 256 ->
  tbl_get (init_count_class16 tbl) (Z.shiftl b1 8 + b2) =
  Z.lor (Z.shiftl (tbl_get count_class_lookup8 b1) 8) (tbl_get count_class_lookup8 b2).
Proof.
  intros Hlen H1 H2.
  set (bs := List.map Z.of_nat (seq 0 256)).
  assert (Hin : forall b, In b bs <-> 0 <= b < 256).
  { intros b. unfold bs. rewrite in_map_iff. split.
    - intros (n & <- & Hn). apply in_seq in Hn. lia.
    - intros Hb. exists (Z.to_nat b). split; [lia|]. apply in_seq. lia. }
  unfold tbl_get at 1. unfold init_count_class16. fold bs.
  rewrite <- (fold_left_flat_map
    (fun tbl (p : Z * Z) => init_count_class16_store (fst p) (snd p) tbl)
    (fun b1 => List.map (fun b2 => (b1, b2)) bs)).
  unfold init_count_class16_store.
  rewrite (fold_insert_lookup (fun p : Z * Z => Z.to_nat (Z.shiftl (fst p) 8 + snd p)) _ entry16).
  - replace (existsb _ _) with true.
    + cbn [default from_option]. unfold id, entry16. rewrite Z2Nat.id.
      * destruct (split_index b1 b2 H1 H2) as [-> ->].
        unfold u16. apply Z.mod_small.
        pose proof (lookup8_range b1 H1). pose proof (lookup8_range b2 H2).
        rewrite <- Z.add_nocarry_lor.
        -- rewrite Z.shiftl_mul_pow2 by lia. change (2 ^ 8) with 256.
           change (2 ^ 16) with 65536. lia.
        -- apply Z.bits_inj'. intros i Hi. rewrite Z.land_spec, Z.bits_0.
           destruct (Z.ltb_spec i 8).
           ++ rewrite Z.shiftl_spec_low by lia. reflexivity.
           ++ rewrite (testbit_above (p:=8) (n:=tbl_get count_class_lookup8 b2))
                by (change (2 ^ 8) with 256; lia).
              apply andb_false_r.
      * rewrite Z.shiftl_mul_pow2 by lia. lia.
    + symmetry. apply existsb_exists. exists (b1, b2). split.
      * apply in_flat_map. exists b1. split; [now apply Hin|]. apply in_map. now apply Hin.
      * apply Nat.eqb_eq. reflexivity.
  - intros [c1 c2] Hp. apply in_flat_map in Hp. destruct Hp as (c & Hc & Hp).
    apply in_map_iff in Hp. destruct Hp as (d & [= <- <-] & Hd).
    apply Hin in Hc, Hd. cbn [fst snd]. unfold entry16.
    rewrite Z2Nat.id by (rewrite Z.shiftl_mul_pow2 by lia; lia).
    destruct (split_index c d Hc Hd) as [-> ->]. reflexivity.
  - rewrite Hlen. rewrite Z.shiftl_mul_pow2 by lia. change (2 ^ 8) with 256. lia.
Qed.

Lemma tbl_get_ext (t t' : list Z) :
  length t = length t' ->
  (forall j, 0 <= j < Z.of_nat (length t) -> tbl_get t j = tbl_get t' j) ->
  t = t'.
Proof.
  intros Hl H. apply list_eq. intros j.
  destruct (Nat.lt_ge_cases j (length t)) as [Hj|Hj].
  - specialize (H (Z.of_nat j) ltac:(lia)). unfold tbl_get in H. rewrite Nat2Z.id in H.
    destruct (lookup_lt_is_Some_2 t j Hj) as [x Hx].
    destruct (lookup_lt_is_Some_2 t' j ltac:(lia)) as [y Hy].
    rewrite Hx, Hy in *. cbn in H. now subst.
  - rewrite !lookup_ge_None_2 by lia. reflexivity.
Qed.

Lemma table_index_split j :
  0 <= j < 65536 ->
  j = Z.shiftl (j / 256) 8 + j mod 256 /\ 0 <= j / 256 < 256 /\ 0 <= j mod 256 < 256.
Proof.
  intros Hj. rewrite Z.shiftl_mul_pow2 by lia. change (2 ^ 8) with 256.
  pose proof (Z.div_mod j 256 ltac:(lia)).
  pose proof (Z.mod_pos_bound j 256 ltac:(lia)).
  assert (0 <= j / 256) by (apply Z.div_pos; lia).
  assert (j / 256 < 256) by (apply Z.div_lt_upper_bound; lia).
  lia.
Qed.

Lemma init_count_class16_any t :
  length t = Z.to_nat 65536 -> init_count_class16 t = count_class_lookup16.
Proof.
  intros Ht. apply tbl_get_ext.
  - unfold count_class_lookup16. rewrite !init_count_class16_length.
    rewrite length_replicate. exact Ht.
  - intros j Hj. rewrite init_count_class16_length in Hj.
    assert (Hj' : 0 <= j < 65536).
    { rewrite Ht in Hj. rewrite Z2Nat.id in Hj by (intro; discriminate). exact Hj. }
    destruct (table_index_split j Hj') as (Hs & H1 & H2).
    rewrite Hs.
    rewrite (init_count_class16_entry t _ _ Ht H1 H2).
    rewrite (count_class_lookup16_spec _ _ H1 H2).
    reflexivity.
Qed.

Lemma has_new_bits_heap afl p :
  mem_heap (snd (has_new_bits afl p)) =
  <[p := snd (single_pass (afl_trace afl) 0 (mul_words afl) (0, deref (mem_heap afl) p))]>
    (mem_heap afl).
Proof.
  rewrite has_new_bits_unfold. cbv zeta. cbn [snd].
  destruct (_ && _); reflexivity.
Qed.

Lemma has_new_bits_fst afl p :
  fst (has_new_bits afl p) =
  novelty (afl_trace afl) (mul_words afl) (deref (mem_heap afl) p).
Proof.
  rewrite has_new_bits_unfold. cbv zeta. cbn [fst].
  rewrite single_pass_level by lia. symmetry. apply novelty_level.
Qed.
Lemma NoDup_0_1 : NoDup [0%nat; 1%nat].
Proof.
  apply NoDup_cons_2; [|apply NoDup_cons_2; [|apply NoDup_nil_2]].
  - intros H. apply list_elem_of_In in H. destruct H as [H|[]]. discriminate.
  - intros H. apply list_elem_of_In in H. destruct H.
Qed.

Lemma has_new_bits_map afl p :
  (p < length (mem_heap afl))%nat ->
  (8 * mul_words afl <= length (deref (mem_heap afl) p))%nat ->
  let vm := deref (mem_heap afl) p in
  let vm' := deref (mem_heap (snd (has_new_bits afl p))) p in
  length vm' = length vm
  /\ (forall j, (j < mul_words afl)%nat ->
        load64 vm' j = clear_seen (load64 vm j) (load64 (afl_trace afl) j))
  /\ (forall j, (mul_words afl <= j)%nat -> chunk64 vm' j = chunk64 vm j).
Proof.
  intros Hp Hlen vm vm'. subst vm'. rewrite has_new_bits_heap.
  rewrite deref_insert_eq by exact Hp.
  destruct (single_pass_spec (afl_trace afl) (mul_words afl) 0 0 vm)
    as (_ & L & C & K); [lia|exact Hlen|].
  split; [exact L|]. split.
  - intros j Hj. apply C. lia.
  - intros j Hj. apply K. lia.
Qed.

Lemma three_pair_map_wf : hashmap_wf three_pair_map.
Proof.
  split; [vm_compute; reflexivity|]. split; [reflexivity|].
  intros i chain kv Hi Hin.
  do 8 (destruct i as [|i];
        [cbn in Hi; injection Hi as <-;
         repeat (destruct Hin as [<-|Hin]; [vm_compute; reflexivity|]); destruct Hin|]).
  cbn in Hi. discriminate.
Qed.

Lemma keys_nodup_create n : keys_nodup (hashmap_create n).
Proof. unfold keys_nodup. rewrite contents_create. apply NoDup_nil_2. Qed.

Lemma chain_get_key_absent (l : list key_value_pair) key :
  key ∉ l.*1 -> chain_get l key = None.
Proof.
  intros H. apply chain_get_absent. intros kv Hin Hk. apply H.
  apply list_elem_of_fmap. exists kv. split; [now symmetry|now apply list_elem_of_In].
Qed.

Lemma chain_get_None_key (l : list key_value_pair) key :
  chain_get l key = None -> key ∉ l.*1.
Proof.
  intros H Hin. apply list_elem_of_fmap in Hin. destruct Hin as ([k v] & Hk & Hin).
  cbn in Hk. subst k. rewrite chain_get_None in H. apply (H v).
  now apply list_elem_of_In.
Qed.

(* ================================================================== *)
(** * Lengths of descriptors *)

Lemma strlen_app (a b : string) : strlen (a ++ b) = strlen a + strlen b.
Proof.
  unfold strlen. induction a as [|c a IH]; cbn [String.append String.length]; lia.
Qed.

Lemma strlen_nonneg (a : string) : 0 <= strlen a.
Proof. unfold strlen. lia. Qed.

Lemma strlen_substring_0 (n : nat) (s : string) :
  strlen (substring 0 n s) <= Z.of_nat n.
Proof.
  unfold strlen. revert s. induction n as [|n IH]; intros s.
  - destruct s; cbn; lia.
  - destruct s as [|c s]; cbn [substring String.length]; [lia|].
    specialize (IH s). lia.
Qed.

Lemma describe_op_suffix_length ret (is_timeout : bool) new_bits new_div new_paths :
  strlen ret + (if is_timeout then 6 else 0)
    <= strlen (describe_op_suffix ret is_timeout new_bits new_div new_paths)
    <= strlen ret + (if is_timeout then 6 else 0) + 18.
Proof.
  unfold describe_op_suffix.
  destruct is_timeout, (truthy new_bits), (new_bits =? 2), (truthy new_div),
    (new_div =? 2), (truthy new_paths);
    rewrite ?strlen_app; cbn [strlen String.length Z.of_nat];
    unfold strlen; cbn [String.length]; lia.
Qed.

Lemma s64_u64_small x : - 2 ^ 63 <= x < 2 ^ 63 -> s64 (u64 x) = x.
Proof.
  intros H. unfold s64, u64.
  change (2 ^ 64) with 18446744073709551616 in *.
  change (2 ^ 63) with 9223372036854775808 in *.
  rewrite Zplus_mod_idemp_l.
  rewrite Z.mod_small by lia. lia.
Qed.

(* ================================================================== *)
(** * The save pipeline, path by path *)

Lemma update_path_frequency_Done E afl :
  exists cksum afl1,
    update_path_frequency E afl = Done cksum afl1
    /\ (is_aflrun (settings afl) = true -> cksum = 0 /\ afl1 = afl)
    /\ settings afl1 = settings afl /\ counters afl1 = counters afl
    /\ fsrv afl1 = fsrv afl /\ mem_heap afl1 = mem_heap afl
    /\ events afl1 = events afl.
Proof.
  unfold update_path_frequency. munfold.
  destruct (is_aflrun (settings afl)) eqn:Ha; cbn [negb andb].
  - eexists _, _. split; [reflexivity|]. auto 10.
  - destruct (_ && _).
    + destruct (_ <? _); eexists _, _; (split; [reflexivity|]); cbn;
        (split; [discriminate|auto 10]).
    + eexists _, _. split; [reflexivity|]. split; [discriminate|auto 10].
Qed.

(* ================================================================== *)
(** * Valuation bookkeeping *)



(* ================================================================== *)
(** * Properties of the triage core *)

(** ** Skim and the multi-map pass *)

(** C1. When the read-only pre-filter over the raw trace returns 0, the
    run is dropped without classifying. Had the trace been classified and
    the multi-map pass run on it with [modify = true], the tag would have
    been 0, every level in [new_bits] 0, and every virgin map left as it
    was: nothing novel is lost. The trace holds [map_size] bytes, a
    multiple of the word size, of which [real_map_size] are in use. *)
Theorem skim_false_sound afl vms :
  0 <= real_map_size (fsrv afl) <= map_size (fsrv afl) ->
  map_size (fsrv afl) mod 8 = 0 ->
  (Z.to_nat (map_size (fsrv afl)) <= length (afl_trace afl))%nat ->
  has_new_bits_unclassified afl vms = 0 ->
  let classified := set_fsrv (classify_counts (fsrv afl)) afl in
  fst (has_new_bits_mul classified vms true) = 0
  /\ mem_heap (snd (has_new_bits_mul classified vms true)) = mem_heap afl
  /\ afl_new_bits (snd (has_new_bits_mul classified vms true))
       = replicate (length vms) 0.
Proof.
  intros Hsz Hal Hlen Hskim classified. unfold has_new_bits_unclassified in Hskim.
  destruct (skim _ _ _ _) eqn:Hs; [discriminate|]. clear Hskim.
  pose proof (skim_false _ _ _ _ Hs) as Hz.
  pose proof (mul_words_le_skim afl Hsz) as Hw.
  destruct (classified_bytes_aligned (fsrv afl) ltac:(lia) Hal) as [Hcb Hn].
  unfold afl_trace in *.
  assert (Hmw : mul_words classified = mul_words afl).
  { unfold mul_words, classified, classify_counts. reflexivity. }
  unfold has_new_bits_mul. cbv zeta. fold (mul_words classified). rewrite Hmw.
  rewrite mul_pass_noop.
  - cbn [fst snd mem_heap set_new_bits set_mem_heap afl_new_bits new_bits].
    split; [|split; reflexivity].
    rewrite drop_replicate.
    assert (E : forall n, fold_left Z.max (replicate n 0) 0 = 0).
    { induction n as [|n IH]; cbn; [reflexivity|exact IH]. }
    rewrite E. destruct (length vms); reflexivity.
  - intros i p Hi Hp. cbn [Nat.add] in Hi.
    unfold load64 at 1. unfold afl_trace, classified. cbn [fsrv set_fsrv].
    assert (Hi8 : (8 * i + 8 <= classified_bytes (fsrv afl))%nat).
    { rewrite Hcb.
      assert (Z.of_nat i < (map_size (fsrv afl) + 7) / 8) by lia.
      assert (E : (map_size (fsrv afl) + 7) / 8 = map_size (fsrv afl) / 8).
      { symmetry. pose proof (Z.div_mod (map_size (fsrv afl)) 8 ltac:(lia)).
        apply Z.div_unique with (r := 7); lia. }
      pose proof (Z.div_mod (map_size (fsrv afl)) 8 ltac:(lia)). lia. }
    rewrite classified_chunk by lia.
    apply Hz; [lia|exact Hp].
  - rewrite length_replicate. lia.
Qed.

Lemma skim_false_sound_witness :
  has_new_bits_unclassified known3_afl [0%nat] = 0
  /\ fst (has_new_bits_mul (set_fsrv (classify_counts (fsrv known3_afl)) known3_afl)
            [0%nat] true) = 0
  /\ mem_heap (snd (has_new_bits_mul
                      (set_fsrv (classify_counts (fsrv known3_afl)) known3_afl)
                      [0%nat] true))
     = [virgin_of Byte.xfb; untouched; untouched]
  /\ has_new_bits_unclassified raw3_afl [0%nat] = 1.
Proof.
  assert (H0 : has_new_bits_unclassified known3_afl [0%nat] = 0).
  { unfold has_new_bits_unclassified.
    rewrite skim_map_bucket by (vm_compute; lia). vm_compute. reflexivity. }
  assert (H1 : has_new_bits_unclassified raw3_afl [0%nat] = 1).
  { unfold has_new_bits_unclassified.
    rewrite skim_map_bucket by (vm_compute; lia). vm_compute. reflexivity. }
  split; [exact H0|].
  destruct (skim_false_sound known3_afl [0%nat]) as (T & M & _).
  - vm_compute. split; discriminate.
  - vm_compute. reflexivity.
  - vm_compute. lia.
  - exact H0.
  - split; [exact T|]. split; [exact M|exact H1].
Defined.

(** C3. For pairwise distinct virgin maps with the primary map first,
    [has_new_bits_mul] returns [primary | (diversity << 2)], where
    [primary] is the novelty level of the trace against the first map and
    [diversity] the highest novelty level against the other maps, both
    among 0, 1 and 2. *)
Theorem has_new_bits_mul_tag afl vms modify :
  vms <> [] ->
  (modify = true -> NoDup vms) ->
  let level p := novelty (afl_trace afl) (mul_words afl) (deref (mem_heap afl) p) in
  let primary := level (hd 0%nat vms) in
  let diversity := max_level (map level (tl vms)) in
  fst (has_new_bits_mul afl vms modify) = Z.lor primary (Z.shiftl diversity 2)
  /\ 0 <= primary <= 2 /\ 0 <= diversity <= 2.
Proof.
  intros Hne Hnd level primary diversity.
  assert (Hl : forall p, 0 <= level p <= 2).
  { intros p. unfold level. rewrite novelty_level. apply level_from_range. lia. }
  assert (Hp : 0 <= primary <= 2) by apply Hl.
  assert (Hd : 0 <= diversity <= 2).
  { unfold diversity, max_level. apply fold_max_range; [lia|].
    apply Forall_forall. intros x Hx. apply list_elem_of_In, in_map_iff in Hx.
    destruct Hx as (p & <- & _). apply Hl. }
  split; [|split; assumption].
  pose proof (has_new_bits_mul_levels afl vms modify Hnd) as Hnb.
  unfold has_new_bits_mul in *. cbv zeta in *. cbn [fst snd new_bits set_new_bits] in *.
  fold (mul_words afl) in *. rewrite Hnb. fold level.
  destruct vms as [|p0 rest]; [congruence|].
  cbn [map lookup list_lookup default from_option drop hd tl].
  unfold id. fold primary. change (fold_left Z.max (map level rest) 0) with diversity.
  unfold u8. apply Z.mod_small.
  assert (primary = 0 \/ primary = 1 \/ primary = 2) as [-> | [-> | ->]] by lia;
  assert (diversity = 0 \/ diversity = 1 \/ diversity = 2) as [-> | [-> | ->]] by lia;
  vm_compute; split; congruence.
Qed.

Lemma has_new_bits_mul_tag_witness :
  [0%nat; 1%nat] <> [] /\ NoDup [0%nat; 1%nat] /\
  fst (has_new_bits_mul two_map_afl [0%nat; 1%nat] true) = 6.
Proof.
  assert (Hnd : NoDup [0%nat; 1%nat]).
  { apply NoDup_cons_2; [|apply NoDup_cons_2; [|apply NoDup_nil_2]].
    - intros H. apply list_elem_of_In in H. destruct H as [H|[]]. discriminate.
    - intros H. apply list_elem_of_In in H. destruct H. }
  split; [discriminate|]. split; [exact Hnd|].
  rewrite (proj1 (has_new_bits_mul_tag two_map_afl [0%nat; 1%nat] true
                    ltac:(discriminate) (fun _ => Hnd))).
  vm_compute. reflexivity.
Defined.

(** C2. [has_new_bits_mul] never touches [bitmap_changed]: on a trace
    with a never-seen edge the committing pass returns tag 2 and clears a
    bit of the primary map, yet the flag stays false and [write_bitmap]
    then persists nothing, while [has_new_bits] on the same input raises
    the flag. A whole call of the save pipeline on that input queues the
    test case and ends in the same state of affairs. *)
Theorem has_new_bits_mul_leaves_bitmap_changed E :
  (forall afl vms modify,
     bitmap_changed (snd (has_new_bits_mul afl vms modify)) = bitmap_changed afl)
  /\ fst (has_new_bits_mul fresh_edge_afl [virgin_bits fresh_edge_afl] true) = 2
  /\ deref (mem_heap fresh_edge_afl) (virgin_bits fresh_edge_afl) = untouched
  /\ deref (mem_heap (snd (has_new_bits_mul fresh_edge_afl
                             [virgin_bits fresh_edge_afl] true)))
       (virgin_bits fresh_edge_afl) = virgin_of Byte.xfe
  /\ bitmap_changed (snd (has_new_bits_mul fresh_edge_afl
                            [virgin_bits fresh_edge_afl] true)) = false
  /\ write_bitmap E (snd (has_new_bits_mul fresh_edge_afl
                            [virgin_bits fresh_edge_afl] true))
     = Done tt (snd (has_new_bits_mul fresh_edge_afl
                       [virgin_bits fresh_edge_afl] true))
  /\ bitmap_changed (snd (has_new_bits fresh_edge_afl (virgin_bits fresh_edge_afl)))
     = true
  /\ exists afl',
       save_if_interesting sample_env 1 [Byte.x41] 1 FSRV_RUN_OK 0 fresh_edge_afl
         = Done 1 afl'
       /\ bitmap_changed fresh_edge_afl = false
       /\ bitmap_changed afl' = false
       /\ deref (mem_heap afl') (virgin_bits afl') = virgin_of Byte.xfe
       /\ events afl' =
            [EvLog "[PacFuzz] [targets]";
             EvWriteFile
               "out/queue/id:000000,src:000007,time:5000,execs:0,op:havoc,rep:0,+cov2"
               [Byte.x41]].
Proof.
  split; [intros; apply has_new_bits_mul_bitmap_changed|].
  do 6 (split; [vm_compute; reflexivity|]).
  eexists. split; [lazy; reflexivity|].
  lazy. repeat split; reflexivity.
Qed.

(** ** Classification and counting *)

(** C6. Classification rewrites the trace byte by byte with
    [count_class_lookup8], and a second classification gives the same
    trace exactly when every classified byte holds a count that is 0, 1,
    2 or at least 32; the classes 4, 8, 16 and 32 move up on a second
    pass. *)
Theorem classify_counts_twice f :
  (classified_bytes f <= length (trace_bits f))%nat ->
  trace_bits (classify_counts f) =
    map bucket (take (classified_bytes f) (trace_bits f))
      ++ drop (classified_bytes f) (trace_bits f)
  /\ (classify_counts (classify_counts f) = classify_counts f <->
      Forall (fun b => byte.unsigned b <= 2 \/ 32 <= byte.unsigned b)
        (take (classified_bytes f) (trace_bits f))).
Proof.
  intros H. split.
  - rewrite (classify_counts_eq f H). reflexivity.
  - apply classify_twice_fixed_iff. exact H.
Qed.

Lemma classify_counts_twice_witness :
  (classified_bytes settled_fsrv <= length (trace_bits settled_fsrv))%nat /\
  classify_counts (classify_counts settled_fsrv) = classify_counts settled_fsrv.
Proof.
  assert (H : (classified_bytes settled_fsrv <= length (trace_bits settled_fsrv))%nat)
    by (vm_compute; lia).
  split; [exact H|].
  apply (proj2 (classify_counts_twice settled_fsrv H)).
  change (take (classified_bytes settled_fsrv) (trace_bits settled_fsrv))
    with [Byte.x00; Byte.x01; Byte.x02; Byte.x20; Byte.x40; Byte.x7f; Byte.x80; Byte.xff].
  repeat (constructor;
          [first [ left; vm_compute; discriminate | right; vm_compute; discriminate ]|]).
  constructor.
Defined.

(** A raw count of 3 is classified to 4, and 4 is classified to 8. *)
Lemma classify_counts_not_idempotent :
  trace_bits (classify_counts raw3_fsrv) = word_of Byte.x04 /\
  trace_bits (classify_counts (classify_counts raw3_fsrv)) = word_of Byte.x08 /\
  classify_counts (classify_counts raw3_fsrv) <> classify_counts raw3_fsrv.
Proof.
  assert (E1 : classify_counts raw3_fsrv = sample_fsrv (word_of Byte.x04) 8).
  { rewrite (classify_counts_eq raw3_fsrv) by (vm_compute; lia). vm_compute. reflexivity. }
  assert (E2 : classify_counts (sample_fsrv (word_of Byte.x04) 8)
               = sample_fsrv (word_of Byte.x08) 8).
  { rewrite classify_counts_eq by (vm_compute; lia). vm_compute. reflexivity. }
  rewrite E1, E2. repeat split. discriminate.
Qed.

(** C7. [count_bits] returns the Hamming weight of the map over
    [real_map_size] bytes rounded up to whole 32-bit words, reduced modulo
    [2^32], the width of its result. For a map of at most [2^29 - 4]
    bytes the reduction is void, and with zero padding bytes the count is the
    weight of the first [real_map_size] bytes. *)
Theorem count_bits_hamming_weight afl mem :
  (4 * count_bits_words afl <= length mem)%nat ->
  count_bits afl mem
    = hamming_weight (take (4 * count_bits_words afl) mem) mod 2 ^ 32
  /\ (0 <= real_map_size (fsrv afl) <= 2 ^ 29 - 4 ->
      count_bits afl mem = hamming_weight (take (4 * count_bits_words afl) mem)
      /\ (Forall (fun b => b = Byte.x00)
            (drop (Z.to_nat (real_map_size (fsrv afl)))
               (take (4 * count_bits_words afl) mem)) ->
          count_bits afl mem
            = hamming_weight (take (Z.to_nat (real_map_size (fsrv afl))) mem))).
Proof.
  intros H. split; [now apply count_bits_mod|].
  intros Hsz. pose proof (count_bits_small afl mem H Hsz) as Hs.
  split; [exact Hs|]. intros Hpad. rewrite Hs. now apply hamming_weight_padding.
Qed.

Lemma count_bits_hamming_weight_witness :
  (4 * count_bits_words seen4_afl <= length (virgin_of Byte.x0f))%nat /\
  count_bits seen4_afl (virgin_of Byte.x0f) = 60.
Proof.
  assert (H : (4 * count_bits_words seen4_afl <= length (virgin_of Byte.x0f))%nat)
    by (vm_compute; lia).
  split; [exact H|].
  rewrite (proj1 (count_bits_hamming_weight seen4_afl (virgin_of Byte.x0f) H)).
  vm_compute. reflexivity.
Defined.

(** A map of [2^29] bytes with every bit set holds [2^32] one bits;
    [count_bits] adds 32 for each of its [2^27] words and returns 0. *)
Lemma count_bits_wraps :
  count_bits full_map_afl full_map = 0 /\ hamming_weight full_map = 4294967296.
Proof.
  assert (Hw : count_bits_words full_map_afl = Z.to_nat 134217728) by reflexivity.
  split.
  - rewrite count_bits_mod.
    + rewrite Hw. unfold full_map. rewrite take_replicate, hamming_weight_ones.
      replace (Z.of_nat (Nat.min (4 * Z.to_nat 134217728) (Z.to_nat 536870912)))
        with 536870912 by lia.
      reflexivity.
    + rewrite Hw. unfold full_map. rewrite length_replicate. lia.
  - unfold full_map. rewrite hamming_weight_ones. lia.
Qed.

(** ** Naming *)

(** C8. A descriptor that [describe_op] returns is no longer than
    [max_description_len] (it is shorter), and a descriptor built longer
    than the limit ends the process instead of being returned. *)
Theorem describe_op_length E afl new_bits new_paths max_description_len :
  (forall s,
     describe_op E afl new_bits new_paths max_description_len = Some s ->
     strlen s <= max_description_len) /\
  (forall s,
     describe_op_build E afl new_bits new_paths max_description_len = Some s ->
     max_description_len < strlen s ->
     describe_op E afl new_bits new_paths max_description_len = None).
Proof.
  split.
  - intros s Hs. apply describe_op_Some in Hs. lia.
  - intros s Hb Hl. apply (describe_op_too_long E afl _ _ _ s Hb). lia.
Qed.

Lemma describe_op_length_witness :
  describe_op sample_env fresh_edge_afl 2 0 245
    = Some "src:000007,time:5000,execs:0,op:havoc,rep:0,+cov2"%string /\
  strlen "src:000007,time:5000,execs:0,op:havoc,rep:0,+cov2" <= 245 /\
  describe_op_build sample_env fresh_edge_afl 2 0 10
    = Some "src:000007,time:5000,execs:0,op:havoc,rep:0,+cov2"%string /\
  10 < strlen "src:000007,time:5000,execs:0,op:havoc,rep:0,+cov2" /\
  describe_op sample_env fresh_edge_afl 2 0 10 = None.
Proof.
  assert (H1 : describe_op sample_env fresh_edge_afl 2 0 245
               = Some "src:000007,time:5000,execs:0,op:havoc,rep:0,+cov2"%string)
    by (vm_compute; reflexivity).
  assert (H2 : describe_op_build sample_env fresh_edge_afl 2 0 10
               = Some "src:000007,time:5000,execs:0,op:havoc,rep:0,+cov2"%string)
    by (vm_compute; reflexivity).
  assert (H3 : 10 < strlen "src:000007,time:5000,execs:0,op:havoc,rep:0,+cov2")
    by (vm_compute; reflexivity).
  split; [exact H1|].
  split; [exact (proj1 (describe_op_length sample_env fresh_edge_afl 2 0 245) _ H1)|].
  split; [exact H2|]. split; [exact H3|].
  exact (proj2 (describe_op_length sample_env fresh_edge_afl 2 0 10) _ H2 H3).
Defined.

(** ** Hash map and valuation *)




(** C4. Take a call of [run_valuation] in which the valuation binary
    ran, did not time out and left its side file. The file is hashed and
    the valuation map probed, which on a well-formed map always answers.
    If the hash is there already, the side file is removed, the call
    returns 0 and the map is the one the call started with. If it is
    not, the hash is inserted with a null payload and found from then on,
    and the call returns 1 with the hash and the side file. Hence, over
    any succession of calls, the hashes returned with success are
    pairwise distinct and were absent from the map at the start. *)
Theorem run_valuation_dedup E crashed argv mem len afl valexe covdir fault_tmp afl1 :
  hashmap_wf (value_map afl) ->
  table_size (value_map afl) < 2 ^ 31 ->
  getenv E "PACFIX_VAL_EXE" = Some valexe ->
  getenv E "PACFIX_COV_DIR" = Some covdir ->
  let tmpfile :=
    if truthy crashed
    then (covdir ++ "/__valuation_file_"
            ++ fmt_u (total_saved_crashes (counters afl)))%string
    else (covdir ++ "/__valuation_file_noncrash_"
            ++ fmt_u (total_saved_positives (counters afl)))%string in
  let started :=
    emit (EvWriteTestcase (fst (write_to_testcase E afl mem len 0)))
      (emit (EvRemove tmpfile) (emit (EvChmod tmpfile) afl)) in
  run_valuation_binary E (valexe :: tail argv) 10000
    ("PACFIX_FILENAME=" ++ tmpfile) started = Done fault_tmp afl1 ->
  fault_tmp <> FAULT_TMOUT ->
  file_exists E afl1 tmpfile = true ->
  let hash := hash_file E afl1 tmpfile in
  value_map afl1 = value_map afl
  /\ (exists r, hashmap_get (value_map afl) hash = Some r)
  /\ (forall kvp,
        hashmap_get (value_map afl) hash = Some (Some kvp) ->
        run_valuation E crashed argv mem len afl =
          Done (0, 0, None)
            (emit (EvRemove tmpfile)
               (emit (EvLog "[PacFuzz] [run_valuation] [already-exist]") afl1)))
  /\ (hashmap_get (value_map afl) hash = Some None ->
        exists map1,
          hashmap_insert (value_map afl) hash 0 = Some map1
          /\ hashmap_get map1 hash = Some (Some (hash, 0))
          /\ run_valuation E crashed argv mem len afl =
               Done (1, hash, Some tmpfile) (set_value_map map1 afl1))
  /\ (forall hashes map',
        valuation_runs E (value_map afl) hashes map' ->
        NoDup hashes
        /\ forall h, In h hashes -> hashmap_get (value_map afl) h = Some None).
Proof.
  intros Hwf Hmax Hexe Hdir tmpfile started Hb Hft Hfile hash.
  pose proof (run_valuation_binary_value_map E _ _ _ _ _ _ Hb) as Hvm.
  cbn [value_map emit started] in Hvm.
  assert (Hwf1 : hashmap_wf (value_map afl1)) by (rewrite Hvm; exact Hwf).
  assert (Hrun : run_valuation E crashed argv mem len afl = probe_value_map E tmpfile afl1).
  { unfold run_valuation. munfold. rewrite Hexe, Hdir. fold tmpfile. fold started.
    rewrite Hb. rewrite Hfile.
    destruct fault_tmp; try contradiction; reflexivity. }
  pose proof (probe_value_map_spec E tmpfile afl1 Hwf1) as Hp. cbv zeta in Hp.
  fold hash in Hp. rewrite Hvm in Hp.
  split; [exact Hvm|]. split; [|split; [|split]].
  - destruct (hashmap_get_spec (value_map afl) hash Hwf) as (r & Hr & _). eauto.
  - intros kvp Hg. rewrite Hg in Hp. rewrite Hrun. exact Hp.
  - intros Hg. rewrite Hg in Hp.
    destruct (hashmap_insert_perm (value_map afl) hash 0 Hwf Hmax) as (map1 & Hi & _).
    rewrite Hi in Hp. destruct Hp as [Hp _].
    exists map1. split; [exact Hi|]. split.
    + exact (hashmap_get_inserted _ _ _ _ Hwf Hg Hi).
    + rewrite Hrun. exact Hp.
  - intros hashes map' Hruns.
    destruct (valuation_runs_distinct E _ _ _ Hruns Hwf) as (_ & _ & Hnew & Hnd).
    split; [exact Hnd|]. intros h Hh.
    destruct (hashmap_get_spec (value_map afl) h Hwf) as (r & Hr & Hspec).
    rewrite Hr. destruct r as [kv|]; [|reflexivity].
    destruct Hspec as [Hk Hst]. exfalso.
    apply (proj1 (Hnew h Hh) (snd kv)). destruct kv; cbn in *; now subst.
Qed.

Lemma run_valuation_dedup_witness :
  (exists afl',
     run_valuation sample_env 0 ["./target"%string] [Byte.x41] 1 fresh_edge_afl
       = Done (1, 7, Some "/cov/__valuation_file_noncrash_0"%string) afl'
     /\ hashmap_get (value_map afl') 7 = Some (Some (7, 0)))
  /\ (exists afl',
        run_valuation sample_env 0 ["./target"%string] [Byte.x41] 1 known_hash_afl
          = Done (0, 0, None) afl'
        /\ last (events afl') = Some (EvRemove "/cov/__valuation_file_noncrash_0")
        /\ value_map afl' = value_map known_hash_afl).
Proof.
  assert (Hwf : hashmap_wf (value_map fresh_edge_afl)).
  { split; [vm_compute; reflexivity|]. apply (buckets_ok_empty 4). }
  assert (Hwf' : hashmap_wf (value_map known_hash_afl)).
  { split; [vm_compute; reflexivity|]. split; [reflexivity|].
    intros i chain kv Hi Hin.
    do 4 (destruct i as [|i];
          [cbn in Hi; injection Hi as <-;
           repeat (destruct Hin as [<-|Hin]; [vm_compute; reflexivity|]); destruct Hin|]).
    cbn in Hi. discriminate. }
  split.
  - eassert (Hb : run_valuation_binary sample_env ("/cov"%string :: tail ["./target"%string])
                    10000 "PACFIX_FILENAME=/cov/__valuation_file_noncrash_0"
                    (emit (EvWriteTestcase [Byte.x41])
                       (emit (EvRemove "/cov/__valuation_file_noncrash_0")
                          (emit (EvChmod "/cov/__valuation_file_noncrash_0") fresh_edge_afl)))
                  = Done FAULT_NONE _) by (lazy; reflexivity).
    destruct (run_valuation_dedup sample_env 0 ["./target"%string] [Byte.x41] 1
                fresh_edge_afl "/cov" "/cov" FAULT_NONE _ Hwf
                ltac:(vm_compute; reflexivity) eq_refl eq_refl Hb
                ltac:(discriminate) eq_refl) as (_ & _ & _ & Hnew & _).
    destruct Hnew as (map1 & Hi & Hg & Hr); [vm_compute; reflexivity|].
    eexists. split; [exact Hr|]. exact Hg.
  - eassert (Hb : run_valuation_binary sample_env ("/cov"%string :: tail ["./target"%string])
                    10000 "PACFIX_FILENAME=/cov/__valuation_file_noncrash_0"
                    (emit (EvWriteTestcase [Byte.x41])
                       (emit (EvRemove "/cov/__valuation_file_noncrash_0")
                          (emit (EvChmod "/cov/__valuation_file_noncrash_0") known_hash_afl)))
                  = Done FAULT_NONE _) by (lazy; reflexivity).
    destruct (run_valuation_dedup sample_env 0 ["./target"%string] [Byte.x41] 1
                known_hash_afl "/cov" "/cov" FAULT_NONE _ Hwf'
                ltac:(vm_compute; reflexivity) eq_refl eq_refl Hb
                ltac:(discriminate) eq_refl) as (Hvm & _ & Hold & _).
    eexists. split; [apply (Hold (7, 0)); vm_compute; reflexivity|].
    split; [reflexivity|]. exact Hvm.
Defined.

(** C9. For a run that did not crash and reached no target,
    [get_valuation] writes its log line and returns 0: [run_valuation] is
    not entered, so nothing is forked, no file is touched and the
    valuation map stays as it is. *)
Theorem get_valuation_gate E argv use_mem len afl :
  trace_targets_num (fsrv afl) <= 0 ->
  get_valuation E argv use_mem len 0 afl
    = Done 0 (emit (EvLog "[PacFuzz] [targets]") afl).
Proof. apply get_valuation_skip. Qed.

Lemma get_valuation_gate_witness :
  trace_targets_num (fsrv fresh_edge_afl) <= 0 /\
  get_valuation sample_env [] [] 0 0 fresh_edge_afl
    = Done 0 (emit (EvLog "[PacFuzz] [targets]") fresh_edge_afl).
Proof.
  assert (H : trace_targets_num (fsrv fresh_edge_afl) <= 0) by (vm_compute; discriminate).
  split; [exact H|]. exact (get_valuation_gate sample_env [] [] 0 fresh_edge_afl H).
Defined.

(** ** Save pipeline *)

(** C5. A call of [save_if_interesting] with [len = 0] hands the state
    to [aflrun_recover_virgin] and returns 0; nothing else is done to the
    state, whatever the fault and the other arguments. *)
Theorem save_if_interesting_empty_input E fuel mem fault inc afl :
  save_if_interesting E fuel mem 0 fault inc afl
    = Done 0 (aflrun_recover_virgin E afl).
Proof. reflexivity. Qed.

(* ================================================================== *)
(** * Further properties of the bitmap routines *)

(** X1. [count_bytes] returns the number of non-zero bytes among the
    words it reads; the counter cannot wrap, since at most [2^30 - 1]
    words of four bytes are read. *)
Theorem count_bytes_counts afl mem :
  (4 * count_bits_words afl <= length mem)%nat ->
  count_bytes afl mem = count_where is_set (take (4 * count_bits_words afl) mem)
  /\ 0 <= count_bytes afl mem < 2 ^ 32.
Proof.
  intros H. rewrite count_bytes_spec by exact H. split; [reflexivity|].
  pose proof (count_where_bound is_set (take (4 * count_bits_words afl) mem)) as B.
  pose proof (count_words_bound afl) as W.
  rewrite length_take in B.
  change (2 ^ 30) with 1073741824 in W. change (2 ^ 32) with 4294967296. lia.
Qed.

Lemma count_bytes_counts_witness :
  (4 * count_bits_words eight_byte_afl <= length sparse_map)%nat
  /\ count_bytes eight_byte_afl sparse_map = 2.
Proof.
  assert (H : (4 * count_bits_words eight_byte_afl <= length sparse_map)%nat)
    by (vm_compute; lia).
  split; [exact H|].
  rewrite (proj1 (count_bytes_counts eight_byte_afl sparse_map H)).
  vm_compute. reflexivity.
Defined.

(** X2. [count_non_255_bytes] returns the number of bytes other than
    [0xff] among the words it reads, without wrapping. *)
Theorem count_non_255_bytes_counts afl mem :
  (4 * count_bits_words afl <= length mem)%nat ->
  count_non_255_bytes afl mem =
    count_where is_touched (take (4 * count_bits_words afl) mem)
  /\ 0 <= count_non_255_bytes afl mem < 2 ^ 32.
Proof.
  intros H. rewrite count_non_255_bytes_spec by exact H. split; [reflexivity|].
  pose proof (count_where_bound is_touched (take (4 * count_bits_words afl) mem)) as B.
  pose proof (count_words_bound afl) as W.
  rewrite length_take in B.
  change (2 ^ 30) with 1073741824 in W. change (2 ^ 32) with 4294967296. lia.
Qed.

Lemma count_non_255_bytes_counts_witness :
  (4 * count_bits_words eight_byte_afl <= length sparse_map)%nat
  /\ count_non_255_bytes eight_byte_afl sparse_map = 7.
Proof.
  assert (H : (4 * count_bits_words eight_byte_afl <= length sparse_map)%nat)
    by (vm_compute; lia).
  split; [exact H|].
  rewrite (proj1 (count_non_255_bytes_counts eight_byte_afl sparse_map H)).
  vm_compute. reflexivity.
Defined.

(** X3. [minimize_bits] sets bit [i] of [dst] for every [i < map_size]
    whose trace byte is non-zero, and changes nothing else: the size of
    [dst] and every other bit stay as they were. *)
Theorem minimize_bits_sets_hit_bits afl dst src :
  (Z.to_nat (map_size (fsrv afl)) <= 8 * length dst)%nat ->
  (Z.to_nat (map_size (fsrv afl)) <= length src)%nat ->
  length (minimize_bits afl dst src) = length dst
  /\ forall i,
       bit_of (minimize_bits afl dst src) i =
       bit_of dst i || ((i <? Z.to_nat (map_size (fsrv afl)))%nat && hit src i).
Proof.
  intros Hd _. unfold minimize_bits. apply (minimize_bits_prefix src dst _ Hd).
Qed.

Lemma minimize_bits_sets_hit_bits_witness :
  minimize_bits eight_byte_afl [Byte.x00] sparse_map = [Byte.x0a]
  /\ length (minimize_bits eight_byte_afl [Byte.x00] sparse_map) = 1%nat
  /\ bit_of (minimize_bits eight_byte_afl [Byte.x00] sparse_map) 3 = true.
Proof.
  split; [vm_compute; reflexivity|].
  assert (Hd : (Z.to_nat (map_size (fsrv eight_byte_afl)) <= 8 * length [Byte.x00])%nat)
    by (vm_compute; lia).
  assert (Hs : (Z.to_nat (map_size (fsrv eight_byte_afl)) <= length sparse_map)%nat)
    by (vm_compute; lia).
  destruct (minimize_bits_sets_hit_bits eight_byte_afl [Byte.x00] sparse_map Hd Hs)
    as [Hl Hb].
  split; [exact Hl|]. rewrite Hb. vm_compute. reflexivity.
Defined.

(** X4. [minimize_bits] drops the count information: the result depends
    on the trace only through which bytes are non-zero, so the classified
    trace compacts to the same bitmap as the raw one. *)
Theorem minimize_bits_drops_counts afl dst src :
  (forall src',
     (forall i, (i < Z.to_nat (map_size (fsrv afl)))%nat -> hit src' i = hit src i) ->
     minimize_bits afl dst src' = minimize_bits afl dst src)
  /\ minimize_bits afl dst (List.map bucket src) = minimize_bits afl dst src.
Proof.
  assert (G : forall src',
     (forall i, (i < Z.to_nat (map_size (fsrv afl)))%nat -> hit src' i = hit src i) ->
     minimize_bits afl dst src' = minimize_bits afl dst src).
  { intros src' H. unfold minimize_bits. now apply minimize_bits_same_hits. }
  split; [exact G|]. apply G. intros i _. unfold hit.
  rewrite list_lookup_fmap. destruct (src !! i) as [b|]; cbn; [|reflexivity].
  destruct b; vm_compute; reflexivity.
Qed.

(** X5. Compacting several traces into one bitmap accumulates: the
    order of two calls does not matter and a repeated call changes
    nothing. *)
Theorem minimize_bits_accumulates afl dst src1 src2 :
  (Z.to_nat (map_size (fsrv afl)) <= 8 * length dst)%nat ->
  minimize_bits afl (minimize_bits afl dst src1) src2
    = minimize_bits afl (minimize_bits afl dst src2) src1
  /\ minimize_bits afl (minimize_bits afl dst src1) src1 = minimize_bits afl dst src1.
Proof.
  intros Hd. unfold minimize_bits.
  set (n := Z.to_nat (map_size (fsrv afl))) in *.
  destruct (minimize_bits_prefix src1 dst n Hd) as [L1 B1].
  destruct (minimize_bits_prefix src2 dst n Hd) as [L2 B2].
  set (d1 := fold_left (minimize_bits_body src1) (seq 0 n) dst) in *.
  set (d2 := fold_left (minimize_bits_body src2) (seq 0 n) dst) in *.
  destruct (minimize_bits_prefix src2 d1 n ltac:(lia)) as [L12 B12].
  destruct (minimize_bits_prefix src1 d2 n ltac:(lia)) as [L21 B21].
  destruct (minimize_bits_prefix src1 d1 n ltac:(lia)) as [L11 B11].
  split; apply bit_of_ext; try congruence; intros i.
  - rewrite B12, B21, B1, B2.
    destruct (bit_of dst i), (i <? n)%nat, (hit src1 i), (hit src2 i); reflexivity.
  - rewrite B11, B1.
    destruct (bit_of dst i), (i <? n)%nat, (hit src1 i); reflexivity.
Qed.

Lemma minimize_bits_accumulates_witness :
  minimize_bits eight_byte_afl (minimize_bits eight_byte_afl [Byte.x00] sparse_map)
      (word_of Byte.x01)
    = minimize_bits eight_byte_afl
        (minimize_bits eight_byte_afl [Byte.x00] (word_of Byte.x01)) sparse_map
  /\ minimize_bits eight_byte_afl (minimize_bits eight_byte_afl [Byte.x00] sparse_map)
       sparse_map
     = minimize_bits eight_byte_afl [Byte.x00] sparse_map.
Proof.
  apply (minimize_bits_accumulates eight_byte_afl [Byte.x00] sparse_map (word_of Byte.x01)).
  vm_compute. lia.
Defined.

(** X6. The count classes of [count_class_lookup8]: a count of zero
    stays zero, every other count gets a class with exactly one bit set,
    and larger counts never get a smaller class. *)
Theorem count_class_lookup8_classes (b : byte) :
  (tbl_get count_class_lookup8 (byte.unsigned b) = 0 <-> byte.unsigned b = 0)
  /\ (byte.unsigned b <> 0 ->
      exists k, 0 <= k < 8 /\ tbl_get count_class_lookup8 (byte.unsigned b) = 2 ^ k)
  /\ forall b' : byte,
       byte.unsigned b <= byte.unsigned b' ->
       tbl_get count_class_lookup8 (byte.unsigned b)
         <= tbl_get count_class_lookup8 (byte.unsigned b').
Proof.
  pose proof (byte.unsigned_range b) as Hb. change (2 ^ 8) with 256 in Hb.
  assert (C : lookup8_classes_ok = true) by (vm_compute; reflexivity).
  unfold lookup8_classes_ok in C. rewrite forallb_forall in C.
  specialize (C (byte.unsigned b) (byte_values_in _ Hb)). cbv zeta in C.
  split; [|split].
  - destruct (Z.eqb_spec (byte.unsigned b) 0) as [E|E].
    + apply Z.eqb_eq in C. tauto.
    + split; [|tauto]. intros Hz. rewrite Hz in C. discriminate.
  - intros Hne. destruct (Z.eqb_spec (byte.unsigned b) 0) as [E|E]; [contradiction|].
    unfold is_class_bit in C. apply existsb_exists in C.
    destruct C as (k & Hk & Hc). apply Z.eqb_eq in Hc. exists k. split; [|exact Hc].
    cbn in Hk. lia.
  - intros b' Hle. pose proof (byte.unsigned_range b') as Hb'.
    change (2 ^ 8) with 256 in Hb'. apply lookup8_monotone; lia.
Qed.

(** X7. [init_count_class16] writes every one of the 65536 entries: the
    result does not depend on what the table held before, so running it
    again changes nothing, and the entry of a pair of counts is the pair
    of their classes. *)
Theorem init_count_class16_overwrites tbl :
  length tbl = Z.to_nat 65536 ->
  init_count_class16 tbl = count_class_lookup16
  /\ init_count_class16 (init_count_class16 tbl) = init_count_class16 tbl
  /\ forall b1 b2, 0 <= b1 < 256 -> 0 <= b2 < 256 ->
       tbl_get (init_count_class16 tbl) (Z.shiftl b1 8 + b2) =
       Z.lor (Z.shiftl (tbl_get count_class_lookup8 b1) 8)
             (tbl_get count_class_lookup8 b2).
Proof.
  intros Hlen. split; [exact (init_count_class16_any tbl Hlen)|]. split.
  - rewrite (init_count_class16_any (init_count_class16 tbl))
      by (rewrite init_count_class16_length; exact Hlen).
    symmetry. exact (init_count_class16_any tbl Hlen).
  - intros b1 b2 H1 H2. exact (init_count_class16_entry tbl b1 b2 Hlen H1 H2).
Qed.

Lemma init_count_class16_overwrites_witness :
  length (replicate (Z.to_nat 65536) 7) = Z.to_nat 65536
  /\ init_count_class16 (replicate (Z.to_nat 65536) 7) = count_class_lookup16.
Proof.
  split; [exact (length_replicate (Z.to_nat 65536) 7)|].
  exact (proj1 (init_count_class16_overwrites (replicate (Z.to_nat 65536) 7)
                  (length_replicate (Z.to_nat 65536) 7))).
Defined.

(* ================================================================== *)
(** * Further properties of novelty detection *)

(** X8. [has_new_bits] returns the novelty level of the trace against
    the map it is given: 0 nothing new, 1 a new count class only, 2 a new
    edge. It raises [bitmap_changed] exactly when that level is not 0 and
    the map is the primary one; it leaves the trace and every other map
    as they were. *)
Theorem has_new_bits_level afl p :
  fst (has_new_bits afl p)
    = novelty (afl_trace afl) (mul_words afl) (deref (mem_heap afl) p)
  /\ 0 <= fst (has_new_bits afl p) <= 2
  /\ bitmap_changed (snd (has_new_bits afl p))
       = bitmap_changed afl
         || (negb (fst (has_new_bits afl p) =? 0) && bool_decide (p = virgin_bits afl))
  /\ fsrv (snd (has_new_bits afl p)) = fsrv afl
  /\ forall q, q <> p ->
       deref (mem_heap (snd (has_new_bits afl p))) q = deref (mem_heap afl) q.
Proof.
  split; [apply has_new_bits_fst|]. split.
  { rewrite has_new_bits_fst, novelty_level. apply level_from_range. lia. }
  split; [|split].
  - rewrite has_new_bits_unfold. cbv zeta. cbn [fst snd]. unfold truthy.
    destruct (negb _ && _); cbn [bitmap_changed set_bitmap_changed set_mem_heap];
      [symmetry; apply orb_true_r | now rewrite orb_false_r].
  - rewrite has_new_bits_unfold. cbv zeta. cbn [snd].
    destruct (_ && _); reflexivity.
  - intros q Hq. rewrite has_new_bits_heap. apply deref_insert_ne. congruence.
Qed.

(** X9. [has_new_bits] only clears bits: every word of the map it
    visits becomes the old word without the bits of the trace word, the
    words beyond stay, and the map keeps its size. *)
Theorem has_new_bits_clears_seen afl p :
  (p < length (mem_heap afl))%nat ->
  (8 * mul_words afl <= length (deref (mem_heap afl) p))%nat ->
  let vm := deref (mem_heap afl) p in
  let vm' := deref (mem_heap (snd (has_new_bits afl p))) p in
  length vm' = length vm
  /\ (forall j, (j < mul_words afl)%nat ->
        load64 vm' j = clear_seen (load64 vm j) (load64 (afl_trace afl) j))
  /\ (forall j, (mul_words afl <= j)%nat -> chunk64 vm' j = chunk64 vm j).
Proof. exact (has_new_bits_map afl p). Qed.
Lemma has_new_bits_clears_seen_witness :
  deref (mem_heap (snd (has_new_bits fresh_edge_afl 0%nat))) 0%nat = virgin_of Byte.xfe
  /\ load64 (deref (mem_heap (snd (has_new_bits fresh_edge_afl 0%nat))) 0%nat) 0
     = clear_seen (load64 untouched 0) (load64 (word_of Byte.x01) 0).
Proof.
  split; [vm_compute; reflexivity|].
  destruct (has_new_bits_clears_seen fresh_edge_afl 0%nat) as (_ & C & _).
  - vm_compute. lia.
  - vm_compute. lia.
  - apply (C 0%nat). vm_compute. lia.
Defined.

(** X10. [has_new_bits] updates the map, so a second call on the same
    trace returns 0 and changes nothing at all. *)
Theorem has_new_bits_settles afl p :
  (p < length (mem_heap afl))%nat ->
  (8 * mul_words afl <= length (deref (mem_heap afl) p))%nat ->
  has_new_bits (snd (has_new_bits afl p)) p = (0, snd (has_new_bits afl p)).
Proof.
  intros Hp Hlen.
  destruct (has_new_bits_map afl p Hp Hlen) as (L & C & _). cbv zeta in L, C.
  set (afl1 := snd (has_new_bits afl p)) in *.
  assert (Hf : fsrv afl1 = fsrv afl).
  { unfold afl1. rewrite has_new_bits_unfold. cbv zeta. cbn [snd].
    destruct (_ && _); reflexivity. }
  assert (Ht : afl_trace afl1 = afl_trace afl) by (unfold afl_trace; now rewrite Hf).
  assert (Hw : mul_words afl1 = mul_words afl) by (unfold mul_words; now rewrite Hf).
  rewrite (has_new_bits_unfold afl1 p). cbv zeta. rewrite Ht, Hw.
  rewrite single_pass_noop.
  - cbn [fst snd truthy Z.eqb negb andb]. f_equal.
    unfold deref. destruct (mem_heap afl1 !! p) as [v|] eqn:Hv.
    + cbn [default from_option]. unfold id. rewrite (list_insert_id _ _ _ Hv).
      destruct afl1; reflexivity.
    + apply lookup_ge_None in Hv. rewrite list_insert_ge by exact Hv.
      destruct afl1; reflexivity.
  - intros j Hj. rewrite C by lia. apply clear_seen_disjoint.
Qed.

Lemma has_new_bits_settles_witness :
  fst (has_new_bits fresh_edge_afl 0%nat) = 2
  /\ has_new_bits (snd (has_new_bits fresh_edge_afl 0%nat)) 0%nat
     = (0, snd (has_new_bits fresh_edge_afl 0%nat)).
Proof.
  split; [vm_compute; reflexivity|].
  apply (has_new_bits_settles fresh_edge_afl 0%nat); vm_compute; lia.
Defined.

(** X11. On pairwise distinct maps the committing multi-map pass does
    to every map what [has_new_bits] does to that map alone, and the level
    it records for the map is the value [has_new_bits] returns. *)
Theorem has_new_bits_mul_commits_like_single afl vms :
  NoDup vms ->
  (forall p, In p vms -> (p < length (mem_heap afl))%nat) ->
  forall k p, vms !! k = Some p ->
    afl_new_bits (snd (has_new_bits_mul afl vms true)) !! k
      = Some (fst (has_new_bits afl p))
    /\ deref (mem_heap (snd (has_new_bits_mul afl vms true))) p
       = deref (mem_heap (snd (has_new_bits afl p))) p.
Proof.
  intros Hnd Hlt k p Hk.
  assert (Hin : In p vms) by (apply list_elem_of_In; eapply list_elem_of_lookup_2; exact Hk).
  split.
  - unfold afl_new_bits. rewrite has_new_bits_mul_levels by (intros _; exact Hnd).
    rewrite has_new_bits_fst.
    change (List.map ?f vms) with (f <$> vms).
    rewrite list_lookup_fmap, Hk. reflexivity.
  - rewrite has_new_bits_heap, deref_insert_eq by (now apply Hlt).
    unfold has_new_bits_mul. cbv zeta. cbn [snd mem_heap set_new_bits set_mem_heap].
    fold (mul_words afl).
    destruct (mul_pass_maps (afl_trace afl) vms (mul_words afl) 0
                (replicate (length vms) 0) (mem_heap afl) Hnd Hlt) as (_ & M & _).
    now apply M.
Qed.

Lemma has_new_bits_mul_commits_like_single_witness :
  afl_new_bits (snd (has_new_bits_mul two_map_afl [0%nat; 1%nat] true)) !! 1%nat
    = Some (fst (has_new_bits two_map_afl 1%nat))
  /\ deref (mem_heap (snd (has_new_bits_mul two_map_afl [0%nat; 1%nat] true))) 1%nat
     = deref (mem_heap (snd (has_new_bits two_map_afl 1%nat))) 1%nat.
Proof.
  apply (has_new_bits_mul_commits_like_single two_map_afl [0%nat; 1%nat]).
  - exact NoDup_0_1.
  - intros p [<-|[<-|[]]]; vm_compute; lia.
  - reflexivity.
Defined.



(** X13. After the committing multi-map pass over pairwise distinct
    maps, a further pass over the same trace, dry or committing, returns
    tag 0 and changes no virgin map. *)
Theorem has_new_bits_mul_settles afl vms modify :
  NoDup vms ->
  (forall p, In p vms ->
     (p < length (mem_heap afl))%nat
     /\ (8 * mul_words afl <= length (deref (mem_heap afl) p))%nat) ->
  let afl1 := snd (has_new_bits_mul afl vms true) in
  fst (has_new_bits_mul afl1 vms modify) = 0
  /\ mem_heap (snd (has_new_bits_mul afl1 vms modify)) = mem_heap afl1
  /\ afl_new_bits (snd (has_new_bits_mul afl1 vms modify)) = replicate (length vms) 0.
Proof.
  intros Hnd Hok afl1.
  assert (Hlt : forall p, In p vms -> (p < length (mem_heap afl))%nat)
    by (intros p Hp; apply (Hok p Hp)).
  assert (Hf : fsrv afl1 = fsrv afl) by reflexivity.
  assert (Hw : mul_words afl1 = mul_words afl) by reflexivity.
  assert (Hh : forall p, In p vms ->
            deref (mem_heap afl1) p =
            snd (single_pass (afl_trace afl) 0 (mul_words afl) (0, deref (mem_heap afl) p))).
  { intros p Hp. unfold afl1, has_new_bits_mul. cbv zeta.
    cbn [snd mem_heap set_new_bits set_mem_heap]. fold (mul_words afl).
    destruct (mul_pass_maps (afl_trace afl) vms (mul_words afl) 0
                (replicate (length vms) 0) (mem_heap afl) Hnd Hlt) as (_ & M & _).
    now apply M. }
  unfold has_new_bits_mul at 1 2 3. cbv zeta. fold (mul_words afl1). rewrite Hw.
  change (afl_trace afl1) with (afl_trace afl).
  rewrite mul_pass_noop.
  - cbn [fst snd mem_heap set_new_bits set_mem_heap afl_new_bits new_bits].
    split; [|split; reflexivity].
    rewrite drop_replicate.
    assert (E : forall n, fold_left Z.max (replicate n 0) 0 = 0).
    { induction n as [|n IH]; cbn; [reflexivity|exact IH]. }
    rewrite E. destruct (length vms); reflexivity.
  - intros i p Hi Hp. rewrite (Hh p Hp).
    destruct (single_pass_spec (afl_trace afl) (mul_words afl) 0 0 (deref (mem_heap afl) p))
      as (_ & _ & C & _); [lia|apply (Hok p Hp)|].
    rewrite C by lia. apply clear_seen_disjoint.
  - rewrite length_replicate. lia.
Qed.

Lemma has_new_bits_mul_settles_witness :
  fst (has_new_bits_mul two_map_afl [0%nat; 1%nat] true) = 6
  /\ fst (has_new_bits_mul (snd (has_new_bits_mul two_map_afl [0%nat; 1%nat] true))
            [0%nat; 1%nat] true) = 0.
Proof.
  split; [vm_compute; reflexivity|].
  apply (has_new_bits_mul_settles two_map_afl [0%nat; 1%nat] true).
  - exact NoDup_0_1.
  - intros p [<-|[<-|[]]]; vm_compute; lia.
Defined.

(* ================================================================== *)
(** * Further properties of the hash map *)

(** X14. On a well-formed map [hashmap_get] never traps, and searching
    the one bucket of the key finds what a search of all the stored pairs
    finds: [NULL] exactly when no pair has the key. *)
Theorem hashmap_get_searches_all m key :
  hashmap_wf m ->
  hashmap_get m key = Some (chain_get (contents m) key)
  /\ (hashmap_get m key = Some None <-> forall v, ~ In (key, v) (contents m))
  /\ forall kv, hashmap_get m key = Some (Some kv) -> fst kv = key /\ In kv (contents m).
Proof.
  intros Hwf. pose proof (hashmap_get_contents m key Hwf) as E.
  split; [exact E|]. rewrite E. split.
  - rewrite <- chain_get_None. split; [now intros [= ->]|now intros ->].
  - intros kv [= H]. now apply chain_get_Some.
Qed.

Lemma hashmap_get_searches_all_witness :
  hashmap_get three_pair_map 19 = Some (chain_get (contents three_pair_map) 19)
  /\ hashmap_get three_pair_map 11 = Some None.
Proof.
  split; [apply (hashmap_get_searches_all three_pair_map 19 three_pair_map_wf)|].
  apply (hashmap_get_searches_all three_pair_map 11 three_pair_map_wf).
  intros v Hin. vm_compute in Hin.
  repeat (destruct Hin as [Hin|Hin]; [discriminate|]). destruct Hin.
Defined.

(** X15. Used as [run_valuation] uses it, with a key inserted only
    after a lookup failed, the map is a finite map, resize or not: no key
    is ever stored twice, the inserted key is found with its payload, and
    every other key is looked up as before. *)
Theorem hashmap_insert_fresh m key value :
  hashmap_wf m ->
  table_size m < 2 ^ 31 ->
  keys_nodup m ->
  hashmap_get m key = Some None ->
  exists m',
    hashmap_insert m key value = Some m'
    /\ hashmap_wf m' /\ keys_nodup m'
    /\ hashmap_get m' key = Some (Some (key, value))
    /\ forall key', key' <> key -> hashmap_get m' key' = hashmap_get m key'.
Proof.
  intros Hwf Hmax Hnd Hg.
  rewrite (hashmap_get_contents m key Hwf) in Hg. injection Hg as Hg.
  destruct (hashmap_insert_perm m key value Hwf Hmax) as (m' & E & W & _ & _ & P).
  assert (Hnd1 : NoDup ((key, value) :: contents m).*1).
  { cbn [fmap list_fmap fst]. apply NoDup_cons_2; [|exact Hnd].
    now apply chain_get_None_key. }
  assert (Hnd' : keys_nodup m').
  { unfold keys_nodup. rewrite P. exact Hnd1. }
  exists m'. split; [exact E|]. split; [exact W|]. split; [exact Hnd'|].
  assert (G : forall k, hashmap_get m' k = Some (chain_get ((key, value) :: contents m) k)).
  { intros k. rewrite (hashmap_get_contents m' k W). f_equal.
    apply chain_get_perm; [exact Hnd'|exact P]. }
  split.
  - rewrite G. cbn [chain_get fst]. now rewrite Z.eqb_refl.
  - intros key' Hne. rewrite G, (hashmap_get_contents m key' Hwf).
    cbn [chain_get fst]. destruct (Z.eqb_spec key key'); [congruence|reflexivity].
Qed.

Lemma hashmap_insert_fresh_witness :
  exists m',
    hashmap_insert (hashmap_create 1) 5 0 = Some m'
    /\ table_size m' = 2
    /\ hashmap_get m' 5 = Some (Some (5, 0))
    /\ hashmap_get m' 9 = Some None.
Proof.
  destruct (hashmap_insert_fresh (hashmap_create 1) 5 0) as (m' & E & _ & _ & G & O).
  - apply hashmap_create_wf. lia.
  - vm_compute. reflexivity.
  - apply keys_nodup_create.
  - vm_compute. reflexivity.
  - exists m'. split; [exact E|]. split.
    + vm_compute in E. injection E as <-. reflexivity.
    + split; [exact G|]. rewrite (O 9) by discriminate. vm_compute. reflexivity.
Defined.

(** X16. On a map with no key stored twice [hashmap_remove] makes the
    key absent and leaves every other key as it was; removing a key that
    is not there returns the map unchanged. *)
Theorem hashmap_remove_key m key :
  hashmap_wf m ->
  keys_nodup m ->
  exists m',
    hashmap_remove m key = Some m'
    /\ hashmap_wf m' /\ keys_nodup m'
    /\ hashmap_get m' key = Some None
    /\ (forall key', key' <> key -> hashmap_get m' key' = hashmap_get m key')
    /\ (hashmap_get m key = Some None -> m' = m).
Proof.
  intros Hwf Hnd.
  destruct (hashmap_remove_perm m key Hwf) as (m' & E & W & _ & C).
  exists m'. split; [exact E|]. split; [exact W|].
  rewrite (hashmap_get_contents m key Hwf).
  destruct (chain_get (contents m) key) as [kv|] eqn:G.
  - destruct C as [_ P].
    destruct (chain_get_Some _ _ _ G) as [Hk _].
    assert (Hnd1 : NoDup (kv :: contents m').*1).
    { rewrite <- P. exact Hnd. }
    cbn [fmap list_fmap] in Hnd1. apply NoDup_cons in Hnd1. destruct Hnd1 as [Hni Hnd'].
    split; [exact Hnd'|]. split; [|split].
    + rewrite (hashmap_get_contents m' key W). f_equal.
      apply chain_get_key_absent. now rewrite <- Hk.
    + intros key' Hne.
      rewrite (hashmap_get_contents m' key' W), (hashmap_get_contents m key' Hwf). f_equal.
      rewrite (chain_get_perm (contents m) (kv :: contents m') key' Hnd P).
      cbn [chain_get]. destruct (Z.eqb_spec (fst kv) key'); [congruence|reflexivity].
    + discriminate.
  - subst m'. split; [exact Hnd|]. split; [|split; [reflexivity|reflexivity]].
    rewrite (hashmap_get_contents m key Hwf). now rewrite G.
Qed.

Lemma hashmap_remove_key_witness :
  exists m',
    hashmap_remove two_key_map 7 = Some m'
    /\ hashmap_get m' 7 = Some None
    /\ hashmap_get m' 3 = Some (Some (3, 30)).
Proof.
  destruct (hashmap_remove_key two_key_map 7) as (m' & E & _ & _ & G & O & _).
  - split; [vm_compute; reflexivity|]. split; [reflexivity|].
    intros i chain kv Hi Hin.
    do 4 (destruct i as [|i];
          [cbn in Hi; injection Hi as <-;
           repeat (destruct Hin as [<-|Hin]; [vm_compute; reflexivity|]); destruct Hin|]).
    cbn in Hi. discriminate.
  - unfold keys_nodup. vm_compute.
    apply NoDup_cons_2; [|apply NoDup_cons_2; [|apply NoDup_nil_2]].
    + intros H. apply list_elem_of_In in H. destruct H as [H|[]]. discriminate.
    + intros H. apply list_elem_of_In in H. destruct H.
  - exists m'. split; [exact E|]. split; [exact G|].
    rewrite (O 3) by discriminate. vm_compute. reflexivity.
Defined.

(** X17. That [size] is the number of stored pairs, duplicates
    included, modulo [2^32], is kept by [hashmap_insert] and
    [hashmap_remove]: an insert adds one pair, a remove takes one pair
    away when the key is stored and none otherwise, and [hashmap_size]
    follows. *)
Theorem hashmap_size_counts m key value :
  hashmap_wf m ->
  table_size m < 2 ^ 31 ->
  hashmap_size m = u32 (Z.of_nat (length (contents m))) ->
  (exists m',
     hashmap_insert m key value = Some m'
     /\ hashmap_size m' = u32 (Z.of_nat (length (contents m')))
     /\ length (contents m') = S (length (contents m)))
  /\ (exists m',
        hashmap_remove m key = Some m'
        /\ hashmap_size m' = u32 (Z.of_nat (length (contents m')))
        /\ length (contents m') =
             (match chain_get (contents m) key with
              | Some _ => pred (length (contents m))
              | None => length (contents m)
              end)).
Proof.
  intros Hwf Hmax Hs. unfold hashmap_size in *. split.
  - destruct (hashmap_insert_perm m key value Hwf Hmax) as (m' & E & _ & Hsz & _ & P).
    exists m'. split; [exact E|].
    assert (L : length (contents m') = S (length (contents m))).
    { rewrite P. reflexivity. }
    split; [|exact L]. rewrite Hsz, Hs, L, Nat2Z.inj_succ. unfold u32.
    rewrite Zplus_mod_idemp_l. f_equal; lia.
  - destruct (hashmap_remove_perm m key Hwf) as (m' & E & _ & _ & C).
    exists m'. split; [exact E|].
    destruct (chain_get (contents m) key) as [kv|].
    + destruct C as [Hsz P].
      assert (L : length (contents m) = S (length (contents m'))).
      { rewrite P. reflexivity. }
      split; [|rewrite L; reflexivity].
      rewrite Hsz, Hs, L, Nat2Z.inj_succ. unfold u32.
      rewrite Zminus_mod_idemp_l. f_equal; lia.
    + subst m'. split; [exact Hs|reflexivity].
Qed.

Lemma hashmap_size_counts_witness :
  hashmap_size three_pair_map = 3
  /\ exists m', hashmap_remove three_pair_map 3 = Some m' /\ hashmap_size m' = 2.
Proof.
  split; [reflexivity|].
  destruct (hashmap_size_counts three_pair_map 3 0 three_pair_map_wf) as (_ & m' & E & S & L).
  - vm_compute. reflexivity.
  - vm_compute. reflexivity.
  - exists m'. split; [exact E|]. rewrite S, L. vm_compute. reflexivity.
Defined.

(** X18. [hashmap_insert] keeps the load at one half or less: on a
    well-formed map that is not more than half full and can still double,
    the insert succeeds, the table keeps its size or doubles, and the new
    map is well formed and again not more than half full. *)
Theorem hashmap_load_factor m key value :
  hashmap_wf m ->
  table_size m < 2 ^ 31 ->
  0 <= size m <= table_size m / 2 ->
  exists m',
    hashmap_insert m key value = Some m'
    /\ hashmap_wf m'
    /\ size m' = size m + 1
    /\ (table_size m' = table_size m \/ table_size m' = 2 * table_size m)
    /\ size m' <= table_size m' / 2.
Proof.
  intros Hwf Hmax Hs. pose proof Hwf as [Hts _].
  destruct (hashmap_insert_perm m key value Hwf Hmax) as (m' & E & W & S & T & _).
  assert (Hdiv : table_size m / 2 < 2 ^ 31) by (apply Z.div_lt_upper_bound; lia).
  assert (Hu : u32 (size m + 1) = size m + 1).
  { unfold u32. apply Z.mod_small. change (2 ^ 31) with 2147483648 in *.
    change (2 ^ 32) with 4294967296. lia. }
  rewrite Hu in *.
  exists m'. split; [exact E|]. split; [exact W|]. split; [exact S|].
  rewrite S, T.
  destruct (Z.gtb_spec (size m + 1) (table_size m / 2)) as [Hgt|Hle].
  - split; [now right|].
    replace (2 * table_size m / 2) with (table_size m)
      by (symmetry; rewrite Z.mul_comm; apply Z.div_mul; lia).
    pose proof (Z.div_mod (table_size m) 2 ltac:(lia)).
    pose proof (Z.mod_pos_bound (table_size m) 2 ltac:(lia)). lia.
  - split; [now left|lia].
Qed.

Lemma hashmap_load_factor_witness :
  exists m',
    hashmap_insert (hashmap_create 1) 5 0 = Some m'
    /\ size m' = 1 /\ size m' <= table_size m' / 2.
Proof.
  destruct (hashmap_load_factor (hashmap_create 1) 5 0) as (m' & E & _ & S & _ & L).
  - apply hashmap_create_wf. lia.
  - vm_compute. reflexivity.
  - vm_compute. split; discriminate.
  - exists m'. split; [exact E|]. split; [exact S|exact L].
Defined.

(** X19. A map fresh from [hashmap_create] with at least one bucket is
    well formed and empty: its size is 0, every lookup answers [NULL] and
    removing any key leaves it as it is. *)
Theorem hashmap_create_empty n key :
  0 < n ->
  hashmap_wf (hashmap_create n)
  /\ keys_nodup (hashmap_create n)
  /\ hashmap_size (hashmap_create n) = 0
  /\ contents (hashmap_create n) = []
  /\ hashmap_get (hashmap_create n) key = Some None
  /\ hashmap_remove (hashmap_create n) key = Some (hashmap_create n).
Proof.
  intros Hn. pose proof (hashmap_create_wf n Hn) as Hwf.
  assert (G : hashmap_get (hashmap_create n) key = Some None).
  { rewrite (hashmap_get_contents _ key Hwf), contents_create. reflexivity. }
  split; [exact Hwf|]. split; [apply keys_nodup_create|]. split; [reflexivity|].
  split; [apply contents_create|]. split; [exact G|].
  destruct (hashmap_remove_perm (hashmap_create n) key Hwf) as (m' & E & _ & _ & C).
  rewrite contents_create in C. cbn [chain_get] in C. now subst m'.
Qed.

Lemma hashmap_create_empty_witness :
  hashmap_get (hashmap_create 4) 7 = Some None
  /\ hashmap_remove (hashmap_create 4) 7 = Some (hashmap_create 4).
Proof.
  destruct (hashmap_create_empty 4 7) as (_ & _ & _ & _ & G & R); [lia|].
  split; [exact G|exact R].
Defined.

(* ================================================================== *)
(** * Further properties of naming, the pipeline, the valuation and the bitmap file *)

(** X20. With a custom mutator whose [afl_custom_describe] hook answers
    with a text, the room left for that text is computed so that the
    whole descriptor, suffixes included, stays two characters short of
    the smaller of [max_description_len] and 256: the final length check
    never fires. *)
Theorem describe_op_custom_fits E afl new_bits new_paths max_description_len cm hook s :
  syncing_party (settings afl) = None ->
  current_custom_fuzz (settings afl) = Some cm ->
  afl_custom_describe cm = Some hook ->
  (forall n, hook n <> None /\ hook n <> Some ""%string) ->
  0 <= max_description_len ->
  describe_op_build E afl new_bits new_paths max_description_len = Some s ->
  strlen s < 2 ^ 62 ->
  strlen s + 2 <= Z.min max_description_len 256
  /\ describe_op E afl new_bits new_paths max_description_len = Some s.
Proof.
  intros Hsync Hcm Hhook Htext Hmax Hb Hlen.
  assert (Hfit : strlen s + 2 <= Z.min max_description_len 256).
  { unfold describe_op_build, describe_op_stem in Hb.
    rewrite Hsync, Hcm in Hb. cbn [mbind option_bind] in Hb. rewrite Hhook in Hb.
    cbv zeta in Hb.
    set (tout := truthy (Z.land new_bits 240)) in *.
    set (rml := Z.min max_description_len 256) in *.
    match type of Hb with context [strlen (?p ++ ",")] => set (pre := (p ++ ",")%string) in * end.
    set (x := rml - strlen pre - strlen ",+cov2" - strlen ",+div2" - strlen ",+path" - 2) in *.
    set (left := if tout then s64 (u64 (s64 (u64 x) - strlen ",+tout")) else s64 (u64 x)) in *.
    destruct (Z.leb_spec left 0) as [Hle|Hpos]; [discriminate|].
    destruct (Htext left) as [Hn He].
    assert (Hs : exists d, s = describe_op_suffix (pre ++ substring 0 (Z.to_nat left) d)
                              tout (Z.land (if tout then u8 (new_bits - 128) else new_bits) 3)
                              (Z.shiftr (if tout then u8 (new_bits - 128) else new_bits) 2)
                              new_paths).
    { destruct (hook left) as [[|c d]|]; try congruence.
      cbn [mbind option_bind] in Hb. injection Hb as <-. exists (String c d). reflexivity. }
    destruct Hs as [d ->].
    match type of Hlen with strlen (describe_op_suffix ?r ?t ?a ?b ?c) < _ =>
      pose proof (describe_op_suffix_length r t a b c) as Hsuf end.
    rewrite strlen_app in Hsuf.
    pose proof (strlen_substring_0 (Z.to_nat left) d) as Hsub.
    pose proof (strlen_nonneg (substring 0 (Z.to_nat left) d)) as Hsub0.
    pose proof (strlen_nonneg pre) as Hpre.
    assert (Hrml : 0 <= rml <= 256) by (unfold rml; lia).
    change (strlen ",+cov2") with 6 in *. change (strlen ",+div2") with 6 in *.
    change (strlen ",+path") with 6 in *. change (strlen ",+tout") with 6 in *.
    change (2 ^ 62) with 4611686018427387904 in *.
    assert (Hx : - 2 ^ 63 <= x < 2 ^ 63).
    { unfold x. change (2 ^ 63) with 9223372036854775808. destruct tout; lia. }
    assert (Hleft : left = if tout then x - 6 else x).
    { unfold left. rewrite (s64_u64_small x Hx). destruct tout; [|reflexivity].
      apply s64_u64_small. unfold x. change (2 ^ 63) with 9223372036854775808. lia. }
    clearbody left. subst left.
    destruct tout; cbv iota in *; unfold x in *; lia. }
  split; [exact Hfit|].
  unfold describe_op. rewrite Hb. cbn [mbind option_bind].
  destruct (Z.leb_spec max_description_len (strlen s)); [lia|reflexivity].
Qed.

Lemma describe_op_custom_fits_witness :
  exists s,
    describe_op sample_env custom_afl 130 0 60 = Some s
    /\ strlen s + 2 <= 60.
Proof.
  assert (H : exists s, describe_op_build sample_env custom_afl 130 0 60 = Some s
                        /\ strlen s < 2 ^ 62).
  { eexists. split; [vm_compute; reflexivity|vm_compute; reflexivity]. }
  destruct H as (s & Hb & Hl). exists s.
  destruct (describe_op_custom_fits sample_env custom_afl 130 0 60 _ _ s
              eq_refl eq_refl eq_refl) as [Hfit Hd].
  - intros n. split; discriminate.
  - lia.
  - exact Hb.
  - exact Hl.
  - split; [exact Hd|]. exact Hfit.
Defined.

(** X21. A run that could not be executed ends the process: for an
    input that is not empty and the fault [FSRV_RUN_ERROR],
    [save_if_interesting] stops with the fatal error [Unable to execute
    target application], whatever the state and the collaborators. *)
Theorem save_if_interesting_run_error E fuel mem len inc afl :
  len <> 0 ->
  save_if_interesting E fuel mem len FSRV_RUN_ERROR inc afl
    = Fatal "Unable to execute target application".
Proof.
  intros Hlen. unfold save_if_interesting.
  destruct (Z.eqb_spec len 0) as [|_]; [contradiction|].
  destruct (update_path_frequency_Done E afl) as (cksum & afl1 & Hpf & _).
  unfold mbind at 1, M_bind at 1. rewrite Hpf.
  cbn [bool_decide decide_rel orb]. 
  reflexivity.
Qed.

Lemma save_if_interesting_run_error_witness :
  save_if_interesting sample_env 0 [Byte.x41] 1 FSRV_RUN_ERROR 0 fresh_edge_afl
    = Fatal "Unable to execute target application".
Proof. apply save_if_interesting_run_error. discriminate. Defined.

(** X22. Once [KEEP_UNIQUE_HANG] hangs are kept, a timeout is counted
    and nothing more: under the AFLRun scheduler [save_if_interesting]
    lets the scheduler recover its virgin state, increments [total_tmouts]
    and returns 0; there is no re-run and no classification, and no map
    or file is touched. *)
Theorem save_if_interesting_hang_cap E fuel mem len inc afl :
  len <> 0 ->
  is_aflrun (settings afl) = true ->
  KEEP_UNIQUE_HANG E <= saved_hangs (counters (aflrun_recover_virgin E afl)) ->
  save_if_interesting E (S fuel) mem len FSRV_RUN_TMOUT inc afl
    = Done 0 (set_counters (inc_total_tmouts (counters (aflrun_recover_virgin E afl)))
                (aflrun_recover_virgin E afl)).
Proof.
  intros Hlen Hrun Hcap. unfold save_if_interesting.
  destruct (Z.eqb_spec len 0) as [|_]; [contradiction|].
  destruct (update_path_frequency_Done E afl) as (cksum & afl1 & Hpf & Hsame & _).
  destruct (Hsame Hrun) as [-> ->].
  unfold mbind at 1, M_bind at 1. rewrite Hpf.
  change (bool_decide (FSRV_RUN_TMOUT = FSRV_RUN_CRASH)) with false.
  change (bool_decide (FSRV_RUN_TMOUT = FSRV_RUN_OK)) with false.
  cbn [orb tmout_case].
  munfold. unfold bump. munfold.
  cbn [counters set_counters inc_total_tmouts saved_hangs].
  destruct (Z.leb_spec (KEEP_UNIQUE_HANG E) (saved_hangs (counters (aflrun_recover_virgin E afl))));
    [reflexivity|lia].
Qed.

Lemma save_if_interesting_hang_cap_witness :
  save_if_interesting sample_env 1 [Byte.x41] 1 FSRV_RUN_TMOUT 0 hangs_full_afl
    = Done 0 (set_counters (mk_counters 0 1 0 500 0 0 0 0 0 0 0 0) fresh_edge_afl).
Proof.
  apply (save_if_interesting_hang_cap sample_env 0 [Byte.x41] 1 0 hangs_full_afl).
  - discriminate.
  - reflexivity.
  - vm_compute. discriminate.
Defined.







(** X26. [hash_file] hashes the first [2^25] bytes at most: two side
    files that agree on them get the same hash, whatever follows, so the
    valuation map takes them for the same valuation. *)
Theorem hash_file_reads_prefix E afl afl' f f' d d' :
  file_contents E afl f = Some d ->
  file_contents E afl' f' = Some d' ->
  take (Z.to_nat (2 ^ 25)) d = take (Z.to_nat (2 ^ 25)) d' ->
  hash_file E afl f = hash_file E afl' f'.
Proof.
  intros Hd Hd' Hp. unfold hash_file. rewrite Hd, Hd'.
  assert (T : forall l : list byte,
            take (Z.to_nat (if Z.of_nat (length l) <? Z.shiftl 1 25
                            then Z.of_nat (length l) else Z.shiftl 1 25)) l
            = take (Z.to_nat (2 ^ 25)) l).
  { intros l. change (Z.shiftl 1 25) with (2 ^ 25).
    destruct (Z.ltb_spec (Z.of_nat (length l)) (2 ^ 25)); [|reflexivity].
    rewrite Nat2Z.id, firstn_all. symmetry. apply take_ge. lia. }
  rewrite !T, Hp. reflexivity.
Qed.

Lemma hash_file_reads_prefix_witness :
  hash_file sample_env fresh_edge_afl "/cov/a" = hash_file sample_env known_hash_afl "/cov/b".
Proof.
  apply (hash_file_reads_prefix sample_env fresh_edge_afl known_hash_afl "/cov/a" "/cov/b"
           [Byte.x2a] [Byte.x2a]); reflexivity.
Defined.

(** X27. Novelty against the primary map reaches the disk: once
    [has_new_bits] has reported a level other than 0 on [virgin_bits],
    [write_bitmap] writes the first [map_size] bytes of the updated map to
    [out_dir/fuzz_bitmap] and clears the flag, so that a second call
    writes nothing; when the file cannot be opened the process ends. *)
Theorem write_bitmap_persists E afl :
  fst (has_new_bits afl (virgin_bits afl)) <> 0 ->
  let afl1 := snd (has_new_bits afl (virgin_bits afl)) in
  let fname := snprintf_path E (out_dir (settings afl) ++ "/fuzz_bitmap") in
  let written :=
    emit (EvWriteFile fname
            (take (Z.to_nat (map_size (fsrv afl)))
                  (deref (mem_heap afl1) (virgin_bits afl))))
         (set_bitmap_changed false afl1) in
  (open_fails E afl1 fname = false ->
     write_bitmap E afl1 = Done tt written
     /\ write_bitmap E written = Done tt written)
  /\ (open_fails E afl1 fname = true ->
        write_bitmap E afl1 = Fatal ("Unable to open '" ++ fname ++ "'")).
Proof.
  intros Hnew afl1 fname written.
  assert (Hs : settings afl1 = settings afl /\ fsrv afl1 = fsrv afl
               /\ virgin_bits afl1 = virgin_bits afl /\ bitmap_changed afl1 = true).
  { unfold afl1. rewrite has_new_bits_unfold. cbv zeta. cbn [snd].
    rewrite has_new_bits_unfold in Hnew. cbv zeta in Hnew. cbn [fst] in Hnew.
    unfold truthy. destruct (Z.eqb_spec (fst (single_pass (afl_trace afl) 0 (mul_words afl)
                                               (0, deref (mem_heap afl) (virgin_bits afl)))) 0)
      as [|_]; [contradiction|].
    cbn [negb andb]. rewrite bool_decide_eq_true_2 by reflexivity. auto. }
  destruct Hs as (Hset & Hf & Hv & Hb).
  assert (W : forall r, open_fails E afl1 fname = r ->
            write_bitmap E afl1 = if r then Fatal ("Unable to open '" ++ fname ++ "'")
                                  else Done tt written).
  { intros r Hr. unfold write_bitmap. munfold. rewrite Hb. cbn [negb].
    rewrite Hset. fold fname. rewrite Hr. destruct r; [reflexivity|].
    rewrite Hf, Hv. reflexivity. }
  split.
  - intros Ho. split; [exact (W false Ho)|].
    unfold write_bitmap. munfold. reflexivity.
  - intros Ho. exact (W true Ho).
Qed.

Lemma write_bitmap_persists_witness :
  write_bitmap sample_env (snd (has_new_bits fresh_edge_afl 0%nat))
    = Done tt
        (emit (EvWriteFile "out/fuzz_bitmap" (virgin_of Byte.xfe))
           (set_bitmap_changed false (snd (has_new_bits fresh_edge_afl 0%nat)))).
Proof.
  destruct (write_bitmap_persists sample_env fresh_edge_afl) as [W _].
  - vm_compute. discriminate.
  - destruct (W eq_refl) as [W1 _]. exact W1.
Defined.


